(** * msearch: a key -> multi-value store on a memory-mapped append-only file

    Shallow embedding of [msearch.go] and the properties of its record/chain
    format.  Go's [string] is an immutable byte sequence, so keys and values
    are [list byte]; Go's [int] is modelled by [Z] (every index that survives
    a bounds check is below the length of the mapping, so additions of such
    indices do not wrap), while the fixed-width conversions the code performs
    ([byte(..)], [uint8] sums, [uint64(..)], the shift in [bigUint64]) have their
    wrap-around written out.  A Go run-time panic is the outcome [Panic]; the
    unbounded [for] loops that follow [next] links take fuel and report
    [Timeout] when it runs out. *)

From Stdlib Require Import ZArith Lia.
From Stdlib Require Import Strings.Byte Strings.String.
From stdpp Require Import base option list gmap.

Local Open Scope Z_scope.

(** ** Bytes and fixed-width integers *)

Abbreviation byte := Byte.byte.
Abbreviation gostring := (list Byte.byte).

#[global] Instance byte_eq_dec : EqDecision Byte.byte := Byte.byte_eq_dec.
#[global] Instance byte_countable : Countable Byte.byte :=
  inj_countable Byte.to_N Byte.of_N Byte.of_to_N.

Definition len {A} (l : list A) : Z := Z.of_nat (length l).

(** A Go string literal. *)
Definition str (s : string) : gostring := list_byte_of_string s.

(** [int(b)] for a byte [b]. *)
Definition b2z (b : byte) : Z := Z.of_N (Byte.to_N b).

(** [byte(z)]: conversion to [uint8] keeps the low eight bits. *)
Definition z2b (z : Z) : byte := default x00 (Byte.of_N (Z.to_N (z mod 256))).

(** Two's-complement wrap of a 64-bit [int]. *)
Definition wrap64 (z : Z) : Z := (z + 2 ^ 63) mod 2 ^ 64 - 2 ^ 63.

(** [bigUint64]: big-endian decoding of at most eight bytes. *)
Definition bigUint64 (buf : gostring) : Z :=
  if 8 <? len buf then 0
  else fold_left (fun x b => wrap64 (Z.lor (Z.shiftl x 8) (b2z b))) buf 0.

(** The eight bytes [binary.BigEndian.PutUint64] stores for [uint64(v)]. *)
Definition be64 (v : Z) : list byte :=
  map (fun k => z2b (Z.shiftr v (8 * k))) [7; 6; 5; 4; 3; 2; 1; 0].

(** ** Byte arrays *)

(** [m[lo : lo+n]] as a value (after its bounds check). *)
Definition sub (m : list byte) (lo n : Z) : list byte :=
  take (Z.to_nat n) (drop (Z.to_nat lo) m).

(** [m[i]] (after its bounds check). *)
Definition rd (m : list byte) (i : Z) : byte := default x00 (m !! Z.to_nat i).

(** [copy(m[p:], bs)]: overwrites from [p], as many bytes as fit. *)
Definition blit (m : list byte) (p : Z) (bs : list byte) : list byte :=
  take (Z.to_nat p) m
    ++ take (length m - Z.to_nat p)%nat bs
    ++ drop (Z.to_nat p + length bs)%nat m.

Definition zeros (n : Z) : list byte := replicate (Z.to_nat n) x00.

(** The bounds check of a slice expression [m[lo:hi]] on a slice whose
    capacity is its length. *)
Definition in_slice (m : list byte) (lo hi : Z) : bool :=
  (0 <=? lo) && (lo <=? hi) && (hi <=? len m).

(** ** Outcomes *)

Inductive outcome (A : Type) : Type :=
| Ret (a : A)
| Panic
| Timeout.
Arguments Ret {A} a.
Arguments Panic {A}.
Arguments Timeout {A}.

Inductive error := ValueTooLarge | IoError.

(** How the next [f.Write] behaves: it stores the whole buffer, or only its
    first [n] bytes and reports an error. *)
Inductive write_result := WriteAll | WriteShort (n : nat).

(** ** The engine state *)

Definition notExist : Z := -1.

(** [f_pos] is the position of the file handle [f]; [bytesAddr] is the shared
    mapping, a window of fixed length on the file from offset 0. *)
Record Msearch := mkMsearch {
  f_pos : Z;
  offset : Z;
  keyMap : gmap gostring Z;
  bytesAddr : list byte
}.

Definition set_bytes (s : Msearch) (m : list byte) : Msearch :=
  mkMsearch (f_pos s) (offset s) (keyMap s) m.

(** Modelled from the spec: the platform mapping (spec 4.1). The mapping has
    the configured length, shows the file contents and reads zero past the
    end of the file. *)
Definition DefaultLength : Z := 64 * 2 ^ 30.

Definition NewMsearch (file : list byte) (length : Z) : Msearch :=
  let length := if length <=? 0 then DefaultLength else length in
  mkMsearch 0 0 ∅ (take (Z.to_nat length) (file ++ zeros (length - len file))).

(** ** Reading a record: [get] and [gets] *)

Fixpoint get_loop (fuel : nat) (m : list byte) (o total i : Z)
    (vals : list gostring) : outcome (list gostring) :=
  if total - 16 <? 0 then Panic
  else if negb (i <? total - 16) then Ret vals
  else match fuel with
  | O => Timeout
  | S fuel =>
      let bi := b2z (rd m (o + i)) in
      if bi =? 0 then get_loop fuel m o total (i + 1) vals
      else if negb (i + 1 + bi <=? len m - o) then Panic
      else get_loop fuel m o total (i + 1 + bi) (vals ++ [sub m (o + i + 1) bi])
  end.

(** The header of every record scan: [total], the slice [b] and the start
    index [int(b[8] + 1 + 8)], a sum of [uint8] values. *)
Definition scan_start (m : list byte) (o : Z) : Z :=
  (b2z (rd m (o + 8)) + 1 + 8) mod 256.

Definition get (s : Msearch) (o : Z) : outcome (list gostring * Z) :=
  let m := bytesAddr s in
  if negb (in_slice m o (o + 8)) then Panic else
  let total := bigUint64 (sub m o 8) in
  if negb (in_slice m o (o + total)) then Panic else
  if negb (8 <? total) then Panic else
  let i0 := scan_start m o in
  match get_loop (Z.to_nat (total - 16 - i0)) m o total i0 [] with
  | Ret vals => Ret (vals, bigUint64 (sub m (o + total - 8) 8))
  | Panic => Panic
  | Timeout => Timeout
  end.

Fixpoint gets_loop (fuel : nat) (s : Msearch) (o : Z) (lists : list gostring)
    : outcome (list gostring) :=
  match fuel with
  | O => Timeout
  | S fuel =>
      match get s o with
      | Ret (vals, d) =>
          let lists := lists ++ vals in
          if d =? 0 then Ret lists else gets_loop fuel s d lists
      | Panic => Panic
      | Timeout => Timeout
      end
  end.

Definition gets (fuel : nat) (s : Msearch) (key : gostring) : outcome (list gostring) :=
  match keyMap s !! key with
  | None => Ret []
  | Some o => if o =? notExist then Ret [] else gets_loop fuel s o []
  end.

(** ** Tombstoning: [del], [dels], [delPrefix], [delsPrefix] *)

(** [copy(b[i+1 : i+1+int(b[i])], make([]byte, int(b[i])))] followed by
    [b[i] = 0], at the absolute position [p] of [b[i]]. *)
Definition tombstone (m : list byte) (p : Z) : list byte :=
  <[Z.to_nat p := x00]> (blit m (p + 1) (zeros (b2z (rd m p)))).

Fixpoint del_loop (fuel : nat) (valueMap : gset gostring) (m : list byte)
    (o total i : Z) : outcome unit * list byte :=
  if total - 16 <? 0 then (Panic, m)
  else if negb (i <? total - 16) then (Ret tt, m)
  else match fuel with
  | O => (Timeout, m)
  | S fuel =>
      let bi := b2z (rd m (o + i)) in
      if bi =? 0 then del_loop fuel valueMap m o total (i + 1)
      else if negb (i + 1 + bi <=? len m - o) then (Panic, m)
      else
        let value := sub m (o + i + 1) bi in
        let m := if decide (value ∈ valueMap) then tombstone m (o + i) else m in
        del_loop fuel valueMap m o total (i + bi + 1)
  end.

Definition del (s : Msearch) (o : Z) (valueMap : gset gostring)
    : outcome Z * Msearch :=
  let m := bytesAddr s in
  if negb (in_slice m o (o + 8)) then (Panic, s) else
  let total := bigUint64 (sub m o 8) in
  if total =? 0 then (Ret 0, s) else
  if negb (in_slice m o (o + total)) then (Panic, s) else
  if negb (8 <? total) then (Panic, s) else
  let i0 := scan_start m o in
  match del_loop (Z.to_nat (total - 16 - i0)) valueMap m o total i0 with
  | (Ret _, m) => (Ret (bigUint64 (sub m (o + total - 8) 8)), set_bytes s m)
  | (Panic, m) => (Panic, set_bytes s m)
  | (Timeout, m) => (Timeout, set_bytes s m)
  end.

Fixpoint dels_loop (fuel : nat) (s : Msearch) (o : Z) (valueMap : gset gostring)
    : outcome unit * Msearch :=
  match fuel with
  | O => (Timeout, s)
  | S fuel =>
      match del s o valueMap with
      | (Ret d, s) => if d =? 0 then (Ret tt, s) else dels_loop fuel s d valueMap
      | (Panic, s) => (Panic, s)
      | (Timeout, s) => (Timeout, s)
      end
  end.

Definition dels (fuel : nat) (s : Msearch) (key : gostring) (values : list gostring)
    : outcome unit * Msearch :=
  match keyMap s !! key with
  | None => (Ret tt, s)
  | Some o =>
      let valueMap : gset gostring := list_to_set values in
      if decide (size valueMap = 0%nat) then (Ret tt, s)
      else dels_loop fuel s o valueMap
  end.

(** [strings.HasPrefix(value, v)]. *)
Fixpoint HasPrefix (value v : gostring) : bool :=
  match v, value with
  | [], _ => true
  | _ :: _, [] => false
  | c :: v, d :: value => if decide (c = d) then HasPrefix value v else false
  end.

Fixpoint delPrefix_loop (fuel : nat) (values : list gostring) (m : list byte)
    (o total i : Z) : outcome unit * list byte :=
  if total - 16 <? 0 then (Panic, m)
  else if negb (i <? total - 16) then (Ret tt, m)
  else match fuel with
  | O => (Timeout, m)
  | S fuel =>
      let bi := b2z (rd m (o + i)) in
      if bi =? 0 then delPrefix_loop fuel values m o total (i + 1)
      else if negb (i + 1 + bi <=? len m - o) then (Panic, m)
      else
        let value := sub m (o + i + 1) bi in
        let m := fold_left (fun m v => if HasPrefix value v
                                       then tombstone m (o + i) else m) values m in
        delPrefix_loop fuel values m o total (i + bi + 1)
  end.

Definition delPrefix (s : Msearch) (o : Z) (values : list gostring)
    : outcome Z * Msearch :=
  let m := bytesAddr s in
  if negb (in_slice m o (o + 8)) then (Panic, s) else
  let total := bigUint64 (sub m o 8) in
  if total =? 0 then (Ret 0, s) else
  if negb (in_slice m o (o + total)) then (Panic, s) else
  if negb (8 <? total) then (Panic, s) else
  let i0 := scan_start m o in
  match delPrefix_loop (Z.to_nat (total - 16 - i0)) values m o total i0 with
  | (Ret _, m) => (Ret (bigUint64 (sub m (o + total - 8) 8)), set_bytes s m)
  | (Panic, m) => (Panic, set_bytes s m)
  | (Timeout, m) => (Timeout, set_bytes s m)
  end.

Fixpoint delsPrefix_loop (fuel : nat) (s : Msearch) (o : Z) (values : list gostring)
    : outcome unit * Msearch :=
  match fuel with
  | O => (Timeout, s)
  | S fuel =>
      match delPrefix s o values with
      | (Ret d, s) => if d =? 0 then (Ret tt, s) else delsPrefix_loop fuel s d values
      | (Panic, s) => (Panic, s)
      | (Timeout, s) => (Timeout, s)
      end
  end.

Definition delsPrefix (fuel : nat) (s : Msearch) (key : gostring)
    (values : list gostring) : outcome unit * Msearch :=
  match keyMap s !! key with
  | None => (Ret tt, s)
  | Some o =>
      if len values =? 0 then (Ret tt, s)
      else delsPrefix_loop fuel s o values
  end.

(** ** Looking for a gap: [empty1] and [empty] *)

(** The loop of [empty1]. The result is [(returned, start, end, t)]:
    [returned] tells that the [return] inside the loop was taken. *)
Fixpoint empty1_loop (fuel : nat) (m : list byte) (o total i : Z)
    (first : bool) (start : Z) (t : bool) : outcome (bool * Z * Z * bool) :=
  if total - 16 <? 0 then Panic
  else if negb (i <? total - 16) then Ret (false, start, 0, t)
  else match fuel with
  | O => Timeout
  | S fuel =>
      if b2z (rd m (o + i)) =? 0 then
        (if first then empty1_loop fuel m o total (i + 1) first start t
         else empty1_loop fuel m o total (i + 1) true i true)
      else if t then Ret (true, start, i, t)
      else empty1_loop fuel m o total (i + b2z (rd m (o + i)) + 1) first start t
  end.

(** Results are [(o, lastDec, start, end, t)]. *)
Definition empty1 (s : Msearch) (o : Z) : outcome (Z * Z * Z * Z * bool) :=
  let m := bytesAddr s in
  if negb (in_slice m o (o + 8)) then Panic else
  let total := bigUint64 (sub m o 8) in
  if negb (in_slice m o (o + total)) then Panic else
  if negb (8 <? total) then Panic else
  let i0 := scan_start m o in
  match empty1_loop (Z.to_nat (total - 16 - i0)) m o total i0 false 0 false with
  | Ret (true, start, end_, t) => Ret (o, 0, start, end_, t)
  | Ret (false, start, end_, t) =>
      let end_ := if t && (end_ =? 0) then total - 16 else end_ in
      Ret (o, bigUint64 (sub m (o + total - 8) 8), start, end_, t)
  | Panic => Panic
  | Timeout => Timeout
  end.

(** Results are [(o, start, end, t)]. *)
Fixpoint empty (fuel : nat) (s : Msearch) (o : Z) : outcome (Z * Z * Z * bool) :=
  match fuel with
  | O => Timeout
  | S fuel =>
      match empty1 s o with
      | Ret (o', lastDec, start, end_, t) =>
          if (lastDec =? 0) || t then Ret (o', start, end_, t)
          else empty fuel s lastDec
      | Panic => Panic
      | Timeout => Timeout
      end
  end.

(** ** Finding the tail: [b8] and [getB8byOffset] *)

(** The slice [b8] has eight bytes; it is represented by its position in
    [bytesAddr], and [nil] by [None]. *)
Definition b8 (s : Msearch) (o : Z) : outcome (Z * option Z) :=
  let m := bytesAddr s in
  if offset s <=? o then Ret (0, None) else
  if negb (in_slice m o (o + 8)) then Panic else
  let total := bigUint64 (sub m o 8) in
  if negb (in_slice m (o + total - 8) (o + total)) then Panic else
  if negb (in_slice m o (o + total)) then Panic else
  if negb (0 <=? total - 8) then Panic else
  Ret (bigUint64 (sub m (o + total - 8) 8), Some (o + total - 8)).

Fixpoint getB8byOffset (fuel : nat) (s : Msearch) (o : Z) : outcome (option Z) :=
  match fuel with
  | O => Timeout
  | S fuel =>
      match b8 s o with
      | Ret (lastDec, p) => if lastDec =? 0 then Ret p else getB8byOffset fuel s lastDec
      | Panic => Panic
      | Timeout => Timeout
      end
  end.

(** ** Appending a record: [add] *)

(** [f.Write(b)]: the bytes land in the file at the position of the handle,
    hence in the window of the mapping that covers them. *)
Definition file_write (w : write_result) (s : Msearch) (b : list byte)
    : option error * Msearch :=
  match w with
  | WriteAll =>
      (None, mkMsearch (f_pos s + len b) (offset s) (keyMap s)
                       (blit (bytesAddr s) (f_pos s) b))
  | WriteShort n =>
      let b := take n b in
      (Some IoError, mkMsearch (f_pos s + len b) (offset s) (keyMap s)
                               (blit (bytesAddr s) (f_pos s) b))
  end.

Section Engine.

(** The capacity the Go run time gives a slice that [append] has to
    reallocate, from the old capacity and the length needed. Only
    [needed <= capacity] is specified by the language, so the engine is
    modelled for every such policy. *)
Variable growcap : Z -> Z -> Z.

(** [append(b, make([]byte, 1<<10)...)] on the scratch buffer [b] of
    capacity [cap]. *)
Definition append1k (b : list byte) (cap : Z) : list byte * Z :=
  let n := len b + 1024 in
  (b ++ zeros 1024, if n <=? cap then cap else Z.max n (growcap cap n)).

(** The loop over [values] of [add]: the scratch buffer, its capacity and
    [idx], or the error that leaves the loop. *)
Fixpoint add_loop (values : list gostring) (b : list byte) (cap idx : Z)
    : outcome (error + list byte * Z * Z) :=
  match values with
  | [] => Ret (inr (b, cap, idx))
  | value :: values =>
      let '(b, cap) :=
        if len b <? idx + len value + 2 then append1k b cap else (b, cap) in
      if 255 <? len value then Ret (inl ValueTooLarge)
      else if negb (idx <? len b) then Panic
      else
        let b := <[Z.to_nat idx := z2b (len value)]> b in
        let b := blit b (idx + 1) value in
        add_loop values b cap (idx + 1 + len value)
  end.

(** The scratch buffer after [b[8] = byte(len(key)); n := copy(b[9:], key)]
    and [idx = n + 1 + 8]. *)
Definition add_header (key : gostring) : list byte * Z :=
  let b := zeros 1024 in
  let b := <[8%nat := z2b (len key)]> b in
  let n := Z.min (len b - 9) (len key) in
  (blit b 9 key, n + 1 + 8).

(** The part of [add] before [f.Write]: the record in the scratch buffer and
    [total], or the error that leaves the loop. *)
Definition add_record (s : Msearch) (key : gostring) (values : list gostring)
    : outcome (error + list byte * Z) :=
  let '(b, idx) := add_header key in
  match add_loop values b 1024 idx with
  | Panic => Panic
  | Timeout => Timeout
  | Ret (inl e) => Ret (inl e)
  | Ret (inr (b, cap, idx)) =>
      let total := idx + 16 in
      if negb (idx + 8 <=? len b) then Panic else
      let b := blit b idx (be64 (total + offset s)) in
      if negb (total <=? cap) then Panic else
      let b := take (Z.to_nat total) (b ++ zeros (cap - len b)) in
      let b := blit b 0 (be64 total) in
      Ret (inr (b, total))
  end.

(** [if i, ok := s.keyMap[key]; !ok || i == notExist { s.keyMap[key] = s.offset }] *)
Definition publish (s : Msearch) (key : gostring) : gmap gostring Z :=
  match keyMap s !! key with
  | None => <[key := offset s]> (keyMap s)
  | Some i => if i =? notExist then <[key := offset s]> (keyMap s) else keyMap s
  end.

(** [if len(b8) > 0 { binary.BigEndian.PutUint64(b8, uint64(s.offset)) }] *)
Definition link (s : Msearch) (b8 : option Z) : list byte :=
  match b8 with
  | Some p => blit (bytesAddr s) p (be64 (offset s))
  | None => bytesAddr s
  end.

Definition add (s : Msearch) (b8 : option Z) (key : gostring)
    (values : list gostring) (w : write_result)
    : outcome (Z * option error) * Msearch :=
  match add_record s key values with
  | Panic => (Panic, s)
  | Timeout => (Timeout, s)
  | Ret (inl e) => (Ret (0, Some e), s)
  | Ret (inr (b, total)) =>
      match file_write w s b with
      | (Some e, s) => (Ret (0, Some e), s)
      | (None, s) =>
          (Ret (total, None),
           mkMsearch (f_pos s) (offset s + total) (publish s key) (link s b8))
      end
  end.

(** ** [adds] *)

(** [_, err := s.add(..); return err]. *)
Definition only_err (r : outcome (Z * option error) * Msearch)
    : outcome (option error) * Msearch :=
  match r with
  | (Ret (_, err), s) => (Ret err, s)
  | (Panic, s) => (Panic, s)
  | (Timeout, s) => (Timeout, s)
  end.

(** The last two statements of [adds]: find the tail, append and link. *)
Definition adds_append (fuel : nat) (s : Msearch) (o : Z) (key : gostring)
    (values : list gostring) (w : write_result) : outcome (option error) * Msearch :=
  match getB8byOffset fuel s o with
  | Ret b8 => only_err (add s b8 key values w)
  | Panic => (Panic, s)
  | Timeout => (Timeout, s)
  end.

(** The body of [if t && len(value) < (end-start)]: the slot is written into
    [b := s.bytesAddr[o' : o'+total]], where [total] is read at [o]. *)
Definition adds_reuse (s : Msearch) (o o' start : Z) (value : gostring)
    : outcome (option error) * Msearch :=
  let m := bytesAddr s in
  if negb (in_slice m o (o + 8)) then (Panic, s) else
  let total := bigUint64 (sub m o 8) in
  if negb (in_slice m o' (o' + total)) then (Panic, s) else
  if negb ((0 <=? start) && (start <? total)) then (Panic, s) else
  let m := <[Z.to_nat (o' + start) := z2b (len value)]> m in
  let m := blit m (o' + start + 1) (take (Z.to_nat (total - (start + 1))) value) in
  (Ret None, set_bytes s m).

Definition adds (fuel : nat) (s : Msearch) (key : gostring)
    (values : list gostring) (w : write_result) : outcome (option error) * Msearch :=
  if len values =? 0 then (Ret None, s) else
  match keyMap s !! key with
  | None => only_err (add s None key values w)
  | Some o =>
      if o =? notExist then only_err (add s None key values w) else
      match values with
      | [value] =>
          match empty fuel s o with
          | Ret (o', start, end_, t) =>
              if t && (len value <? end_ - start)
              then adds_reuse s o o' start value
              else adds_append fuel s o key values w
          | Panic => (Panic, s)
          | Timeout => (Timeout, s)
          end
      | _ => adds_append fuel s o key values w
      end
  end.

(** ** The methods of [MSearcher] *)

Definition Get (fuel : nat) (s : Msearch) (key : gostring) : outcome (list gostring) :=
  gets fuel s key.

Definition Add (fuel : nat) (s : Msearch) (key : gostring)
    (values : list gostring) (w : write_result) : outcome (option error) * Msearch :=
  adds fuel s key values w.

Definition Del (fuel : nat) (s : Msearch) (key : gostring) (values : list gostring)
    : outcome unit * Msearch :=
  dels fuel s key values.

Definition DelByPrefix (fuel : nat) (s : Msearch) (key : gostring)
    (values : list gostring) : outcome unit * Msearch :=
  delsPrefix fuel s key values.

Definition Update (fuel : nat) (s : Msearch) (key : gostring)
    (values : list gostring) (w : write_result) : outcome (option error) * Msearch :=
  match gets fuel s key with
  | Ret oldValues =>
      match dels fuel s key oldValues with
      | (Ret _, s) => adds fuel s key values w
      | (Panic, s) => (Panic, s)
      | (Timeout, s) => (Timeout, s)
      end
  | Panic => (Panic, s)
  | Timeout => (Timeout, s)
  end.

Definition Exist (s : Msearch) (key : gostring) : bool * Msearch :=
  match keyMap s !! key with
  | Some o =>
      if negb (o =? notExist) then (true, s)
      else (false, mkMsearch (f_pos s) (offset s) (<[key := notExist]> (keyMap s)) (bytesAddr s))
  | None =>
      (false, mkMsearch (f_pos s) (offset s) (<[key := notExist]> (keyMap s)) (bytesAddr s))
  end.

(** ** Sequences of calls *)

Inductive op :=
| OAdd (key : gostring) (values : list gostring) (w : write_result)
| ODel (key : gostring) (values : list gostring)
| ODelByPrefix (key : gostring) (values : list gostring)
| OUpdate (key : gostring) (values : list gostring) (w : write_result)
| OGet (key : gostring)
| OExist (key : gostring).

(** The state a call leaves behind, whatever its outcome. *)
Definition step (fuel : nat) (s : Msearch) (c : op) : Msearch :=
  match c with
  | OAdd key values w => snd (Add fuel s key values w)
  | ODel key values => snd (Del fuel s key values)
  | ODelByPrefix key values => snd (DelByPrefix fuel s key values)
  | OUpdate key values w => snd (Update fuel s key values w)
  | OGet key => s
  | OExist key => snd (Exist s key)
  end.

Definition run (fuel : nat) (s : Msearch) (cs : list op) : Msearch :=
  fold_left (step fuel) cs s.

End Engine.

(** ** Concrete engines and inputs used below *)

(** One admissible growth policy of [append]. *)
Definition double_cap (cap needed : Z) : Z := Z.max (2 * cap) needed.

(** A fresh engine on an empty file with a mapping of 2048 bytes. *)
Definition fresh : Msearch := NewMsearch [] 2048.

Definition after (cs : list op) : Msearch := run double_cap 8 fresh cs.

Definition key_u : gostring := str "u".

(** A key of 247 bytes: [byte(247) + 1 + 8] wraps to 0. *)
Definition key247 : gostring := replicate 247 "k"%byte.

(** A key of 254 bytes whose 25th byte is 246. *)
Definition key254 : gostring :=
  replicate 24 "k"%byte ++ [z2b 246] ++ replicate 229 "k"%byte.

(** The 246 bytes that follow position 33 of the record of [key254] built at
    offset 282 with the single value ["a"] and linked to a record at 563:
    the rest of the key, the slot of ["a"], [self_end] and the first seven
    bytes of [next]. *)
Definition junk246 : gostring :=
  replicate 229 "k"%byte ++ [x01; "a"%byte]
    ++ [x00; x00; x00; x00; x00; x00; x02; x33]
    ++ [x00; x00; x00; x00; x00; x00; x02].

Definition big256 : gostring := replicate 256 "x"%byte.

(** ** Relations between engine states *)

(** [keeps s s']: every real (non-sentinel) index entry of [s] is still the
    entry of its key in [s']. *)
Definition keeps (s s' : Msearch) : Prop :=
  ∀ k o, keyMap s !! k = Some o → o ≠ notExist → keyMap s' !! k = Some o.

(** [same_ctl s s']: only the mapped bytes may differ. *)
Definition same_ctl (s s' : Msearch) : Prop :=
  f_pos s' = f_pos s ∧ offset s' = offset s ∧ keyMap s' = keyMap s.

(** ** The layout of a record (spec 3) *)

(** A live slot: the length byte, then the payload. *)
Definition enc_value (v : gostring) : list byte := z2b (len v) :: v.

Definition enc_values (vs : list gostring) : list byte := concat (map enc_value vs).

(** The bytes of a record with the given key, value area and trailer. *)
Definition enc_record (key : gostring) (area : list byte) (self_end next : Z)
    : list byte :=
  be64 (8 + 1 + len key + len area + 16)
    ++ z2b (len key) :: key ++ area ++ be64 self_end ++ be64 next.

(** A value slot is live, or it is one byte of tombstone padding. *)
Inductive slot := Live (v : gostring) | Tomb.

Definition enc_slot (x : slot) : list byte :=
  match x with
  | Live v => enc_value v
  | Tomb => [x00]
  end.

Definition enc_slots (xs : list slot) : list byte := concat (map enc_slot xs).

(** The values [Get] is to return for a value area. *)
Fixpoint live_values (xs : list slot) : list gostring :=
  match xs with
  | [] => []
  | Live v :: xs => v :: live_values xs
  | Tomb :: xs => live_values xs
  end.

Record record := mkRecord {
  r_key : gostring;
  r_slots : list slot;
  r_self_end : Z;
  r_next : Z
}.

Definition r_total (r : record) : Z :=
  8 + 1 + len (r_key r) + len (enc_slots (r_slots r)) + 16.

Definition r_bytes (r : record) : list byte :=
  enc_record (r_key r) (enc_slots (r_slots r)) (r_self_end r) (r_next r).

Definition slot_ok (x : slot) : Prop :=
  match x with
  | Live v => 1 ≤ len v ≤ 255
  | Tomb => True
  end.

(** Records the scan reads as laid out: the key has at most 246 bytes, so
    that [b[8] + 1 + 8] does not wrap. *)
Definition record_ok (r : record) : Prop :=
  len (r_key r) ≤ 246 ∧ Forall slot_ok (r_slots r) ∧ 0 ≤ r_next r < 2 ^ 63.

(** The array [m] holds the record [r] at offset [o]. *)
Definition holds (m : list byte) (o : Z) (r : record) : Prop :=
  0 ≤ o ∧ o + r_total r ≤ len m ∧ sub m o (r_total r) = r_bytes r ∧ record_ok r.

(** [chain m bound o rs]: from offset [o], [m] holds the records [rs], each
    linked to the next one, which lies behind it; the last one is the tail
    and ends at or in front of [bound]. *)
Fixpoint chain (m : list byte) (bound o : Z) (rs : list record) : Prop :=
  match rs with
  | [] => False
  | r :: rs' =>
      holds m o r ∧
      match rs' with
      | [] => r_next r = 0 ∧ o + r_total r ≤ bound
      | _ :: _ => r_next r ≠ 0 ∧ o + r_total r ≤ r_next r ∧ chain m bound (r_next r) rs'
      end
  end.

Definition chain_values (rs : list record) : list gostring :=
  concat (map (λ r, live_values (r_slots r)) rs).

(** The position of the [next] field of the tail of a chain. *)
Fixpoint tail_link (o : Z) (rs : list record) : Z :=
  match rs with
  | [] => o
  | r :: rs' =>
      match rs' with
      | [] => o + r_total r - 8
      | _ :: _ => tail_link (r_next r) rs'
      end
  end.

Definition set_next (r : record) (next : Z) : record :=
  mkRecord (r_key r) (r_slots r) (r_self_end r) next.

(** The chain after its tail has been linked to a record at [next]. *)
Fixpoint relink (rs : list record) (next : Z) : list record :=
  match rs with
  | [] => []
  | r :: rs' =>
      match rs' with
      | [] => [set_next r next]
      | _ :: _ => r :: relink rs' next
      end
  end.

(** ** The first gap of a record and of a chain *)

(** The number of tombstone bytes a value area starts with. *)
Fixpoint tomb_run (xs : list slot) : Z :=
  match xs with
  | Tomb :: xs => 1 + tomb_run xs
  | _ => 0
  end.

(** The first gap [start, end) of a value area that starts at index [i]:
    live slots are stepped over, the first tombstone byte starts the gap and
    the gap ends with the run of tombstone bytes. *)
Fixpoint first_gap (xs : list slot) (i : Z) : option (Z * Z) :=
  match xs with
  | [] => None
  | Live v :: xs => first_gap xs (i + 1 + len v)
  | Tomb :: xs => Some (i, i + 1 + tomb_run xs)
  end.

Definition record_gap (r : record) : option (Z * Z) :=
  first_gap (r_slots r) (8 + 1 + len (r_key r)).

(** The first record of a chain, from its head at [o], that has a gap, with
    its first gap: [(o', start, end, true)]; without any gap in the chain,
    the tail [o'] and [(o', 0, 0, false)]. *)
Fixpoint chain_gap (o : Z) (rs : list record) : Z * Z * Z * bool :=
  match rs with
  | [] => (o, 0, 0, false)
  | r :: rs' =>
      match record_gap r with
      | Some (start, end_) => (o, start, end_, true)
      | None =>
          match rs' with
          | [] => (o, 0, 0, false)
          | _ :: _ => chain_gap (r_next r) rs'
          end
      end
  end.

(** ** Records after a delete *)

(** A live slot whose value is [dead] becomes tombstone bytes, one for the
    length byte and one for each byte of the payload. *)
Definition kill_slot (dead : gostring → bool) (x : slot) : list slot :=
  match x with
  | Live v => if dead v then replicate (S (length v)) Tomb else [Live v]
  | Tomb => [Tomb]
  end.

Definition kill_slots (dead : gostring → bool) (xs : list slot) : list slot :=
  concat (map (kill_slot dead) xs).

Definition kill_record (dead : gostring → bool) (r : record) : record :=
  mkRecord (r_key r) (kill_slots dead (r_slots r)) (r_self_end r) (r_next r).

(** [apart o rs lo hi]: the bytes [lo, hi) lie outside every record of the
    chain [rs] that starts at [o]. *)
Fixpoint apart (o : Z) (rs : list record) (lo hi : Z) : Prop :=
  match rs with
  | [] => True
  | r :: rs' => (hi ≤ o ∨ o + r_total r ≤ lo) ∧ apart (r_next r) rs' lo hi
  end.

(** ** Gaps as the specification describes them (spec 4.3.3) *)

(** [usable_gap m o n start end_]: in the record at [o], the bytes
    [start .. end_) of the value area are a maximal run of [0x00] bytes that
    is strictly longer than a payload of [n] bytes. *)
Definition usable_gap (m : list byte) (o n start end_ : Z) : bool :=
  let total := bigUint64 (sub m o 8) in
  let header_end := b2z (rd m (o + 8)) + 1 + 8 in
  (header_end <=? start) && (start <? end_) && (end_ <=? total - 16)
  && forallb (λ b, bool_decide (b = x00)) (sub m (o + start) (end_ - start))
  && ((start =? header_end) || negb (bool_decide (rd m (o + start - 1) = x00)))
  && ((end_ =? total - 16) || negb (bool_decide (rd m (o + end_) = x00)))
  && (n <? end_ - start).

(** ** The branch of [adds] on a key with a chain *)

(** [adds] writes in place - it does not append - exactly when a single
    value is given and the first gap of the chain is longer than the value. *)
Definition reuses (head : Z) (rs : list record) (values : list gostring) : bool :=
  match values with
  | [v] => let '(_, start, end_, t) := chain_gap head rs in t && (len v <? end_ - start)
  | _ => false
  end.

(** [grows s s']: [offset] has not gone back, the file position has moved
    at least as far as [offset], and the mapping has kept its length. *)
Definition grows (s s' : Msearch) : Prop :=
  offset s ≤ offset s'
  ∧ offset s' - offset s ≤ f_pos s' - f_pos s
  ∧ len (bytesAddr s') = len (bytesAddr s).

(** [chains_apart o rs o' rs']: every record of the chain [rs'] from [o']
    lies outside every record of the chain [rs] from [o]. *)
Fixpoint chains_apart (o : Z) (rs : list record) (o' : Z) (rs' : list record) : Prop :=
  match rs' with
  | [] => True
  | r' :: rest => apart o rs o' (o' + r_total r') ∧ chains_apart o rs (r_next r') rest
  end.

(** * Properties *)

(** ** Byte arrays *)

Lemma len_nonneg {A} (l : list A) : 0 ≤ len l.
Proof. unfold len. lia. Qed.

Lemma len_app {A} (l k : list A) : len (l ++ k) = len l + len k.
Proof. unfold len. rewrite length_app. lia. Qed.

Lemma len_cons {A} (x : A) (l : list A) : len (x :: l) = 1 + len l.
Proof. unfold len. simpl. lia. Qed.

Lemma len_zeros n : 0 ≤ n → len (zeros n) = n.
Proof. intros H. unfold len, zeros. rewrite length_replicate. lia. Qed.

Lemma length_blit m p bs : length (blit m p bs) = length m.
Proof. unfold blit. rewrite !length_app, !length_take, length_drop. lia. Qed.

Lemma len_blit m p bs : len (blit m p bs) = len m.
Proof. unfold len. by rewrite length_blit. Qed.

Lemma len_insert (m : list byte) i x : len (<[i := x]> m) = len m.
Proof. unfold len. by rewrite length_insert. Qed.

Lemma lookup_blit m p bs i :
  blit m p bs !! i =
    if decide (Z.to_nat p ≤ i < Z.to_nat p + length bs ∧ i < length m)%nat
    then bs !! (i - Z.to_nat p)%nat else m !! i.
Proof.
  destruct (decide (i < length m)%nat) as [Hi|Hi].
  2:{ rewrite (lookup_ge_None_2 (blit m p bs)) by (rewrite length_blit; lia).
      rewrite decide_False by lia. symmetry. apply lookup_ge_None_2. lia. }
  unfold blit. set (n := Z.to_nat p).
  destruct (decide (i < n)%nat) as [Hn|Hn].
  - rewrite decide_False by lia.
    rewrite lookup_app_l by (rewrite length_take; lia).
    by rewrite lookup_take_lt.
  - rewrite lookup_app_r by (rewrite length_take; lia).
    rewrite length_take, Nat.min_l by lia.
    destruct (decide (i - n < length bs)%nat) as [Hb|Hb].
    + rewrite decide_True by lia.
      rewrite lookup_app_l by (rewrite length_take; lia).
      rewrite lookup_take_lt by lia. done.
    + rewrite decide_False by lia.
      rewrite lookup_app_r by (rewrite length_take; lia).
      rewrite length_take, Nat.min_r by lia.
      rewrite lookup_drop. f_equal. lia.
Qed.

Lemma lookup_sub m lo n i :
  sub m lo n !! i = if decide (i < Z.to_nat n)%nat then m !! (Z.to_nat lo + i)%nat else None.
Proof.
  unfold sub. case_decide.
  - by rewrite lookup_take_lt, lookup_drop.
  - by rewrite lookup_take_ge by lia.
Qed.

Lemma length_sub m lo n :
  0 ≤ lo → 0 ≤ n → lo + n ≤ len m → length (sub m lo n) = Z.to_nat n.
Proof.
  unfold sub, len. intros. rewrite length_take, length_drop. lia.
Qed.

Lemma len_sub m lo n :
  0 ≤ lo → 0 ≤ n → lo + n ≤ len m → len (sub m lo n) = n.
Proof. intros. unfold len. rewrite length_sub by done. lia. Qed.

(** A write leaves the bytes outside its range alone. *)
Lemma sub_blit_outside m p bs lo n :
  0 ≤ lo → 0 ≤ p → lo + n ≤ p ∨ p + len bs ≤ lo →
  sub (blit m p bs) lo n = sub m lo n.
Proof.
  intros Hlo Hp Hd. apply list_eq. intros i. rewrite !lookup_sub.
  case_decide; [|done]. rewrite lookup_blit.
  rewrite decide_False; [done|]. unfold len in Hd. lia.
Qed.

(** A write that fits is read back. *)
Lemma sub_blit_inside m p bs :
  0 ≤ p → p + len bs ≤ len m → sub (blit m p bs) p (len bs) = bs.
Proof.
  intros Hp Hfit. apply list_eq. intros i. rewrite lookup_sub.
  unfold len in *. case_decide.
  - rewrite lookup_blit, decide_True by lia. f_equal. lia.
  - symmetry. apply lookup_ge_None_2. lia.
Qed.

Lemma rd_blit_outside m p bs i :
  0 ≤ i → 0 ≤ p → i < p ∨ p + len bs ≤ i → rd (blit m p bs) i = rd m i.
Proof.
  intros Hi Hp Hd. unfold rd. rewrite lookup_blit.
  rewrite decide_False; [done|]. unfold len in Hd. lia.
Qed.



Lemma zeros_app a b : 0 ≤ a → 0 ≤ b → zeros a ++ zeros b = zeros (a + b).
Proof.
  intros Ha Hb. unfold zeros. rewrite Z2Nat.inj_add by done.
  by rewrite replicate_add.
Qed.

Lemma Z2Nat_len {A} (l : list A) : Z.to_nat (len l) = length l.
Proof. unfold len. lia. Qed.

(** Overwriting the middle of an array. *)
Lemma blit_middle P old R bs :
  length old = length bs → blit (P ++ old ++ R) (len P) bs = P ++ bs ++ R.
Proof.
  intros Hl. unfold blit. rewrite Z2Nat_len.
  rewrite take_app_length. f_equal.
  rewrite take_ge by (rewrite !length_app; lia). f_equal.
  rewrite drop_app_add, <- Hl. apply drop_app_length.
Qed.

Lemma blit_zeros P k bs :
  len bs ≤ k → blit (P ++ zeros k) (len P) bs = P ++ bs ++ zeros (k - len bs).
Proof.
  intros Hk. pose proof (len_nonneg bs).
  replace k with (len bs + (k - len bs)) at 1 by lia.
  rewrite <- zeros_app by lia. apply blit_middle.
  unfold zeros. rewrite length_replicate. apply Z2Nat_len.
Qed.

Lemma insert_zeros P k x :
  0 < k → <[Z.to_nat (len P) := x]> (P ++ zeros k) = P ++ x :: zeros (k - 1).
Proof.
  intros Hk. rewrite Z2Nat_len.
  replace (length P) with (length P + 0)%nat at 1 by lia.
  rewrite insert_app_r. f_equal.
  unfold zeros. replace (Z.to_nat k) with (S (Z.to_nat (k - 1))) by lia. done.
Qed.

(** ** The scratch buffer of [add] *)

Lemma len_enc_value v : len (enc_value v) = 1 + len v.
Proof. unfold enc_value. by rewrite len_cons. Qed.

Lemma enc_values_cons v vs : enc_values (v :: vs) = enc_value v ++ enc_values vs.
Proof. done. Qed.

Section Scratch.

Variable growcap : Z → Z → Z.

(** Whatever the values, the loop of [add] does not panic: it stops at the
    first value that is too long, or it lays the values out one after the
    other behind what the buffer holds up to [idx]. *)
Lemma add_loop_spec values : ∀ P k cap,
  0 ≤ k →
  (Exists (λ v, 255 < len v) values
     ∧ add_loop growcap values (P ++ zeros k) cap (len P) = Ret (inl ValueTooLarge))
  ∨ (Forall (λ v, len v ≤ 255) values
     ∧ ∃ k' cap', 0 ≤ k' ∧
       add_loop growcap values (P ++ zeros k) cap (len P)
       = Ret (inr (P ++ enc_values values ++ zeros k', cap', len P + len (enc_values values)))).
Proof.
  induction values as [|v vs IH]; intros P k cap Hk.
  - right. split; [constructor|]. exists k, cap. simpl.
    split; [done|]. by rewrite Z.add_0_r.
  - cbn [add_loop].
    pose proof (len_nonneg v) as Hv. pose proof (len_nonneg P) as HP.
    assert (∃ k1 cap1, (if len (P ++ zeros k) <? len P + len v + 2
                        then append1k growcap (P ++ zeros k) cap
                        else (P ++ zeros k, cap)) = (P ++ zeros k1, cap1)
                       ∧ 0 ≤ k1 ∧ (len v ≤ 255 → len v + 2 ≤ k1))
      as (k1 & cap1 & -> & Hk1 & Hfit).
    { rewrite len_app, len_zeros by done.
      destruct (len P + k <? len P + len v + 2) eqn:E.
      - unfold append1k. rewrite <- app_assoc, zeros_app by lia.
        eexists (k + 1024), _. split; [done|]. lia.
      - exists k, cap. split; [done|]. lia. }
    destruct (255 <? len v) eqn:Ev.
    { left. split; [|done]. apply Exists_cons_hd. lia. }
    assert (len v ≤ 255) as Hv255 by lia. specialize (Hfit Hv255).
    rewrite len_app, len_zeros by done.
    replace (len P <? len P + k1) with true by lia. cbn [negb].
    rewrite insert_zeros by lia.
    replace (P ++ z2b (len v) :: zeros (k1 - 1)) with ((P ++ [z2b (len v)]) ++ zeros (k1 - 1))
      by (by rewrite <- app_assoc).
    replace (len P + 1) with (len (P ++ [z2b (len v)])) by (rewrite len_app, len_cons; unfold len; simpl; lia).
    rewrite blit_zeros by lia.
    replace ((P ++ [z2b (len v)]) ++ v ++ zeros (k1 - 1 - len v))
      with ((P ++ enc_value v) ++ zeros (k1 - 1 - len v))
      by (unfold enc_value; rewrite <- !app_assoc; done).
    replace (len (P ++ [z2b (len v)]) + len v) with (len (P ++ enc_value v))
      by (rewrite !len_app, len_enc_value, len_cons; unfold len; simpl; lia).
    destruct (IH (P ++ enc_value v) (k1 - 1 - len v) cap1) as [[Hex ->]|[Hall (k' & cap' & Hk' & ->)]];
      [lia| |].
    + left. split; [by apply Exists_cons_tl|done].
    + right. split; [by constructor|]. exists k', cap'.
      split; [done|].
      rewrite enc_values_cons, !len_app, <- !app_assoc. do 3 f_equal. lia.
Qed.

(** A record that fits in the first kilobyte is laid out without growing
    the buffer. *)
Lemma add_loop_fits values : ∀ P k cap,
  Forall (λ v, len v ≤ 255) values →
  len (enc_values values) + 1 ≤ k →
  add_loop growcap values (P ++ zeros k) cap (len P)
  = Ret (inr (P ++ enc_values values ++ zeros (k - len (enc_values values)), cap,
              len P + len (enc_values values))).
Proof.
  induction values as [|v vs IH]; intros P k cap Hall Hk.
  - simpl. rewrite Z.add_0_r.
    replace (k - len (enc_values [])) with k by (unfold enc_values, len; simpl; lia).
    done.
  - cbn [add_loop]. apply Forall_cons in Hall as [Hv255 Hall].
    pose proof (len_nonneg v) as Hv. pose proof (len_nonneg P) as HP.
    pose proof (len_nonneg (enc_values vs)) as Hvs.
    rewrite enc_values_cons, len_app, len_enc_value in Hk.
    rewrite len_app, len_zeros by lia.
    replace (len P + k <? len P + len v + 2) with false by lia.
    replace (255 <? len v) with false by lia.
    rewrite len_app, len_zeros by lia.
    replace (len P <? len P + k) with true by lia. cbn [negb].
    rewrite insert_zeros by lia.
    replace (P ++ z2b (len v) :: zeros (k - 1)) with ((P ++ [z2b (len v)]) ++ zeros (k - 1))
      by (by rewrite <- app_assoc).
    replace (len P + 1) with (len (P ++ [z2b (len v)])) by (rewrite len_app, len_cons; unfold len; simpl; lia).
    rewrite blit_zeros by lia.
    replace ((P ++ [z2b (len v)]) ++ v ++ zeros (k - 1 - len v))
      with ((P ++ enc_value v) ++ zeros (k - 1 - len v))
      by (unfold enc_value; rewrite <- !app_assoc; done).
    replace (len (P ++ [z2b (len v)]) + len v) with (len (P ++ enc_value v))
      by (rewrite !len_app, len_enc_value, len_cons; unfold len; simpl; lia).
    rewrite IH by (done || lia).
    rewrite enc_values_cons, !len_app, len_enc_value, <- !app_assoc.
    replace (k - 1 - len v - len (enc_values vs)) with (k - (1 + len v + len (enc_values vs))) by lia.
    replace (len P + (1 + len v) + len (enc_values vs)) with (len P + (1 + len v + len (enc_values vs))) by lia.
    done.
Qed.


Lemma add_header_spec key :
  len key ≤ 1015 →
  add_header key = ((zeros 8 ++ z2b (len key) :: key) ++ zeros (1015 - len key),
                    len (zeros 8 ++ z2b (len key) :: key)).
Proof.
  intros Hk. unfold add_header.
  assert (E : <[8%nat := z2b (len key)]> (zeros 1024)
              = (zeros 8 ++ [z2b (len key)]) ++ zeros 1015) by done.
  rewrite E. clear E.
  assert (L9 : len (zeros 8 ++ [z2b (len key)]) = 9) by done.
  pose proof (blit_zeros (zeros 8 ++ [z2b (len key)]) 1015 key Hk) as B.
  rewrite L9 in B. rewrite B.
  replace (zeros 8 ++ z2b (len key) :: key) with ((zeros 8 ++ [z2b (len key)]) ++ key)
    by (by rewrite <- app_assoc).
  rewrite <- app_assoc. f_equal.
  unfold len in *. rewrite !length_app. simpl. lia.
Qed.


(** Closing the record: [self_end], the cut at [total] and [total] itself. *)
Lemma seal_record R k cap self_end :
  8 ≤ k → len (zeros 8 ++ R) + 16 ≤ cap →
  blit (take (Z.to_nat (len (zeros 8 ++ R) + 16))
         (blit ((zeros 8 ++ R) ++ zeros k) (len (zeros 8 ++ R)) (be64 self_end)
          ++ zeros (cap - len (blit ((zeros 8 ++ R) ++ zeros k)
                                    (len (zeros 8 ++ R)) (be64 self_end)))))
       0 (be64 (len (zeros 8 ++ R) + 16))
  = be64 (len (zeros 8 ++ R) + 16) ++ R ++ be64 self_end ++ zeros 8.
Proof.
  intros Hk Hcap. set (P := zeros 8 ++ R) in *.
  pose proof (len_nonneg P) as HP.
  rewrite len_blit, len_app, len_zeros by lia.
  rewrite blit_zeros by (change (len (be64 self_end)) with 8; lia).
  change (len (be64 self_end)) with 8.
  assert (E : ∃ j, 8 ≤ j ∧
    (P ++ be64 self_end ++ zeros (k - 8)) ++ zeros (cap - (len P + k))
    = (P ++ be64 self_end ++ zeros 8) ++ zeros (j - 8)).
  { destruct (decide (0 ≤ cap - (len P + k))).
    - exists (k - 8 + (cap - (len P + k))). split; [lia|].
      rewrite <- !app_assoc. do 2 f_equal.
      rewrite !zeros_app by lia. f_equal. lia.
    - exists (k - 8). split; [lia|].
      replace (zeros (cap - (len P + k))) with (@nil byte)
        by (unfold zeros; replace (Z.to_nat (cap - (len P + k))) with 0%nat by lia; done).
      rewrite app_nil_r, <- !app_assoc. do 2 f_equal.
      rewrite zeros_app by lia. f_equal. lia. }
  destruct E as (j & Hj & ->).
  rewrite take_app_length'.
  2:{ rewrite !length_app. change (length (be64 self_end)) with 8%nat.
      change (length (zeros 8)) with 8%nat. unfold len. lia. }
  unfold P. rewrite <- app_assoc.
  change (blit (zeros 8 ++ R ++ be64 self_end ++ zeros 8) 0 (be64 (len (zeros 8 ++ R) + 16)))
    with (blit ([] ++ zeros 8 ++ R ++ be64 self_end ++ zeros 8) (len (@nil byte))
               (be64 (len (zeros 8 ++ R) + 16))).
  by rewrite blit_middle.
Qed.

Lemma len_header key area :
  len (zeros 8 ++ z2b (len key) :: key ++ area) = 8 + 1 + len key + len area.
Proof. rewrite len_app, len_cons, len_app. change (len (zeros 8)) with 8. lia. Qed.

Lemma len_header0 key : len (zeros 8 ++ z2b (len key) :: key) = 8 + 1 + len key.
Proof. rewrite len_app, len_cons. change (len (zeros 8)) with 8. lia. Qed.

(** The record [add] hands to [f.Write]. *)
Lemma add_record_spec s key values b total :
  len key ≤ 1015 →
  add_record growcap s key values = Ret (inr (b, total)) →
  Forall (λ v, len v ≤ 255) values
  ∧ total = 8 + 1 + len key + len (enc_values values) + 16
  ∧ b = enc_record key (enc_values values) (total + offset s) 0.
Proof.
  intros Hkey. unfold add_record. rewrite add_header_spec by done.
  destruct (add_loop_spec values (zeros 8 ++ z2b (len key) :: key) (1015 - len key) 1024)
    as [[_ ->]|[Hall (k' & cap' & Hk' & ->)]]; [lia|done|].
  rewrite <- (app_assoc (zeros 8)), <- app_comm_cons.
  replace (len (zeros 8 ++ z2b (len key) :: key) + len (enc_values values))
    with (len (zeros 8 ++ z2b (len key) :: key ++ enc_values values))
    by (rewrite len_header0, len_header; lia).
  set (R := z2b (len key) :: key ++ enc_values values).
  replace (zeros 8 ++ z2b (len key) :: key ++ enc_values values ++ zeros k')
    with ((zeros 8 ++ R) ++ zeros k')
    by (unfold R; rewrite <- !app_assoc, <- !app_comm_cons, <- app_assoc; done).
  rewrite (len_app (zeros 8 ++ R) (zeros k')), len_zeros by done.
  destruct (len (zeros 8 ++ R) + 8 <=? len (zeros 8 ++ R) + k') eqn:E1; [|done].
  destruct (len (zeros 8 ++ R) + 16 <=? cap') eqn:E2; [|done].
  cbn [negb]. intros H.
  match type of H with Ret (inr (?X, ?T)) = _ =>
    assert (X = b ∧ T = total) as [<- <-] by (split; congruence) end.
  clear H.
  assert (Ht' : len (zeros 8 ++ R) = 8 + 1 + len key + len (enc_values values))
    by (unfold R; apply len_header).
  split; [done|]. split; [lia|].
  rewrite seal_record by lia.
  unfold enc_record. rewrite Ht'. unfold R.
  rewrite <- app_comm_cons, <- !app_assoc.
  done.
Qed.

(** A record of at most 1024 bytes is built without a panic. *)
Lemma add_record_fits s key values :
  Forall (λ v, len v ≤ 255) values →
  8 + 1 + len key + len (enc_values values) + 16 ≤ 1024 →
  add_record growcap s key values
  = Ret (inr (enc_record key (enc_values values)
                (8 + 1 + len key + len (enc_values values) + 16 + offset s) 0,
              8 + 1 + len key + len (enc_values values) + 16)).
Proof.
  intros Hall Hfit.
  pose proof (len_nonneg key) as Hk. pose proof (len_nonneg (enc_values values)) as Hv.
  unfold add_record. rewrite add_header_spec by lia.
  rewrite add_loop_fits by (done || lia).
  rewrite <- (app_assoc (zeros 8)), <- app_comm_cons.
  replace (len (zeros 8 ++ z2b (len key) :: key) + len (enc_values values))
    with (len (zeros 8 ++ z2b (len key) :: key ++ enc_values values))
    by (rewrite len_header0, len_header; lia).
  set (R := z2b (len key) :: key ++ enc_values values).
  set (k' := 1015 - len key - len (enc_values values)).
  replace (zeros 8 ++ z2b (len key) :: key ++ enc_values values ++ zeros k')
    with ((zeros 8 ++ R) ++ zeros k')
    by (unfold R; rewrite <- !app_assoc, <- !app_comm_cons, <- app_assoc; done).
  assert (Ht' : len (zeros 8 ++ R) = 8 + 1 + len key + len (enc_values values))
    by (unfold R; apply len_header).
  rewrite (len_app (zeros 8 ++ R) (zeros k')), len_zeros by (unfold k'; lia).
  replace (len (zeros 8 ++ R) + 8 <=? len (zeros 8 ++ R) + k') with true
    by (unfold k'; lia).
  replace (len (zeros 8 ++ R) + 16 <=? 1024) with true by lia.
  cbn [negb]. rewrite seal_record by (unfold k'; lia).
  unfold enc_record. rewrite Ht'. unfold R.
  rewrite <- app_comm_cons, <- !app_assoc.
  done.
Qed.

End Scratch.

(** ** Bytes and big-endian integers *)

Lemma b2z_range b : 0 ≤ b2z b < 256.
Proof. unfold b2z. pose proof (Byte.to_N_bounded b). lia. Qed.

Lemma b2z_z2b z : 0 ≤ z < 256 → b2z (z2b z) = z.
Proof.
  intros Hz. unfold b2z, z2b. rewrite Z.mod_small by done.
  destruct (Byte.of_N (Z.to_N z)) as [b|] eqn:E.
  - apply Byte.to_of_N in E. simpl. lia.
  - apply Byte.of_N_None_iff in E. lia.
Qed.

Lemma z2b_mod z : z2b (z mod 256) = z2b z.
Proof. unfold z2b. by rewrite Z.mod_mod. Qed.

Lemma b2z_z2b_mod z : b2z (z2b z) = z mod 256.
Proof. rewrite <- z2b_mod. apply b2z_z2b. by apply Z.mod_pos_bound. Qed.

Lemma wrap64_small z : - 2 ^ 63 ≤ z < 2 ^ 63 → wrap64 z = z.
Proof. intros Hz. unfold wrap64. rewrite Z.mod_small; lia. Qed.

(** One step of the loop of [bigUint64] on a non-negative prefix. *)
Lemma shift_or x b :
  0 ≤ x < 2 ^ 55 → 0 ≤ b < 256 →
  wrap64 (Z.lor (Z.shiftl x 8) b) = x * 256 + b.
Proof.
  intros Hx Hb.
  assert (E : Z.lor (Z.shiftl x 8) b = x * 256 + b).
  { rewrite Z.shiftl_mul_pow2 by lia. change (2 ^ 8) with 256.
    rewrite <- Z.lxor_lor, <- Z.add_nocarry_lxor; [done| |].
    all: apply Z.bits_inj'; intros n Hn; rewrite Z.land_spec, Z.bits_0.
    all: destruct (decide (n < 8)).
    all: try (replace (x * 256) with (x * 2 ^ 8) by lia;
              rewrite Z.mul_pow2_bits_low by lia; done).
    all: replace b with (b mod 2 ^ 8) by (apply Z.mod_small; lia).
    all: rewrite (Z.mod_pow2_bits_high b 8 n) by lia; apply andb_false_r. }
  rewrite E. apply wrap64_small. lia.
Qed.

Lemma len_be64 v : len (be64 v) = 8.
Proof. done. Qed.

Lemma length_be64 v : length (be64 v) = 8%nat.
Proof. done. Qed.

Lemma bigUint64_be64 v : 0 ≤ v < 2 ^ 63 → bigUint64 (be64 v) = v.
Proof.
  intros Hv. unfold bigUint64. rewrite len_be64. simpl.
  rewrite !b2z_z2b_mod.
  assert (Hstep : ∀ k, 0 ≤ k < 8 →
            wrap64 (Z.lor (Z.shiftl (Z.shiftr v (8 * (k + 1))) 8)
                          (Z.shiftr v (8 * k) mod 256))
            = Z.shiftr v (8 * k)).
  { intros k Hk. rewrite !Z.shiftr_div_pow2 by lia.
    replace (8 * (k + 1)) with (8 * k + 8) by lia.
    rewrite Z.pow_add_r, <- Z.div_div by lia. change (2 ^ 8) with 256.
    assert (0 < 2 ^ (8 * k)) by (apply Z.pow_pos_nonneg; lia).
    assert (0 ≤ v / 2 ^ (8 * k)) by (apply Z.div_pos; lia).
    assert (v / 2 ^ (8 * k) ≤ v) by (apply Z.div_le_upper_bound; nia).
    pose proof (Z.div_mod (v / 2 ^ (8 * k)) 256 ltac:(lia)).
    pose proof (Z.mod_pos_bound (v / 2 ^ (8 * k)) 256 ltac:(lia)).
    rewrite shift_or; [lia| |lia].
    split; [apply Z.div_pos; lia|].
    apply Z.div_lt_upper_bound; lia. }
  change (Z.shiftl 0 8) with 0. rewrite Z.lor_0_l.
  assert (H7 : wrap64 (Z.shiftr v (8 * 7) mod 256) = Z.shiftr v (8 * 7)).
  { rewrite Z.shiftr_div_pow2 by lia.
    assert (0 ≤ v / 2 ^ (8 * 7)) by (apply Z.div_pos; lia).
    assert (v / 2 ^ (8 * 7) < 256) by (apply Z.div_lt_upper_bound; lia).
    rewrite Z.mod_small by lia. apply wrap64_small. lia. }
  rewrite H7.
  pose proof (Hstep 6 ltac:(lia)) as H6. change (6 + 1) with 7 in H6.
  pose proof (Hstep 5 ltac:(lia)) as H5. change (5 + 1) with 6 in H5.
  pose proof (Hstep 4 ltac:(lia)) as H4. change (4 + 1) with 5 in H4.
  pose proof (Hstep 3 ltac:(lia)) as H3. change (3 + 1) with 4 in H3.
  pose proof (Hstep 2 ltac:(lia)) as H2. change (2 + 1) with 3 in H2.
  pose proof (Hstep 1 ltac:(lia)) as H1. change (1 + 1) with 2 in H1.
  pose proof (Hstep 0 ltac:(lia)) as H0. change (0 + 1) with 1 in H0.
  rewrite H6, H5, H4, H3, H2, H1, H0.
  apply Z.shiftr_0_r.
Qed.

(** ** Reading parts of an array *)

Lemma sub_add m p a b :
  0 ≤ p → 0 ≤ a → 0 ≤ b → sub m p (a + b) = sub m p a ++ sub m (p + a) b.
Proof.
  intros Hp Ha Hb. unfold sub.
  rewrite !Z2Nat.inj_add by done.
  rewrite <- take_take_drop, drop_drop. done.
Qed.

(** An array that holds [A ++ B] at [p] holds [A] at [p] and [B] behind it. *)
Lemma sub_app_inv m p (A B : list byte) :
  0 ≤ p → sub m p (len A + len B) = A ++ B →
  sub m p (len A) = A ∧ sub m (p + len A) (len B) = B.
Proof.
  intros Hp H. rewrite sub_add in H by (done || apply len_nonneg).
  assert (Hlen : length (sub m p (len A)) = length A).
  { apply (f_equal length) in H. rewrite !length_app in H.
    unfold sub in *. rewrite !length_take, !length_drop in *. unfold len in *. lia. }
  by apply app_inj_1 in H.
Qed.

Lemma rd_sub_cons m p x (A : list byte) :
  0 ≤ p → sub m p (len (x :: A)) = x :: A → rd m p = x.
Proof.
  intros Hp H. apply (f_equal (λ l, l !! 0%nat)) in H.
  rewrite lookup_sub in H. rewrite decide_True in H by (unfold len; simpl; lia).
  unfold rd. rewrite Nat.add_0_r in H. by rewrite H.
Qed.

(** ** The index entry of a key with a real head offset never changes *)

Lemma keeps_refl s : keeps s s.
Proof. by intros k o. Qed.

Lemma keeps_trans s1 s2 s3 : keeps s1 s2 → keeps s2 s3 → keeps s1 s3.
Proof. intros H12 H23 k o Hk Ho. apply H23; [by apply H12 | done]. Qed.

Lemma keeps_same_index s s' : keyMap s' = keyMap s → keeps s s'.
Proof. intros E k o. by rewrite E. Qed.

Lemma same_ctl_refl s : same_ctl s s.
Proof. done. Qed.

Lemma same_ctl_trans s1 s2 s3 : same_ctl s1 s2 → same_ctl s2 s3 → same_ctl s1 s3.
Proof. intros (?&?&?) (?&?&?). repeat split; congruence. Qed.

Lemma same_ctl_set_bytes s m : same_ctl s (set_bytes s m).
Proof. done. Qed.

Lemma del_ctl s o vm : same_ctl s (snd (del s o vm)).
Proof. unfold del. repeat case_match; done. Qed.

Lemma delPrefix_ctl s o values : same_ctl s (snd (delPrefix s o values)).
Proof. unfold delPrefix. repeat case_match; done. Qed.

Lemma dels_loop_ctl fuel : ∀ s o vm, same_ctl s (snd (dels_loop fuel s o vm)).
Proof.
  induction fuel as [|fuel IH]; intros s o vm; simpl; [done|].
  pose proof (del_ctl s o vm) as E.
  destruct (del s o vm) as [[d| |] s1]; simpl in *; try done.
  destruct (d =? 0); simpl; [done|].
  eapply same_ctl_trans; [exact E|apply IH].
Qed.

Lemma delsPrefix_loop_ctl fuel :
  ∀ s o values, same_ctl s (snd (delsPrefix_loop fuel s o values)).
Proof.
  induction fuel as [|fuel IH]; intros s o values; simpl; [done|].
  pose proof (delPrefix_ctl s o values) as E.
  destruct (delPrefix s o values) as [[d| |] s1]; simpl in *; try done.
  destruct (d =? 0); simpl; [done|].
  eapply same_ctl_trans; [exact E|apply IH].
Qed.

Lemma dels_ctl fuel s key values : same_ctl s (snd (dels fuel s key values)).
Proof.
  unfold dels. destruct (keyMap s !! key); [|done].
  case_decide; [done|]. apply dels_loop_ctl.
Qed.

Lemma delsPrefix_ctl fuel s key values : same_ctl s (snd (delsPrefix fuel s key values)).
Proof.
  unfold delsPrefix. destruct (keyMap s !! key); [|done].
  destruct (len values =? 0); [done|]. apply delsPrefix_loop_ctl.
Qed.

Lemma dels_keyMap fuel s key values : keyMap (snd (dels fuel s key values)) = keyMap s.
Proof. apply dels_ctl. Qed.

Lemma delsPrefix_keyMap fuel s key values :
  keyMap (snd (delsPrefix fuel s key values)) = keyMap s.
Proof. apply delsPrefix_ctl. Qed.

Lemma file_write_keyMap w s b : keyMap (snd (file_write w s b)) = keyMap s.
Proof. by destruct w. Qed.

Lemma file_write_offset w s b : offset (snd (file_write w s b)) = offset s.
Proof. by destruct w. Qed.

Lemma insert_keeps s s' key v :
  (keyMap s !! key = None ∨ keyMap s !! key = Some notExist) →
  keyMap s' = <[key := v]> (keyMap s) → keeps s s'.
Proof.
  intros Hkey E k o Hk Ho. rewrite E.
  destruct (decide (key = k)) as [->|Hne].
  - destruct Hkey as [Hkey|Hkey]; rewrite Hkey in Hk; congruence.
  - by rewrite lookup_insert_ne.
Qed.

Lemma Exist_keeps s key : keeps s (snd (Exist s key)).
Proof.
  unfold Exist. destruct (keyMap s !! key) as [o|] eqn:E.
  - destruct (o =? notExist) eqn:Eo; simpl; [|apply keeps_refl].
    apply Z.eqb_eq in Eo. subst o.
    eapply insert_keeps; [by right | done].
  - eapply insert_keeps; [by left | done].
Qed.

Lemma publish_keeps s s' key :
  keyMap s' = publish s key → keeps s s'.
Proof.
  unfold publish. intros E.
  destruct (keyMap s !! key) as [i|] eqn:Ei.
  - destruct (i =? notExist) eqn:Eq; [|by apply keeps_same_index].
    apply Z.eqb_eq in Eq. subst i. eapply insert_keeps; [by right|done].
  - eapply insert_keeps; [by left|done].
Qed.

Section EngineFacts.

Variable growcap : Z → Z → Z.

(** What a call of [add] can do. *)
Lemma add_cases s b8 key values w r s' :
  add growcap s b8 key values w = (r, s') →
  (s' = s ∧ (r = Panic ∨ r = Timeout ∨ r = Ret (0, Some ValueTooLarge)))
  ∨ (∃ b total e,
       add_record growcap s key values = Ret (inr (b, total))
       ∧ file_write w s b = (Some e, s') ∧ r = Ret (0, Some e))
  ∨ (∃ b total s1,
       add_record growcap s key values = Ret (inr (b, total))
       ∧ file_write w s b = (None, s1) ∧ r = Ret (total, None)
       ∧ s' = mkMsearch (f_pos s1) (offset s1 + total) (publish s1 key) (link s1 b8)).
Proof.
  unfold add. intros H.
  destruct (add_record growcap s key values) as [[e|[b total]]| |] eqn:Er.
  - left. inversion H; subst. split; [done|].
    right; right. unfold add_record in Er.
    destruct (add_header key) as [b0 idx0].
    destruct (add_loop growcap values b0 1024 idx0) as [[e'|[[b1 cap] idx1]]| |] eqn:El;
      [|repeat case_match; done|done|done].
    inversion Er; subst e'. clear Er.
    revert b0 idx0 El. generalize 1024 as cap.
    induction values as [|v vs IH]; intros cap b0 idx0 El; simpl in El; [done|].
    destruct (if len b0 <? idx0 + len v + 2 then append1k growcap b0 cap else (b0, cap))
      as [b1 cap1].
    destruct (255 <? len v); [by inversion El|].
    destruct (negb (idx0 <? len b1)); [done|]. eauto.
  - destruct (file_write w s b) as [[e|] s1] eqn:Ew; inversion H; subst.
    + right; left. by exists b, total, e.
    + right; right. by exists b, total, s1.
  - left. inversion H; auto.
  - left. inversion H; auto.
Qed.

Lemma add_keeps s b8 key values w : keeps s (snd (add growcap s b8 key values w)).
Proof.
  destruct (add growcap s b8 key values w) as [r s'] eqn:E. simpl.
  apply add_cases in E as [[-> _]|[(b & total & e & _ & Hw & _)|(b & total & s1 & _ & Hw & _ & ->)]].
  - apply keeps_refl.
  - apply keeps_same_index. pose proof (file_write_keyMap w s b) as K. by rewrite Hw in K.
  - pose proof (file_write_keyMap w s b) as K. rewrite Hw in K. simpl in K.
    apply keeps_trans with s1; [by apply keeps_same_index|].
    by apply publish_keeps with key.
Qed.

(** What a call of [adds] can do: nothing, write a slot in place, or call
    [add]. *)
Lemma adds_cases fuel s key values w r s' :
  adds growcap fuel s key values w = (r, s') →
  (s' = s ∧ (values = [] ∧ r = Ret None ∨ r = Panic ∨ r = Timeout))
  ∨ (∃ o o' start value,
       values = [value] ∧ keyMap s !! key = Some o ∧ o ≠ notExist
       ∧ adds_reuse s o o' start value = (r, s'))
  ∨ (∃ b8, only_err (add growcap s b8 key values w) = (r, s')
       ∧ (b8 = None ∧ (keyMap s !! key = None ∨ keyMap s !! key = Some notExist)
          ∨ ∃ o, keyMap s !! key = Some o ∧ o ≠ notExist
                 ∧ getB8byOffset fuel s o = Ret b8)).
Proof.
  unfold adds, adds_append. intros H.
  destruct (len values =? 0) eqn:E0.
  { left. inversion H; subst. split; [done|]. left. split; [|done].
    destruct values; [done|]. unfold len in E0. simpl in E0. lia. }
  destruct (keyMap s !! key) as [o|]; [|right; right; exists None; auto].
  destruct (o =? notExist) eqn:Eo.
  { right; right. exists None. split; [done|]. left. split; [done|].
    right. f_equal. lia. }
  assert (Happ : match getB8byOffset fuel s o with
                 | Ret b8 => only_err (add growcap s b8 key values w)
                 | Panic => (Panic, s)
                 | Timeout => (Timeout, s)
                 end = (r, s') →
          (s' = s ∧ (values = [] ∧ r = Ret None ∨ r = Panic ∨ r = Timeout))
          ∨ (∃ o0 o' start value, values = [value]
                      ∧ Some o = Some o0 ∧ o0 ≠ notExist
                      ∧ adds_reuse s o0 o' start value = (r, s'))
          ∨ (∃ b8, only_err (add growcap s b8 key values w) = (r, s')
               ∧ (b8 = None ∧ (Some o = None ∨ Some o = Some notExist)
                  ∨ ∃ o0, Some o = Some o0 ∧ o0 ≠ notExist
                          ∧ getB8byOffset fuel s o0 = Ret b8))).
  { intros H'. destruct (getB8byOffset fuel s o) as [b8| |] eqn:Eb;
      [|left; inversion H'; auto..].
    right; right. exists b8. split; [done|]. right. exists o.
    repeat split; [lia|done]. }
  destruct values as [|value [|v2 vs]]; [by apply Happ| |by apply Happ].
  destruct (empty fuel s o) as [[[[o' start] end_] t]| |];
    [|left; inversion H; auto..].
  destruct (t && (len value <? end_ - start)); [|by apply Happ].
  right; left. exists o, o', start, value. repeat split; [lia|done].
Qed.

Lemma adds_reuse_cases s o o' start value r s' :
  adds_reuse s o o' start value = (r, s') →
  (s' = s ∧ r = Panic)
  ∨ (r = Ret None ∧ ∃ m, s' = set_bytes s m).
Proof.
  unfold adds_reuse. intros H.
  repeat (case_match; [left; by inversion H|]).
  right. inversion H. eauto.
Qed.

Lemma only_err_snd x : snd (only_err x) = snd x.
Proof. by destruct x as [[[? ?]| |] ?]. Qed.

Lemma adds_keeps fuel s key values w : keeps s (snd (adds growcap fuel s key values w)).
Proof.
  destruct (adds growcap fuel s key values w) as [r s'] eqn:E. simpl.
  apply adds_cases in E as [[-> _]|[(o & o' & start & value & _ & _ & _ & E)|(b8 & E & _)]].
  - apply keeps_refl.
  - apply adds_reuse_cases in E as [[-> _]|(_ & m & ->)];
      [apply keeps_refl|by apply keeps_same_index].
  - pose proof (only_err_snd (add growcap s b8 key values w)) as Es.
    rewrite E in Es. simpl in Es. subst s'. apply add_keeps.
Qed.

Lemma Update_keeps fuel s key values w :
  keeps s (snd (Update growcap fuel s key values w)).
Proof.
  unfold Update. destruct (gets fuel s key) as [old| |]; try apply keeps_refl.
  pose proof (dels_keyMap fuel s key old) as E.
  destruct (dels fuel s key old) as [[[]| |] s1]; simpl in E;
    try by apply keeps_same_index.
  eapply keeps_trans; [by apply keeps_same_index|apply adds_keeps].
Qed.

Lemma step_keeps fuel s c : keeps s (step growcap fuel s c).
Proof.
  destruct c; simpl.
  - apply adds_keeps.
  - apply keeps_same_index, dels_keyMap.
  - apply keeps_same_index, delsPrefix_keyMap.
  - apply Update_keeps.
  - apply keeps_refl.
  - apply Exist_keeps.
Qed.

Lemma run_keeps fuel cs : ∀ s, keeps s (run growcap fuel s cs).
Proof.
  induction cs as [|c cs IH]; intros s; simpl; [apply keeps_refl|].
  eapply keeps_trans; [apply step_keeps|apply IH].
Qed.

End EngineFacts.

(** ** What a failed or refused append leaves behind *)

Lemma lookup_blit_before m p bs i :
  (i < Z.to_nat p)%nat → blit m p bs !! i = m !! i.
Proof. intros Hi. rewrite lookup_blit. rewrite decide_False; [done|lia]. Qed.

Lemma file_write_short n s b :
  file_write (WriteShort n) s b
  = (Some IoError,
     mkMsearch (f_pos s + len (take n b)) (offset s) (keyMap s)
               (blit (bytesAddr s) (f_pos s) (take n b))).
Proof. done. Qed.

Section Refusals.

Variable growcap : Z → Z → Z.


(** [add] reports [ValueTooLarge] only before it has touched anything. *)
Lemma add_too_large_inv s b8 key values w n s' :
  add growcap s b8 key values w = (Ret (n, Some ValueTooLarge), s') → s' = s.
Proof.
  intros H. apply add_cases in H
    as [[-> _]|[(b & total & e & _ & Hw & He)|(b & total & s1 & _ & _ & He & _)]];
    [done| |done].
  destruct w; simpl in Hw; inversion Hw; subst. done.
Qed.

(** With a failing [f.Write], [add] never reports success and never moves
    [offset] or the index. *)
Lemma add_write_short s b8 key values n r s' :
  add growcap s b8 key values (WriteShort n) = (r, s') →
  offset s' = offset s ∧ keyMap s' = keyMap s
  ∧ (∀ total, r ≠ Ret (total, None))
  ∧ len (bytesAddr s') = len (bytesAddr s)
  ∧ (∀ i, (i < Z.to_nat (f_pos s))%nat → bytesAddr s' !! i = bytesAddr s !! i).
Proof.
  intros H. apply add_cases in H
    as [[-> Hr]|[(b & total & e & _ & Hw & ->)|(b & total & s1 & _ & Hw & _)]].
  - repeat split; try done. intros total. destruct Hr as [-> | [-> | ->]]; done.
  - rewrite file_write_short in Hw. inversion Hw; subst. simpl.
    repeat split; try done.
    + apply len_blit.
    + intros i Hi. by apply lookup_blit_before.
  - by rewrite file_write_short in Hw.
Qed.

End Refusals.

(** * Records and chains *)

(** ** Scanning the value area of a record *)

Lemma enc_slots_cons x xs : enc_slots (x :: xs) = enc_slot x ++ enc_slots xs.
Proof. done. Qed.

Lemma len_enc_slot x : slot_ok x → 1 ≤ len (enc_slot x) ≤ 256.
Proof.
  destruct x as [v|]; simpl; [|done].
  intros Hv. rewrite len_enc_value. lia.
Qed.

Lemma b2z_x00 : b2z x00 = 0.
Proof. done. Qed.

(** What the array holds where a slot starts. *)
Lemma slot_at m p x (rest : list byte) :
  0 ≤ p → slot_ok x →
  sub m p (len (enc_slot x) + len rest) = enc_slot x ++ rest →
  sub m (p + len (enc_slot x)) (len rest) = rest
  ∧ match x with
    | Live v => b2z (rd m p) = len v ∧ sub m (p + 1) (len v) = v
    | Tomb => b2z (rd m p) = 0
    end.
Proof.
  intros Hp Hx H. apply sub_app_inv in H as [Hslot Hrest]; [|done].
  split; [done|]. destruct x as [v|]; simpl in *.
  - unfold enc_value in Hslot. rewrite (rd_sub_cons _ _ _ _ Hp Hslot).
    rewrite b2z_z2b by lia. split; [done|].
    change (z2b (len v) :: v) with ([z2b (len v)] ++ v) in Hslot.
    rewrite len_app in Hslot. by apply sub_app_inv in Hslot as [_ ?].
  - by rewrite (rd_sub_cons _ _ _ _ Hp Hslot).
Qed.

Lemma get_loop_eq fuel m o total i vals :
  get_loop (S fuel) m o total i vals =
    if total - 16 <? 0 then Panic
    else if negb (i <? total - 16) then Ret vals
    else
      let bi := b2z (rd m (o + i)) in
      if bi =? 0 then get_loop fuel m o total (i + 1) vals
      else if negb (i + 1 + bi <=? len m - o) then Panic
      else get_loop fuel m o total (i + 1 + bi) (vals ++ [sub m (o + i + 1) bi]).
Proof. done. Qed.

Lemma get_loop_done fuel m o total i vals :
  0 ≤ total - 16 ≤ i → get_loop fuel m o total i vals = Ret vals.
Proof.
  intros H. destruct fuel; simpl.
  all: replace (total - 16 <? 0) with false by lia.
  all: by replace (i <? total - 16) with false by lia.
Qed.

(** On a well-formed value area, the loop of [get] returns the live values
    in order, given fuel for the bytes that are left. *)
Lemma get_loop_slots m o total :
  0 ≤ o → o + total ≤ len m →
  ∀ slots i vals fuel,
    Forall slot_ok slots → 0 ≤ i →
    i + len (enc_slots slots) = total - 16 →
    sub m (o + i) (len (enc_slots slots)) = enc_slots slots →
    (Z.to_nat (total - 16 - i) ≤ fuel)%nat →
    get_loop fuel m o total i vals = Ret (vals ++ live_values slots).
Proof.
  intros Ho Hm. induction slots as [|x xs IH]; intros i vals fuel Hok Hi Hend Hsub Hfuel.
  - rewrite app_nil_r. apply get_loop_done.
    change (len (enc_slots [])) with 0 in Hend. lia.
  - apply Forall_cons in Hok as [Hx Hxs].
    rewrite enc_slots_cons, len_app in Hend, Hsub.
    pose proof (len_enc_slot x Hx) as Hlx.
    pose proof (len_nonneg (enc_slots xs)) as Hlxs.
    apply slot_at in Hsub as [Hrest Hhead]; [|lia|done].
    destruct fuel as [|fuel]; [lia|]. rewrite get_loop_eq.
    replace (total - 16 <? 0) with false by lia.
    replace (i <? total - 16) with true by lia. cbn [negb].
    destruct x as [v|]; simpl in Hhead, Hlx, Hend, Hrest.
    + destruct Hhead as [Hb Hv]. simpl in Hx.
      rewrite len_enc_value in Hend, Hrest, Hlx.
      cbv zeta. rewrite Hb. replace (len v =? 0) with false by lia.
      replace (i + 1 + len v <=? len m - o) with true by lia. cbn [negb].
      replace (o + i + 1) with (o + i + 1) by lia. rewrite Hv.
      rewrite (IH (i + 1 + len v)); try done; try lia.
      * by rewrite <- app_assoc.
      * by replace (o + (i + 1 + len v)) with (o + i + (1 + len v)) by lia.
    + cbv zeta. rewrite Hhead. cbn [Z.eqb].
      change (len [x00]) with 1 in *.
      rewrite (IH (i + 1)); try done; try lia.
      by replace (o + (i + 1)) with (o + i + 1) by lia.
Qed.

(** ** Reading a record the array holds *)

Lemma in_slice_true m lo hi :
  0 ≤ lo → lo ≤ hi → hi ≤ len m → in_slice m lo hi = true.
Proof.
  intros. unfold in_slice.
  rewrite !andb_true_iff, !Z.leb_le. done.
Qed.

Lemma r_total_pos r : 25 ≤ r_total r.
Proof.
  unfold r_total. pose proof (len_nonneg (r_key r)).
  pose proof (len_nonneg (enc_slots (r_slots r))). lia.
Qed.

(** The parts of a record in the array that holds it. *)
Lemma holds_parts m o r :
  holds m o r →
  sub m o 8 = be64 (r_total r)
  ∧ rd m (o + 8) = z2b (len (r_key r))
  ∧ sub m (o + (8 + 1 + len (r_key r))) (len (enc_slots (r_slots r)))
    = enc_slots (r_slots r)
  ∧ sub m (o + r_total r - 8) 8 = be64 (r_next r).
Proof.
  intros (Ho & Hm & Hsub & Hok).
  unfold r_bytes, enc_record in Hsub.
  set (key := r_key r) in *. set (area := enc_slots (r_slots r)) in *.
  pose proof (len_nonneg key) as Hk. pose proof (len_nonneg area) as Ha.
  assert (Ht : r_total r = 8 + 1 + len key + len area + 16) by done.
  rewrite Ht in *. clear Ht.
  replace (8 + 1 + len key + len area + 16)
    with (len (be64 (8 + 1 + len key + len area + 16))
          + len (z2b (len key) :: key ++ area ++ be64 (r_self_end r) ++ be64 (r_next r)))
    in Hsub at 1
    by (rewrite len_cons, !len_app, !len_be64; lia).
  apply sub_app_inv in Hsub as [H1 H2]; [|done].
  rewrite len_be64 in H1, H2. split; [done|].
  split; [by apply rd_sub_cons in H2; [|lia]|].
  change (z2b (len key) :: key ++ area ++ be64 (r_self_end r) ++ be64 (r_next r))
    with ([z2b (len key)] ++ key ++ area ++ be64 (r_self_end r) ++ be64 (r_next r)) in H2.
  rewrite len_app in H2. apply sub_app_inv in H2 as [_ H3]; [|lia].
  change (len [z2b (len key)]) with 1 in H3.
  rewrite len_app in H3. apply sub_app_inv in H3 as [_ H4]; [|lia].
  rewrite len_app in H4. apply sub_app_inv in H4 as [H5 H6]; [|lia].
  split; [by replace (o + (8 + 1 + len key)) with (o + 8 + 1 + len key) by lia|].
  rewrite len_app in H6. apply sub_app_inv in H6 as [_ H7]; [|lia].
  rewrite !len_be64 in H7.
  by replace (o + (8 + 1 + len key + len area + 16) - 8)
    with (o + 8 + 1 + len key + len area + 8) by lia.
Qed.

Lemma scan_start_holds m o r :
  holds m o r → scan_start m o = 8 + 1 + len (r_key r).
Proof.
  intros H. pose proof (holds_parts m o r H) as (_ & Hb & _).
  destruct H as (_ & _ & _ & Hkey & _).
  pose proof (len_nonneg (r_key r)).
  unfold scan_start. rewrite Hb, b2z_z2b by lia.
  rewrite Z.mod_small; lia.
Qed.

Lemma total_holds m o r :
  holds m o r → len m < 2 ^ 63 → bigUint64 (sub m o 8) = r_total r.
Proof.
  intros H Hm. pose proof (holds_parts m o r H) as (-> & _).
  pose proof (r_total_pos r). destruct H as (? & ? & _).
  apply bigUint64_be64. lia.
Qed.

Lemma next_holds m o r :
  holds m o r → bigUint64 (sub m (o + r_total r - 8) 8) = r_next r.
Proof.
  intros H. pose proof (holds_parts m o r H) as (_ & _ & _ & ->).
  destruct H as (_ & _ & _ & _ & _ & ?). by apply bigUint64_be64.
Qed.

(** [get] on a record the mapping holds: the live values and [next]. *)
Lemma get_holds s o r :
  holds (bytesAddr s) o r → len (bytesAddr s) < 2 ^ 63 →
  get s o = Ret (live_values (r_slots r), r_next r).
Proof.
  intros H Hm. unfold get.
  pose proof (r_total_pos r) as Ht.
  pose proof (holds_parts _ o r H) as (_ & _ & Harea & _).
  rewrite (total_holds _ o r H Hm), (scan_start_holds _ o r H), (next_holds _ o r H).
  destruct H as (Ho & Hfit & _ & Hkey & Hslots & _).
  rewrite !in_slice_true by lia.
  replace (8 <? r_total r) with true by lia. cbn [negb].
  pose proof (len_nonneg (r_key r)).
  rewrite (get_loop_slots _ o (r_total r) Ho Hfit (r_slots r)); try done.
  - lia.
  - unfold r_total. lia.
Qed.

(** ** Walking a chain *)

Lemma chain_head m bound o r rs : chain m bound o (r :: rs) → holds m o r.
Proof. by intros [? _]. Qed.

(** Every record of a chain lies in front of [bound]. *)
Lemma chain_below m bound : ∀ rs o, chain m bound o rs → o + 25 ≤ bound.
Proof.
  induction rs as [|r rs IH]; intros o H; [done|].
  destruct H as [Hr H]. pose proof (r_total_pos r).
  destruct rs as [|r' rs'].
  - lia.
  - destruct H as (_ & Hnext & Hrest). apply IH in Hrest. lia.
Qed.

Lemma gets_loop_chain s bound :
  len (bytesAddr s) < 2 ^ 63 →
  ∀ rs o lists fuel,
    chain (bytesAddr s) bound o rs → (length rs ≤ fuel)%nat →
    gets_loop fuel s o lists = Ret (lists ++ chain_values rs).
Proof.
  intros Hm. induction rs as [|r rs IH]; intros o lists fuel H Hfuel; [done|].
  destruct fuel as [|fuel]; [simpl in Hfuel; lia|].
  destruct H as [Hr H]. simpl. rewrite (get_holds s o r Hr Hm).
  destruct rs as [|r' rs'].
  - destruct H as [-> _]. simpl. unfold chain_values. simpl. by rewrite app_nil_r.
  - destruct H as (Hne & _ & Hrest).
    replace (r_next r =? 0) with false by lia.
    rewrite (IH (r_next r)); [|done|simpl in *; lia].
    unfold chain_values. simpl. by rewrite <- app_assoc.
Qed.

Lemma gets_chain fuel s key o rs :
  len (bytesAddr s) < 2 ^ 63 →
  keyMap s !! key = Some o → o ≠ notExist →
  chain (bytesAddr s) (offset s) o rs → (length rs ≤ fuel)%nat →
  gets fuel s key = Ret (chain_values rs).
Proof.
  intros Hm Hk Ho H Hfuel. unfold gets. rewrite Hk.
  replace (o =? notExist) with false by lia.
  by rewrite (gets_loop_chain s (offset s) Hm rs).
Qed.

Lemma b8_holds s o r :
  holds (bytesAddr s) o r → len (bytesAddr s) < 2 ^ 63 → o < offset s →
  b8 s o = Ret (r_next r, Some (o + r_total r - 8)).
Proof.
  intros H Hm Hlt. unfold b8.
  pose proof (r_total_pos r) as Ht.
  rewrite (total_holds _ o r H Hm), (next_holds _ o r H).
  destruct H as (Ho & Hfit & _).
  replace (offset s <=? o) with false by lia.
  rewrite !in_slice_true by lia.
  by replace (0 <=? r_total r - 8) with true by lia.
Qed.

Lemma getB8byOffset_chain s :
  len (bytesAddr s) < 2 ^ 63 →
  ∀ rs o fuel,
    chain (bytesAddr s) (offset s) o rs → (length rs ≤ fuel)%nat →
    getB8byOffset fuel s o = Ret (Some (tail_link o rs)).
Proof.
  intros Hm. induction rs as [|r rs IH]; intros o fuel H Hfuel; [done|].
  destruct fuel as [|fuel]; [simpl in Hfuel; lia|].
  pose proof (chain_below _ _ _ _ H) as Hlt.
  destruct H as [Hr H]. cbn [getB8byOffset].
  rewrite (b8_holds s o r Hr Hm) by lia.
  destruct rs as [|r' rs'].
  - destruct H as [-> _]. done.
  - destruct H as (Hne & _ & Hrest).
    replace (r_next r =? 0) with false by lia.
    rewrite (IH (r_next r)); [done|done|simpl in *; lia].
Qed.

(** ** Looking for a gap *)

Lemma empty1_loop_eq fuel m o total i first start t :
  empty1_loop (S fuel) m o total i first start t =
    if total - 16 <? 0 then Panic
    else if negb (i <? total - 16) then Ret (false, start, 0, t)
    else if b2z (rd m (o + i)) =? 0 then
      (if first then empty1_loop fuel m o total (i + 1) first start t
       else empty1_loop fuel m o total (i + 1) true i true)
    else if t then Ret (true, start, i, t)
    else empty1_loop fuel m o total (i + b2z (rd m (o + i)) + 1) first start t.
Proof. done. Qed.

Lemma empty1_loop_done fuel m o total i first start t :
  0 ≤ total - 16 ≤ i → empty1_loop fuel m o total i first start t = Ret (false, start, 0, t).
Proof.
  intros H. destruct fuel; simpl.
  all: replace (total - 16 <? 0) with false by lia.
  all: by replace (i <? total - 16) with false by lia.
Qed.

Lemma tomb_run_nonneg xs : 0 ≤ tomb_run xs.
Proof. induction xs as [|[v|] xs IH]; simpl; lia. Qed.

(** Inside a gap: the loop runs to the end of the run of tombstone bytes. *)
Lemma empty1_loop_tombs m o total start :
  0 ≤ o → o + total ≤ len m →
  ∀ slots i fuel,
    Forall slot_ok slots → 0 ≤ i →
    i + len (enc_slots slots) = total - 16 →
    sub m (o + i) (len (enc_slots slots)) = enc_slots slots →
    (Z.to_nat (total - 16 - i) ≤ fuel)%nat →
    empty1_loop fuel m o total i true start true =
      if i + tomb_run slots =? total - 16 then Ret (false, start, 0, true)
      else Ret (true, start, i + tomb_run slots, true).
Proof.
  intros Ho Hm. induction slots as [|x xs IH]; intros i fuel Hok Hi Hend Hsub Hfuel.
  - change (len (enc_slots [])) with 0 in Hend. simpl tomb_run.
    replace (i + 0 =? total - 16) with true by lia.
    apply empty1_loop_done. lia.
  - apply Forall_cons in Hok as [Hx Hxs].
    rewrite enc_slots_cons, len_app in Hend, Hsub.
    pose proof (len_enc_slot x Hx) as Hlx.
    pose proof (len_nonneg (enc_slots xs)) as Hlxs.
    apply slot_at in Hsub as [Hrest Hhead]; [|lia|done].
    destruct fuel as [|fuel]; [lia|]. rewrite empty1_loop_eq.
    replace (total - 16 <? 0) with false by lia.
    replace (i <? total - 16) with true by lia. cbn [negb].
    destruct x as [v|]; simpl in Hhead, Hlx, Hend, Hrest.
    + destruct Hhead as [Hb Hv]. simpl in Hx. rewrite Hb.
      replace (len v =? 0) with false by lia. simpl tomb_run.
      rewrite Z.add_0_r. by replace (i =? total - 16) with false by lia.
    + rewrite Hhead. cbn [Z.eqb]. change (len [x00]) with 1 in *.
      rewrite (IH (i + 1)); try done; try lia.
      * simpl tomb_run. pose proof (tomb_run_nonneg xs).
        replace (i + 1 + tomb_run xs) with (i + (1 + tomb_run xs)) by lia. done.
      * by replace (o + (i + 1)) with (o + i + 1) by lia.
Qed.

(** In front of any gap: the loop finds the first gap of the value area. *)
Lemma empty1_loop_slots m o total :
  0 ≤ o → o + total ≤ len m →
  ∀ slots i fuel,
    Forall slot_ok slots → 0 ≤ i →
    i + len (enc_slots slots) = total - 16 →
    sub m (o + i) (len (enc_slots slots)) = enc_slots slots →
    (Z.to_nat (total - 16 - i) ≤ fuel)%nat →
    empty1_loop fuel m o total i false 0 false =
      match first_gap slots i with
      | None => Ret (false, 0, 0, false)
      | Some (start, end_) =>
          if end_ =? total - 16 then Ret (false, start, 0, true)
          else Ret (true, start, end_, true)
      end.
Proof.
  intros Ho Hm. induction slots as [|x xs IH]; intros i fuel Hok Hi Hend Hsub Hfuel.
  - change (len (enc_slots [])) with 0 in Hend. simpl first_gap.
    apply empty1_loop_done. lia.
  - apply Forall_cons in Hok as [Hx Hxs].
    rewrite enc_slots_cons, len_app in Hend, Hsub.
    pose proof (len_enc_slot x Hx) as Hlx.
    pose proof (len_nonneg (enc_slots xs)) as Hlxs.
    apply slot_at in Hsub as [Hrest Hhead]; [|lia|done].
    destruct fuel as [|fuel]; [lia|]. rewrite empty1_loop_eq.
    replace (total - 16 <? 0) with false by lia.
    replace (i <? total - 16) with true by lia. cbn [negb].
    destruct x as [v|]; simpl in Hhead, Hlx, Hend, Hrest.
    + destruct Hhead as [Hb Hv]. simpl in Hx. rewrite Hb.
      rewrite len_enc_value in Hend, Hrest.
      replace (len v =? 0) with false by lia. simpl first_gap.
      replace (i + len v + 1) with (i + 1 + len v) by lia.
      apply IH; try done; try lia.
      by replace (o + (i + 1 + len v)) with (o + i + (1 + len v)) by lia.
    + rewrite Hhead. cbn [Z.eqb]. change (len [x00]) with 1 in *.
      simpl first_gap.
      rewrite (empty1_loop_tombs m o total i Ho Hm xs (i + 1)); try done; try lia.
      by replace (o + (i + 1)) with (o + i + 1) by lia.
Qed.

(** [empty1] on a record the mapping holds. *)
Lemma empty1_holds s o r :
  holds (bytesAddr s) o r → len (bytesAddr s) < 2 ^ 63 →
  empty1 s o =
    match record_gap r with
    | None => Ret (o, r_next r, 0, 0, false)
    | Some (start, end_) =>
        Ret (o, if end_ =? r_total r - 16 then r_next r else 0, start, end_, true)
    end.
Proof.
  intros H Hm. unfold empty1.
  pose proof (r_total_pos r) as Ht.
  pose proof (holds_parts _ o r H) as (_ & _ & Harea & _).
  rewrite (total_holds _ o r H Hm), (scan_start_holds _ o r H), (next_holds _ o r H).
  destruct H as (Ho & Hfit & _ & Hkey & Hslots & _).
  rewrite !in_slice_true by lia.
  replace (8 <? r_total r) with true by lia. cbn [negb].
  pose proof (len_nonneg (r_key r)).
  rewrite (empty1_loop_slots _ o (r_total r) Ho Hfit (r_slots r)); try done;
    [|lia|unfold r_total; lia].
  unfold record_gap. destruct (first_gap (r_slots r) (8 + 1 + len (r_key r))) as [[a b]|];
    [|done].
  destruct (b =? r_total r - 16) eqn:E; [|done].
  apply Z.eqb_eq in E. subst b. done.
Qed.

(** [empty] on a chain: the first record with a gap, and its first gap. *)
Lemma empty_chain s bound :
  len (bytesAddr s) < 2 ^ 63 →
  ∀ rs o fuel,
    chain (bytesAddr s) bound o rs → (length rs ≤ fuel)%nat →
    empty fuel s o = Ret (chain_gap o rs).
Proof.
  intros Hm. induction rs as [|r rs IH]; intros o fuel H Hfuel; [done|].
  destruct fuel as [|fuel]; [simpl in Hfuel; lia|].
  destruct H as [Hr H]. cbn [empty chain_gap].
  rewrite (empty1_holds s o r Hr Hm).
  destruct (record_gap r) as [[a b]|].
  - by rewrite orb_true_r.
  - destruct rs as [|r' rs'].
    + destruct H as [-> _]. done.
    + destruct H as (Hne & _ & Hrest).
      replace (r_next r =? 0) with false by lia. cbn [orb].
      apply IH; [done|simpl in *; lia].
Qed.

(** ** Appending a record to a chain *)

Lemma len_r_bytes r : len (r_bytes r) = r_total r.
Proof.
  unfold r_bytes, enc_record, r_total.
  rewrite len_app, len_cons, !len_app, !len_be64. lia.
Qed.

Lemma enc_slots_Live values : enc_slots (map Live values) = enc_values values.
Proof.
  induction values as [|v vs IH]; [done|].
  simpl. rewrite enc_slots_cons, enc_values_cons, IH. done.
Qed.

Lemma live_values_Live values : live_values (map Live values) = values.
Proof. induction values as [|v vs IH]; [done|]. simpl. by rewrite IH. Qed.

Lemma holds_frame m m' o r :
  holds m o r → len m' = len m →
  sub m' o (r_total r) = sub m o (r_total r) → holds m' o r.
Proof.
  intros (Ho & Hfit & Hsub & Hok) Hl Hs.
  split; [done|]. split; [lia|]. split; [congruence|done].
Qed.

(** Writing the [next] field of a record. *)
Lemma holds_set_next m o r next :
  holds m o r → 0 ≤ next < 2 ^ 63 →
  holds (blit m (o + r_total r - 8) (be64 next)) o (set_next r next).
Proof.
  intros (Ho & Hfit & Hsub & Hkey & Hslots & _) Hnext.
  pose proof (r_total_pos r) as Ht.
  unfold holds. change (r_total (set_next r next)) with (r_total r).
  split; [done|]. split; [by rewrite len_blit|].
  split; [|by (split; [|split])].
  set (X := be64 (r_total r) ++ z2b (len (r_key r)) :: r_key r
            ++ enc_slots (r_slots r) ++ be64 (r_self_end r)).
  assert (EX : ∀ n, enc_record (r_key r) (enc_slots (r_slots r)) (r_self_end r) n
                   = X ++ be64 n).
  { intros n. unfold X, enc_record.
    rewrite <- app_assoc, <- app_comm_cons, <- !app_assoc. done. }
  assert (HX : len X = r_total r - 8).
  { unfold X, r_total. rewrite len_app, len_cons, !len_app, !len_be64. lia. }
  unfold r_bytes in *. cbn [set_next r_key r_slots r_self_end r_next].
  rewrite EX in *.
  replace (r_total r) with (len X + len (be64 (r_next r))) in Hsub
    by (rewrite len_be64; lia).
  apply sub_app_inv in Hsub as [HsubX _]; [|done].
  replace (sub (blit m (o + r_total r - 8) (be64 next)) o (r_total r))
    with (sub (blit m (o + r_total r - 8) (be64 next)) o (len X + 8))
    by (f_equal; lia).
  rewrite sub_add by lia. f_equal.
  - rewrite sub_blit_outside by lia. done.
  - replace (o + r_total r - 8) with (o + len X) by lia.
    pose proof (sub_blit_inside m (o + len X) (be64 next)) as E.
    rewrite len_be64 in E. apply E; lia.
Qed.

Lemma tail_link_range m bound : ∀ rs o,
  chain m bound o rs → o ≤ tail_link o rs ∧ tail_link o rs + 8 ≤ bound.
Proof.
  induction rs as [|r rs IH]; intros o H; [done|].
  destruct H as [Hr H]. pose proof (r_total_pos r).
  destruct rs as [|r' rs'].
  - simpl. lia.
  - destruct H as (_ & Hnext & Hrest). apply IH in Hrest.
    change (tail_link o (r :: r' :: rs')) with (tail_link (r_next r) (r' :: rs')). lia.
Qed.

Lemma chain_cons m bound o r rest :
  holds m o r → rest ≠ [] → r_next r ≠ 0 → o + r_total r ≤ r_next r →
  chain m bound (r_next r) rest → chain m bound o (r :: rest).
Proof.
  intros Hr Hne Hn Hord Hrest. destruct rest; [done|].
  split; [done|]. split; [done|]. by split.
Qed.

Lemma relink_nonempty rs next : rs ≠ [] → relink rs next ≠ [].
Proof. destruct rs as [|r [|r' rs']]; done. Qed.

Lemma chain_values_relink rs next : chain_values (relink rs next) = chain_values rs.
Proof.
  induction rs as [|r rs IH]; [done|].
  destruct rs as [|r' rs']; [done|].
  change (relink (r :: r' :: rs') next) with (r :: relink (r' :: rs') next).
  unfold chain_values in *. simpl in *. by rewrite IH.
Qed.

Lemma chain_values_snoc rs r :
  chain_values (rs ++ [r]) = chain_values rs ++ live_values (r_slots r).
Proof.
  unfold chain_values. rewrite map_app, concat_app. simpl. by rewrite app_nil_r.
Qed.

(** A chain whose tail is linked to a new record at [bound]. [m1] is the
    array after the new record has been written, [p] the [next] field of
    the old tail. *)
Lemma chain_append m m1 bound bound' rnew :
  len m1 = len m →
  (∀ lo n, 0 ≤ lo → lo + n ≤ bound → sub m1 lo n = sub m lo n) →
  holds m1 bound rnew → r_next rnew = 0 → bound + r_total rnew ≤ bound' →
  0 < bound < 2 ^ 63 →
  ∀ rs o p,
    chain m bound o rs → p = tail_link o rs →
    chain (blit m1 p (be64 bound)) bound' o (relink rs bound ++ [rnew]).
Proof.
  intros Hlen Hframe Hnew Hnext Hfit Hbound.
  induction rs as [|r rs IH]; intros o p H ->; [done|].
  pose proof (tail_link_range _ _ _ _ H) as [Hp1 Hp2].
  destruct H as [Hr H]. pose proof (r_total_pos r) as Ht.
  assert (Hr1 : holds m1 o r).
  { destruct rs as [|r' rs'].
    - apply (holds_frame m); [done..|]. apply Hframe; [by destruct Hr|lia].
    - destruct H as (_ & ? & Hrest). apply chain_below in Hrest.
      apply (holds_frame m); [done..|]. apply Hframe; [by destruct Hr|lia]. }
  destruct rs as [|r' rs'].
  - destruct H as [Hn Hend]. simpl relink. simpl tail_link.
    change ([set_next r bound] ++ [rnew]) with [set_next r bound; rnew].
    cbn [chain]. change (r_next (set_next r bound)) with bound.
    change (r_total (set_next r bound)) with (r_total r).
    split; [by apply holds_set_next; [|lia]|].
    split; [lia|]. split; [done|].
    split; [|done].
    apply (holds_frame m1); [done|by rewrite len_blit|].
    apply sub_blit_outside; [by destruct Hnew|by destruct Hr1; lia|].
    rewrite len_be64. lia.
  - destruct H as (Hne & Hord & Hrest).
    change (relink (r :: r' :: rs') bound) with (r :: relink (r' :: rs') bound).
    change (tail_link o (r :: r' :: rs')) with (tail_link (r_next r) (r' :: rs')) in *.
    pose proof (tail_link_range _ _ _ _ Hrest) as [Hq1 Hq2].
    rewrite <- app_comm_cons. apply chain_cons.
    + apply (holds_frame m1); [done|by rewrite len_blit|].
      apply sub_blit_outside; [by destruct Hr1|by destruct Hr1; lia|lia].
    + intros E. apply app_eq_nil in E as [_ E]. done.
    + done.
    + done.
    + by apply IH.
Qed.

(** The record [add] builds for [key] and [values] when the engine is [s]. *)
Lemma new_record_holds m bound key values :
  0 ≤ bound → len key ≤ 246 →
  Forall (λ v, 1 ≤ len v ≤ 255) values →
  bound + (8 + 1 + len key + len (enc_values values) + 16) ≤ len m →
  holds (blit m bound
           (enc_record key (enc_values values)
              (8 + 1 + len key + len (enc_values values) + 16 + bound) 0))
        bound
        (mkRecord key (map Live values)
           (8 + 1 + len key + len (enc_values values) + 16 + bound) 0).
Proof.
  intros Hb Hkey Hvals Hfit.
  set (r := mkRecord key (map Live values)
              (8 + 1 + len key + len (enc_values values) + 16 + bound) 0).
  assert (Et : r_total r = 8 + 1 + len key + len (enc_values values) + 16).
  { unfold r_total, r. simpl. by rewrite enc_slots_Live. }
  assert (Eb : r_bytes r = enc_record key (enc_values values)
                 (8 + 1 + len key + len (enc_values values) + 16 + bound) 0).
  { unfold r_bytes, r. simpl. by rewrite enc_slots_Live. }
  rewrite <- Eb. split; [done|]. rewrite len_blit. split; [lia|]. split.
  - rewrite <- len_r_bytes. apply sub_blit_inside; [done|]. rewrite len_r_bytes. lia.
  - split; [done|]. split; [|done]. simpl.
    apply Forall_map. eapply Forall_impl; [exact Hvals|]. done.
Qed.

Section Append.

Variable growcap : Z → Z → Z.

(** A successful [Add] that appends a record extends the chain of its key
    by that record, behind the old tail. *)
Lemma adds_extends_chain fuel s key values w head rs s' :
  len (bytesAddr s) < 2 ^ 63 → f_pos s = offset s →
  keyMap s !! key = Some head → head ≠ notExist →
  chain (bytesAddr s) (offset s) head rs → (length rs ≤ fuel)%nat →
  len key ≤ 246 → Forall (λ v, 1 ≤ len v) values →
  offset s + (8 + 1 + len key + len (enc_values values) + 16) ≤ len (bytesAddr s) →
  adds growcap fuel s key values w = (Ret None, s') → offset s' ≠ offset s →
  len (bytesAddr s') = len (bytesAddr s)
  ∧ keyMap s' !! key = Some head
  ∧ ∃ rnew, live_values (r_slots rnew) = values
      ∧ chain (bytesAddr s') (offset s') head (relink rs (offset s) ++ [rnew]).
Proof.
  intros Hm Hpos Hk Hhead Hchain Hfuel Hkey Hvals Hfit H Hoff.
  apply adds_cases in H
    as [[-> _]|[(o & o' & start & value & _ & _ & _ & H)|(b8 & H & Hb8)]]; [done| |].
  { apply adds_reuse_cases in H as [[-> _]|(_ & m & ->)]; done. }
  destruct Hb8 as [[_ [Hk'|Hk']]|(o & Hk' & _ & Hb8)]; [congruence|congruence|].
  assert (o = head) as -> by congruence.
  rewrite (getB8byOffset_chain s Hm rs head fuel Hchain Hfuel) in Hb8.
  injection Hb8 as <-.
  destruct (add growcap s (Some (tail_link head rs)) key values w) as [r1 s1] eqn:Ea.
  assert (s1 = s' ∧ ∃ n, r1 = Ret (n, None)) as [-> [n ->]].
  { destruct r1 as [[n [e|]]| |]; simpl in H; inversion H; eauto. }
  apply add_cases in Ea
    as [[-> _]|[(b & total & e & _ & _ & ?)|(b & total & s1 & Hrec & Hw & _ & ->)]];
    [done|done|].
  destruct w; [|done]. simpl in Hw. injection Hw as <-.
  apply add_record_spec in Hrec as (H255 & -> & ->); [|lia].
  unfold publish, link. cbn [bytesAddr offset keyMap f_pos]. rewrite Hk.
  replace (head =? notExist) with false by lia.
  pose proof (chain_below _ _ _ _ Hchain) as Hbelow.
  assert (Hhead0 : 0 ≤ head) by (destruct rs; [done|]; by destruct Hchain as [[? _] _]).
  pose proof (len_nonneg key). pose proof (len_nonneg (enc_values values)).
  split; [by rewrite !len_blit|]. split; [done|].
  exists (mkRecord key (map Live values)
            (8 + 1 + len key + len (enc_values values) + 16 + offset s) 0).
  split; [|eapply (chain_append (bytesAddr s) _ (offset s)); try done].
  - cbn [r_slots]. apply live_values_Live.
  - apply len_blit.
  - intros lo k Hlo Hlok. rewrite Hpos. apply sub_blit_outside; [done|lia|lia].
  - rewrite Hpos. apply new_record_holds; [lia|done| |done].
    rewrite Forall_forall in *. intros v Hv. split; [by apply Hvals|by apply H255].
  - unfold r_total. cbn [r_key r_slots]. rewrite enc_slots_Live. lia.
  - lia.
Qed.

End Append.

(** * The claims *)

(** C1 (round trip on a fresh key) fails in the code for keys of 247 to 255
    bytes. With a key of 247 bytes and the single value ["a"], [Add] on a
    fresh engine succeeds, and [Get] then returns three values: the low byte
    of [total], the key itself, and ["a"]. The scan starts at
    [int(b[8] + 1 + 8)], a [uint8] sum that wraps to 0. *)
Theorem C1_roundtrip_fails_for_key_of_247_bytes (growcap : Z → Z → Z) :
  keyMap fresh !! key247 = None
  ∧ fst (Add growcap 8 fresh key247 [str "a"] WriteAll) = Ret None
  ∧ Get 8 (snd (Add growcap 8 fresh key247 [str "a"] WriteAll)) key247
    = Ret [[x12]; key247; str "a"].
Proof. vm_compute. done. Qed.

(** C2 (Del never fails; a key holding the sentinel is treated like an absent
    key) fails in the code: after [Exist] has returned [false] for a key,
    [Del] on that key with a value panics, because [dels] slices
    [bytesAddr] at the sentinel offset -1. [Get] on the same key returns
    normally. *)
Theorem C2_Del_panics_on_sentinel_key :
  fst (Exist fresh key_u) = false
  ∧ keyMap (snd (Exist fresh key_u)) !! key_u = Some notExist
  ∧ fst (Del 8 (snd (Exist fresh key_u)) key_u [str "v"]) = Panic
  ∧ Get 8 (snd (Exist fresh key_u)) key_u = Ret [].
Proof. vm_compute. done. Qed.

(** C3, as stated, is false: after [Add(u, "a", "bb", "cccc")] and
    [Del(u, "a", "cccc")] the record of ["u"] has a gap of five bytes behind
    ["bb"], usable for a payload of two bytes, but [Add(u, "xx")] appends a
    new record: only the first gap, of two bytes, was looked at. *)
Lemma C3_append_despite_usable_gap :
  let s := after [OAdd key_u [str "a"; str "bb"; str "cccc"] WriteAll;
                  ODel key_u [str "a"; str "cccc"]] in
  let r := Add double_cap 8 s key_u [str "xx"] WriteAll in
  keyMap s !! key_u = Some 0
  ∧ usable_gap (bytesAddr s) 0 (len (str "xx")) 15 20 = true
  ∧ fst r = Ret None
  ∧ offset s = 36 ∧ offset (snd r) = 65
  ∧ sub (bytesAddr (snd r)) 0 20 = sub (bytesAddr s) 0 20
  ∧ Get 8 (snd r) key_u = Ret [str "bb"; str "xx"].
Proof. vm_compute. done. Qed.

(** C4 (a value with [|v| = end - start - 1] is written in place into the
    gap) fails in the code when the gap lies in a later record that is
    longer than the head record: [adds] reads [total] at the head offset and
    slices the chosen record with it. Here the head record has 28 bytes, the
    gap [10, 29) is in the record at 28, and the 18 bytes of the value are
    cut to 17; [Get] returns them followed by a zero byte. With a gap that
    starts behind byte 28 of the later record, the same call panics. *)
Theorem C4_reuse_truncates_in_longer_record :
  let v := replicate 18 "b"%byte in
  let w := replicate 18 "c"%byte in
  let s := after [OAdd key_u [str "a"] WriteAll; OAdd key_u [v] WriteAll;
                  ODel key_u [v]] in
  let r := Add double_cap 8 s key_u [w] WriteAll in
  empty 8 s 0 = Ret (28, 10, 29, true)
  ∧ len w = 29 - 10 - 1
  ∧ fst r = Ret None
  ∧ offset (snd r) = offset s
  ∧ Get 8 (snd r) key_u = Ret [str "a"; replicate 17 "c"%byte ++ [x00]]
  ∧ (let s' := after [OAdd key_u [str "a"] WriteAll;
                      OAdd key_u [replicate 20 "x"%byte; str "yy"] WriteAll;
                      ODel key_u [str "yy"]] in
     empty 8 s' 0 = Ret (28, 31, 34, true)
     ∧ fst (Add double_cap 8 s' key_u [str "zz"] WriteAll) = Panic).
Proof. vm_compute. done. Qed.


(** C6, as stated, is false: [Add(u, "a", v)] with [v] of 256 bytes reports
    [ValueTooLarge] and nothing has been appended; [Get] does not return
    ["a"]. *)
Lemma C6_nothing_appended :
  let r := Add double_cap 8 fresh key_u [str "a"; big256] WriteAll in
  fst r = Ret (Some ValueTooLarge)
  ∧ snd r = fresh
  ∧ Get 8 (snd r) key_u = Ret [].
Proof. vm_compute. done. Qed.

(** C7, as stated, is false: a later [Add] that reuses a gap of an older
    record is observed before the values of an earlier [Add] that was
    appended. A = [Add(u, "ccc")], B = [Add(u, "d")]. *)
Lemma C7_reuse_precedes_earlier_add :
  Get 8 (after [OAdd key_u [str "a"; str "bb"] WriteAll; ODel key_u [str "a"];
                OAdd key_u [str "ccc"] WriteAll; OAdd key_u [str "d"] WriteAll])
        key_u
  = Ret [str "d"; str "bb"; str "ccc"].
Proof. vm_compute. done. Qed.

(** C9 (every [next] is 0 or greater than the offset of its record) fails in
    the code. The key has 254 bytes, so the scan of its record starts at
    [int(b[8] + 1 + 8) = 7] and reads the header as slots; the second of
    them covers the rest of the key, the value, [self_end] and seven of the
    eight bytes of [next]. [Del] of that value returns normally and leaves
    the head record at 282 with [next = 51]. *)
Theorem C9_next_points_backwards :
  let s := after [OAdd (str "f") [replicate 255 x00] WriteAll;
                  OAdd key254 [str "a"] WriteAll;
                  OAdd key254 [str "b"; str "c"] WriteAll] in
  let r := Del 8 s key254 [junk246] in
  keyMap s !! key254 = Some 282
  ∧ b8 s 282 = Ret (563, Some 555)
  ∧ fst r = Ret tt
  ∧ keyMap (snd r) !! key254 = Some 282
  ∧ offset (snd r) = 846
  ∧ b8 (snd r) 282 = Ret (51, Some 555).
Proof. vm_compute. done. Qed.



(** C6, amended. When [Add] reports [ValueTooLarge], nothing has been
    appended: the engine (mapped bytes, index, [offset], file position) is
    the one before the call, and every [Get] returns what it returned
    before; the values that precede the offending one are not stored. *)
Theorem C6_too_large_leaves_state (growcap : Z → Z → Z) fuel s key values w s' :
  adds growcap fuel s key values w = (Ret (Some ValueTooLarge), s') →
  s' = s ∧ ∀ k, gets fuel s' k = gets fuel s k.
Proof.
  intros H. assert (s' = s) as ->; [|done].
  apply adds_cases in H as [[-> _]|[(o & o' & start & value & _ & _ & _ & H)|(b8 & H & _)]].
  - done.
  - by apply adds_reuse_cases in H as [[_ ?]|[? _]].
  - destruct (add growcap s b8 key values w) as [[[n e]| |] s1] eqn:E;
      simpl in H; inversion H; subst.
    by apply add_too_large_inv in E.
Qed.

Lemma C6_witness :
  snd (adds double_cap 8 fresh key_u [str "a"; big256] WriteAll) = fresh
  ∧ ∀ k, gets 8 (snd (adds double_cap 8 fresh key_u [str "a"; big256] WriteAll)) k
         = gets 8 fresh k.
Proof.
  apply (C6_too_large_leaves_state double_cap 8 fresh key_u [str "a"; big256] WriteAll).
  by vm_compute.
Defined.

(** C8 fails in the code: the bytes of a failed write are referenced. After
    [Add(u, "a")], [Add(u, "b")] whose [f.Write] stores only 12 of the 28
    bytes of the record reports the I/O error, leaves [offset] at 28 and the
    index and the chain as they were; but the file handle is at 40. The next
    [Add(u, "c")] succeeds: [f.Write] puts its record at 40, while [add]
    links the tail to [offset] = 28 and moves [offset] to 56. The chain now
    runs through the failed bytes: the record read at 28 yields the value
    ["b"] of the failed call and a [next] field taken from the middle of the
    record of ["c"], and [Get(u)] panics. *)
Lemma C8_failed_bytes_are_referenced :
  let s1 := after [OAdd key_u [str "a"] WriteAll] in
  let r2 := Add double_cap 8 s1 key_u [str "b"] (WriteShort 12) in
  let r3 := Add double_cap 8 (snd r2) key_u [str "c"] WriteAll in
  fst r2 = Ret (Some IoError)
  ∧ offset (snd r2) = 28 ∧ f_pos (snd r2) = 40
  ∧ keyMap (snd r2) !! key_u = Some 0
  ∧ sub (bytesAddr (snd r2)) 0 28 = sub (bytesAddr s1) 0 28
  ∧ Get 8 (snd r2) key_u = Ret [str "a"]
  ∧ fst r3 = Ret None
  ∧ offset (snd r3) = 56 ∧ f_pos (snd r3) = 68
  ∧ get (snd r3) 0 = Ret ([str "a"], 28)
  ∧ get (snd r3) 28 = Ret ([str "b"], 104991691026464768)
  ∧ Get 8 (snd r3) key_u = Panic.
Proof. vm_compute. done. Qed.

(** C10. Once the index maps a key to a real head offset (not the sentinel),
    no sequence of Add, Del, DelByPrefix, Update, Get and Exist calls changes
    the entry of that key, whatever the calls return (success, error, panic,
    or a walk that does not end within the fuel). *)
Theorem C10_index_entry_stable (growcap : Z → Z → Z) fuel cs s k o :
  keyMap s !! k = Some o → o ≠ notExist →
  keyMap (run growcap fuel s cs) !! k = Some o.
Proof. intros Hk Ho. by apply run_keeps. Qed.

Lemma C10_witness :
  keyMap (run double_cap 8 (after [OAdd key_u [str "a"; str "b"] WriteAll])
            [ODel key_u [str "a"]; OExist key_u; OAdd key_u [str "c"] WriteAll;
             OUpdate key_u [str "d"; str "e"] WriteAll; ODelByPrefix key_u [str "d"];
             OAdd key_u [big256; big256] WriteAll; OGet key_u])
    !! key_u = Some 0.
Proof.
  apply (C10_index_entry_stable double_cap 8).
  - by vm_compute.
  - discriminate.
Defined.

(** X9 (C7, amended). When an [Add] B on a key returns success and has
    moved [offset] (it appended a record, it did not reuse a gap), [Get]
    afterwards returns what it returned before B, followed by the values of
    B in order: the values of every earlier [Add] A on the key come before
    all values of B. The engine is one whose mapping holds the chain [rs]
    of the key, with the file handle at [offset]; the key has at most 246
    bytes, the values are not empty and the new record fits the mapping
    behind [offset]. (A single-value B that reuses a gap in an older record
    is read at the place of the gap.)
    The chain is well formed ([chain]): every record lies in front of
    [offset] and is laid out as [add] writes it, with a record key of at
    most 246 bytes, a value area of slots of 1 to 255 bytes and tombstone
    bytes, and a [next] field that is 0 in the tail and otherwise the
    offset of the next record, which lies behind it. The index entry of
    the key is a real offset, the mapping is shorter than 2^63 bytes and
    the walks have more steps than the chain has records. *)
Theorem C7_append_keeps_order (growcap : Z → Z → Z) fuel s key values w head rs s' :
  len (bytesAddr s) < 2 ^ 63 → f_pos s = offset s →
  keyMap s !! key = Some head → head ≠ notExist →
  chain (bytesAddr s) (offset s) head rs → (length rs < fuel)%nat →
  len key ≤ 246 → Forall (λ v, 1 ≤ len v) values →
  offset s + (8 + 1 + len key + len (enc_values values) + 16) ≤ len (bytesAddr s) →
  adds growcap fuel s key values w = (Ret None, s') → offset s' ≠ offset s →
  gets fuel s key = Ret (chain_values rs)
  ∧ gets fuel s' key = Ret (chain_values rs ++ values).
Proof.
  intros Hm Hpos Hk Hhead Hchain Hfuel Hkey Hvals Hfit H Hoff.
  split; [apply (gets_chain fuel s key head rs); (done || lia)|].
  destruct (adds_extends_chain growcap fuel s key values w head rs s')
    as (Hlen & Hk' & rnew & Hlive & Hchain'); try done; [lia|].
  rewrite (gets_chain fuel s' key head (relink rs (offset s) ++ [rnew])); try done.
  - by rewrite chain_values_snoc, chain_values_relink, Hlive.
  - lia.
  - rewrite length_app. simpl.
    assert (length (relink rs (offset s)) = length rs); [|lia].
    clear. induction rs as [|r [|r' rs'] IH]; [done|done|].
    change (relink (r :: r' :: rs') (offset s)) with (r :: relink (r' :: rs') (offset s)).
    simpl in *. by rewrite IH.
Qed.

Lemma C7_witness :
  let s := after [OAdd key_u [str "a"; str "bb"] WriteAll; ODel key_u [str "a"];
                  OAdd key_u [str "ccc"] WriteAll] in
  let s' := snd (adds double_cap 8 s key_u [str "dd"; str "e"] WriteAll) in
  gets 8 s key_u = Ret [str "bb"; str "ccc"]
  ∧ gets 8 s' key_u = Ret [str "bb"; str "ccc"; str "dd"; str "e"].
Proof.
  intros s s'.
  apply (C7_append_keeps_order double_cap 8 s key_u [str "dd"; str "e"] WriteAll 0
           [mkRecord key_u [Tomb; Tomb; Live (str "bb")] 31 31;
            mkRecord key_u [Live (str "ccc")] 61 0] s').
  - by vm_compute.
  - by vm_compute.
  - by vm_compute.
  - discriminate.
  - cbn [chain]. unfold holds, record_ok.
    repeat split; try (by vm_compute).
    + repeat constructor; by vm_compute.
    + repeat constructor; by vm_compute.
  - simpl. lia.
  - by vm_compute.
  - repeat constructor; by vm_compute.
  - by vm_compute.
  - by vm_compute.
  - by vm_compute.
Defined.

(** X8 (C3, amended). For a single-value [Add(k, v)] on a key whose chain
    the mapping holds, the scan stops at the first record, head to tail,
    that has any tombstone byte between its slots, whatever the length of
    that gap, and looks at the first gap [start, end) of that record only.
    When [|v| < end - start] the call is the in-place write at that record
    and [offset] stays; otherwise - also when no record has a gap - the
    call is [add] with the [next] field of the tail, whether or not a later
    gap or a later record could hold the value.
    The chain is well formed ([chain]): every record lies in front of
    [offset] and is laid out as [add] writes it, with a record key of at
    most 246 bytes, a value area of slots of 1 to 255 bytes and tombstone
    bytes, and a [next] field that is 0 in the tail and otherwise the
    offset of the next record, which lies behind it. The index entry of
    the key is a real offset, the mapping is shorter than 2^63 bytes and
    the walks have at least one step per record. *)
Theorem C3_first_gap_only (growcap : Z → Z → Z) fuel s key v w head rs :
  len (bytesAddr s) < 2 ^ 63 →
  keyMap s !! key = Some head → head ≠ notExist →
  chain (bytesAddr s) (offset s) head rs → (length rs ≤ fuel)%nat →
  let '(o', start, end_, t) := chain_gap head rs in
  empty fuel s head = Ret (o', start, end_, t)
  ∧ (t = true → len v < end_ - start →
     adds growcap fuel s key [v] w = adds_reuse s head o' start v
     ∧ offset (snd (adds growcap fuel s key [v] w)) = offset s)
  ∧ (t = false ∨ end_ - start ≤ len v →
     adds growcap fuel s key [v] w
     = only_err (add growcap s (Some (tail_link head rs)) key [v] w)).
Proof.
  intros Hm Hk Hhead Hchain Hfuel.
  pose proof (empty_chain s (offset s) Hm rs head fuel Hchain Hfuel) as He.
  destruct (chain_gap head rs) as [[[o' start] end_] t].
  split; [done|].
  assert (Hadds : adds growcap fuel s key [v] w =
            if t && (len v <? end_ - start) then adds_reuse s head o' start v
            else adds_append growcap fuel s head key [v] w).
  { unfold adds. change (len [v] =? 0) with false. cbv iota.
    rewrite Hk. replace (head =? notExist) with false by lia. by rewrite He. }
  split.
  - intros -> Hfit. rewrite Hadds.
    replace (len v <? end_ - start) with true by lia. cbn [andb].
    split; [done|].
    destruct (adds_reuse s head o' start v) as [r s'] eqn:E.
    by apply adds_reuse_cases in E as [[-> _]|(_ & m & ->)].
  - intros Hno. rewrite Hadds.
    replace (t && (len v <? end_ - start)) with false
      by (destruct Hno as [->|Hno]; [done|]; rewrite andb_comm;
          by replace (len v <? end_ - start) with false by lia).
    unfold adds_append.
    by rewrite (getB8byOffset_chain s Hm rs head fuel Hchain Hfuel).
Qed.

Lemma C3_witness :
  let s := after [OAdd key_u [str "a"; str "bb"; str "cccc"] WriteAll;
                  ODel key_u [str "a"; str "cccc"]] in
  empty 8 s 0 = Ret (0, 10, 12, true)
  ∧ adds double_cap 8 s key_u [str "xx"] WriteAll
    = only_err (add double_cap s (Some 28) key_u [str "xx"] WriteAll)
  ∧ adds double_cap 8 s key_u [str "x"] WriteAll
    = adds_reuse s 0 0 10 (str "x").
Proof.
  intros s.
  assert (Hc : chain (bytesAddr s) (offset s) 0
                 [mkRecord key_u [Tomb; Tomb; Live (str "bb"); Tomb; Tomb; Tomb; Tomb; Tomb]
                    36 0]).
  { cbn [chain]. unfold holds, record_ok.
    split; [|split; by vm_compute].
    split; [by vm_compute|]. split; [by vm_compute|]. split; [by vm_compute|].
    split; [by vm_compute|]. split; [|by vm_compute].
    repeat (apply Forall_cons; split; [by vm_compute|]). constructor. }
  assert (Hf : (length [mkRecord key_u
                   [Tomb; Tomb; Live (str "bb"); Tomb; Tomb; Tomb; Tomb; Tomb] 36 0]
                ≤ 8)%nat) by (simpl; lia).
  assert (Hm : len (bytesAddr s) < 2 ^ 63) by (vm_compute; reflexivity).
  assert (Hk : keyMap s !! key_u = Some 0) by (vm_compute; reflexivity).
  assert (Hh : 0 ≠ notExist) by discriminate.
  pose proof (C3_first_gap_only double_cap 8 s key_u (str "xx") WriteAll 0 _
                Hm Hk Hh Hc Hf) as (He & _ & Happ).
  pose proof (C3_first_gap_only double_cap 8 s key_u (str "x") WriteAll 0 _
                Hm Hk Hh Hc Hf) as (_ & Hreuse & _).
  split; [exact He|]. split.
  - apply Happ. right. vm_compute. discriminate.
  - apply Hreuse; [reflexivity|vm_compute; reflexivity].
Defined.

(** * Further properties of the engine *)

(** ** Round trips *)

(** X1. [bigUint64] decodes what [binary.BigEndian.PutUint64] stores, for every
    value of a non-negative [int]. *)
Theorem X_bigUint64_reads_PutUint64 v :
  0 ≤ v < 2 ^ 63 → len (be64 v) = 8 ∧ bigUint64 (be64 v) = v.
Proof. intros Hv. split; [done|by apply bigUint64_be64]. Qed.

Lemma X_bigUint64_reads_PutUint64_witness :
  len (be64 1234567890123) = 8 ∧ bigUint64 (be64 1234567890123) = 1234567890123.
Proof. apply X_bigUint64_reads_PutUint64. lia. Defined.

Section FreshKey.

Variable growcap : Z → Z → Z.

(** A successful [adds] on a key without a real index entry. *)
Lemma adds_fresh_roundtrip fuel s key values w s' :
  len (bytesAddr s) < 2 ^ 63 → f_pos s = offset s → 0 ≤ offset s →
  keyMap s !! key = None ∨ keyMap s !! key = Some notExist →
  len key ≤ 246 → values ≠ [] → Forall (λ v, 1 ≤ len v) values →
  offset s + (8 + 1 + len key + len (enc_values values) + 16) ≤ len (bytesAddr s) →
  (1 ≤ fuel)%nat →
  adds growcap fuel s key values w = (Ret None, s') →
  keyMap s' !! key = Some (offset s)
  ∧ offset s' = offset s + (8 + 1 + len key + len (enc_values values) + 16)
  ∧ gets fuel s' key = Ret values.
Proof.
  intros Hm Hpos Hoff Hfresh Hkey Hne Hvals Hfit Hfuel H.
  apply adds_cases in H
    as [[-> [[? _]|[?|?]]]|[(o & o' & start & value & _ & Hk & Ho & _)|(b8 & H & Hb8)]];
    try done.
  { destruct Hfresh; congruence. }
  destruct Hb8 as [[-> _]|(o & Hk & Ho & _)]; [|destruct Hfresh; congruence].
  destruct (add growcap s None key values w) as [r1 s1] eqn:Ea.
  assert (s1 = s' ∧ ∃ n, r1 = Ret (n, None)) as [-> [n ->]].
  { destruct r1 as [[n [e|]]| |]; simpl in H; inversion H; eauto. }
  apply add_cases in Ea
    as [[-> [?|[?|?]]]|[(b & total & e & _ & _ & ?)|(b & total & s1 & Hrec & Hw & _ & ->)]];
    try done.
  destruct w; [|done]. simpl in Hw. injection Hw as <-.
  apply add_record_spec in Hrec as (H255 & -> & ->); [|lia].
  unfold publish, link. cbn [bytesAddr offset keyMap f_pos].
  pose proof (len_nonneg key). pose proof (len_nonneg (enc_values values)).
  assert (Hpub : (match keyMap s !! key with
                  | Some i => if i =? notExist then <[key:=offset s]> (keyMap s)
                              else keyMap s
                  | None => <[key:=offset s]> (keyMap s)
                  end) !! key = Some (offset s)).
  { destruct Hfresh as [->| ->]; [|change (notExist =? notExist) with true; cbv iota];
      apply lookup_insert_eq. }
  split; [done|]. split; [done|].
  set (rnew := mkRecord key (map Live values)
                 (8 + 1 + len key + len (enc_values values) + 16 + offset s) 0).
  assert (Hholds : holds (blit (bytesAddr s) (f_pos s)
                      (enc_record key (enc_values values)
                         (8 + 1 + len key + len (enc_values values) + 16 + offset s) 0))
                    (offset s) rnew).
  { rewrite Hpos. apply new_record_holds; [done|done| |done].
    rewrite Forall_forall in *. intros v Hv. split; [by apply Hvals|by apply H255]. }
  set (s' := mkMsearch _ _ _ _).
  rewrite (gets_chain fuel s' key (offset s) [rnew]).
  - unfold chain_values. simpl. by rewrite app_nil_r, live_values_Live.
  - unfold s'. cbn [bytesAddr]. by rewrite len_blit.
  - done.
  - unfold notExist. lia.
  - unfold s'. cbn [chain bytesAddr offset]. split; [done|]. split; [done|].
    unfold r_total, rnew. cbn [r_key r_slots]. rewrite enc_slots_Live. lia.
  - simpl. lia.
Qed.

(** X2. [Add] on a key that is absent from the index, or holds the sentinel, and
    has at most 246 bytes: when it succeeds, the index maps the key to the
    old [offset], [offset] has grown by the length of the record, and [Get]
    returns exactly the values, in order. *)
Theorem X_roundtrip_fresh_key fuel s key values w s' :
  len (bytesAddr s) < 2 ^ 63 → f_pos s = offset s → 0 ≤ offset s →
  keyMap s !! key = None ∨ keyMap s !! key = Some notExist →
  len key ≤ 246 → values ≠ [] → Forall (λ v, 1 ≤ len v) values →
  offset s + (8 + 1 + len key + len (enc_values values) + 16) ≤ len (bytesAddr s) →
  (1 ≤ fuel)%nat →
  adds growcap fuel s key values w = (Ret None, s') →
  keyMap s' !! key = Some (offset s)
  ∧ offset s' = offset s + (8 + 1 + len key + len (enc_values values) + 16)
  ∧ gets fuel s' key = Ret values.
Proof. apply adds_fresh_roundtrip. Qed.

End FreshKey.

Lemma X_roundtrip_fresh_key_witness :
  let s := snd (Exist fresh key_u) in
  let vs := [str "alice"; str "bob"] in
  let s' := snd (adds double_cap 8 s key_u vs WriteAll) in
  keyMap s' !! key_u = Some (offset s)
  ∧ offset s' = offset s + (8 + 1 + len key_u + len (enc_values vs) + 16)
  ∧ gets 8 s' key_u = Ret vs.
Proof.
  intros s vs s'.
  apply (X_roundtrip_fresh_key double_cap 8 s key_u vs WriteAll s').
  - vm_compute; reflexivity.
  - vm_compute; reflexivity.
  - vm_compute; discriminate.
  - right. vm_compute; reflexivity.
  - vm_compute; discriminate.
  - discriminate.
  - repeat (apply Forall_cons; split; [vm_compute; discriminate|]). constructor.
  - vm_compute; discriminate.
  - lia.
  - vm_compute; reflexivity.
Defined.

(** ** More on byte arrays *)

Lemma blit_id m p (A : list byte) :
  0 ≤ p → p + len A ≤ len m → sub m p (len A) = A → blit m p A = m.
Proof.
  intros Hp Hfit Hsub. apply list_eq. intros i. rewrite lookup_blit.
  case_decide as Hi; [|done].
  apply (f_equal (λ l, l !! (i - Z.to_nat p)%nat)) in Hsub.
  rewrite lookup_sub in Hsub. unfold len in *.
  rewrite decide_True in Hsub by lia. rewrite <- Hsub. f_equal. lia.
Qed.

Lemma blit_blit_app m p (A B : list byte) :
  0 ≤ p → blit (blit m p A) (p + len A) B = blit m p (A ++ B).
Proof.
  intros Hp. apply list_eq. intros i. rewrite !lookup_blit, length_blit, length_app.
  unfold len. replace (Z.to_nat (p + Z.of_nat (length A))) with (Z.to_nat p + length A)%nat by lia.
  repeat case_decide; try lia.
  - rewrite lookup_app_r by lia. f_equal. lia.
  - rewrite lookup_app_l by lia. done.
  - done.
Qed.

Lemma sub_blit_within m o n k (bs : list byte) :
  0 ≤ o → 0 ≤ k → k + len bs ≤ n → o + n ≤ len m →
  sub (blit m (o + k) bs) o n = blit (sub m o n) k bs.
Proof.
  intros Ho Hk Hfit Hm. pose proof (len_nonneg bs) as Hbs.
  apply list_eq. intros i.
  rewrite lookup_sub, !lookup_blit, lookup_sub.
  rewrite length_sub by lia. unfold len in *.
  repeat case_decide; try lia; try done.
  f_equal. lia.
Qed.

(** [tombstone] zeroes the length byte and the payload it announces. *)
Lemma tombstone_blit m p :
  0 ≤ p → p + 1 + b2z (rd m p) ≤ len m →
  tombstone m p = blit m p (zeros (1 + b2z (rd m p))).
Proof.
  intros Hp Hfit. pose proof (b2z_range (rd m p)) as Hb.
  unfold tombstone. apply list_eq. intros i.
  rewrite list_lookup_insert, length_blit, !lookup_blit.
  unfold zeros. rewrite !length_replicate. unfold len in *.
  repeat case_decide; try lia.
  - destruct_and?. subst. rewrite lookup_replicate_2 by lia. done.
  - rewrite !lookup_replicate_2 by lia. done.
  - done.
Qed.

Lemma blit_nil m p : blit m p [] = m.
Proof.
  unfold blit. rewrite take_nil, Nat.add_0_r. simpl. apply take_drop.
Qed.

(** ** Deleting values *)

Lemma enc_slots_app xs ys : enc_slots (xs ++ ys) = enc_slots xs ++ enc_slots ys.
Proof. unfold enc_slots. by rewrite map_app, concat_app. Qed.

Lemma enc_slots_tombs n : enc_slots (replicate n Tomb) = replicate n x00.
Proof. induction n as [|n IH]; [done|]. simpl. rewrite enc_slots_cons, IH. done. Qed.

Lemma kill_slots_cons dead x xs :
  kill_slots dead (x :: xs) = kill_slot dead x ++ kill_slots dead xs.
Proof. done. Qed.

Lemma enc_kill_slot dead x :
  enc_slots (kill_slot dead x)
  = match x with
    | Live v => if dead v then zeros (1 + len v) else enc_value v
    | Tomb => [x00]
    end.
Proof.
  destruct x as [v|]; [|done]. unfold kill_slot. destruct (dead v).
  - rewrite enc_slots_tombs. unfold zeros, len. f_equal. lia.
  - unfold enc_slots. simpl. by rewrite app_nil_r.
Qed.

Lemma len_enc_kill_slot dead x :
  len (enc_slots (kill_slot dead x)) = len (enc_slot x).
Proof.
  rewrite enc_kill_slot. destruct x as [v|]; simpl; [|done].
  destruct (dead v); [|done]. pose proof (len_nonneg v).
  rewrite len_zeros, len_enc_value; lia.
Qed.

Lemma len_enc_kill dead xs :
  len (enc_slots (kill_slots dead xs)) = len (enc_slots xs).
Proof.
  induction xs as [|x xs IH]; [done|].
  rewrite kill_slots_cons, enc_slots_app, enc_slots_cons, !len_app, IH.
  by rewrite len_enc_kill_slot.
Qed.

Lemma live_values_app xs ys : live_values (xs ++ ys) = live_values xs ++ live_values ys.
Proof.
  induction xs as [|[v|] xs IH]; simpl; [done| |done]. by rewrite IH.
Qed.

Lemma live_values_tombs n : live_values (replicate n Tomb) = [].
Proof. induction n as [|n IH]; [done|]. done. Qed.

(** [Get] on a killed value area: the values that are not dead. *)
Lemma live_values_kill dead xs :
  live_values (kill_slots dead xs) = filter (λ v, dead v = false) (live_values xs).
Proof.
  induction xs as [|[v|] xs IH]; [done| |done].
  rewrite kill_slots_cons, live_values_app, IH.
  cbn [live_values]. unfold kill_slot.
  destruct (dead v) eqn:E.
  - rewrite live_values_tombs. rewrite filter_cons_False by congruence. done.
  - rewrite filter_cons_True by done. done.
Qed.

Lemma kill_slots_ok dead xs : Forall slot_ok xs → Forall slot_ok (kill_slots dead xs).
Proof.
  induction 1 as [|x xs Hx Hxs IH]; [constructor|].
  rewrite kill_slots_cons. apply Forall_app. split; [|done].
  destruct x as [v|]; [|by apply Forall_singleton]. unfold kill_slot.
  destruct (dead v); [|by apply Forall_singleton].
  apply Forall_forall. intros y Hy. apply elem_of_replicate in Hy as [-> _]. done.
Qed.

Lemma del_loop_eq fuel valueMap m o total i :
  del_loop (S fuel) valueMap m o total i =
    if total - 16 <? 0 then (Panic, m)
    else if negb (i <? total - 16) then (Ret tt, m)
    else
      let bi := b2z (rd m (o + i)) in
      if bi =? 0 then del_loop fuel valueMap m o total (i + 1)
      else if negb (i + 1 + bi <=? len m - o) then (Panic, m)
      else
        let value := sub m (o + i + 1) bi in
        let m := if decide (value ∈ valueMap) then tombstone m (o + i) else m in
        del_loop fuel valueMap m o total (i + bi + 1).
Proof. done. Qed.

Lemma del_loop_done fuel valueMap m o total i :
  0 ≤ total - 16 ≤ i → del_loop fuel valueMap m o total i = (Ret tt, m).
Proof.
  intros H. destruct fuel; simpl.
  all: replace (total - 16 <? 0) with false by lia.
  all: by replace (i <? total - 16) with false by lia.
Qed.

(** On a well-formed value area, the loop of [del] rewrites the area as the
    slots with the values of [valueMap] killed, and nothing else. *)
Lemma del_loop_slots valueMap o total :
  0 ≤ o →
  ∀ slots m i fuel,
    o + total ≤ len m →
    Forall slot_ok slots → 0 ≤ i →
    i + len (enc_slots slots) = total - 16 →
    sub m (o + i) (len (enc_slots slots)) = enc_slots slots →
    (Z.to_nat (total - 16 - i) ≤ fuel)%nat →
    del_loop fuel valueMap m o total i
    = (Ret tt,
       blit m (o + i)
         (enc_slots (kill_slots (λ v, bool_decide (v ∈ valueMap)) slots))).
Proof.
  intros Ho. induction slots as [|x xs IH]; intros m i fuel Hm Hok Hi Hend Hsub Hfuel.
  - change (len (enc_slots [])) with 0 in Hend. simpl. rewrite blit_nil.
    apply del_loop_done. lia.
  - apply Forall_cons in Hok as [Hx Hxs].
    rewrite enc_slots_cons, len_app in Hend, Hsub.
    pose proof (len_enc_slot x Hx) as Hlx.
    pose proof (len_nonneg (enc_slots xs)) as Hlxs.
    pose proof Hsub as Hsub0.
    apply sub_app_inv in Hsub0 as [Hslot _]; [|lia].
    apply slot_at in Hsub as [Hrest Hhead]; [|lia|done].
    destruct fuel as [|fuel]; [lia|]. rewrite del_loop_eq.
    replace (total - 16 <? 0) with false by lia.
    replace (i <? total - 16) with true by lia. cbn [negb].
    rewrite kill_slots_cons, enc_slots_app, enc_kill_slot.
    destruct x as [v|]; simpl in Hhead, Hlx, Hend, Hrest, Hslot.
    + destruct Hhead as [Hb Hv]. simpl in Hx.
      rewrite len_enc_value in Hend, Hrest, Hlx, Hslot.
      cbv zeta. rewrite Hb. replace (len v =? 0) with false by lia.
      replace (i + 1 + len v <=? len m - o) with true by lia. cbn [negb].
      rewrite Hv. destruct (decide (v ∈ valueMap)) as [Hin|Hin].
      * rewrite bool_decide_eq_true_2 by done.
        rewrite tombstone_blit by (rewrite ?Hb; lia). rewrite Hb.
        rewrite (IH _ (i + len v + 1)); try done; try lia.
        -- f_equal. replace (o + (i + len v + 1)) with (o + i + len (zeros (1 + len v)))
             by (rewrite len_zeros; lia).
           apply blit_blit_app. lia.
        -- by rewrite len_blit.
        -- rewrite sub_blit_outside; [|lia|lia|rewrite len_zeros; lia].
           by replace (o + (i + len v + 1)) with (o + i + (1 + len v)) by lia.
      * rewrite bool_decide_eq_false_2 by done.
        rewrite (IH _ (i + len v + 1)); try done; try lia.
        -- f_equal. rewrite <- blit_blit_app by lia.
           rewrite len_enc_value.
           rewrite (blit_id m (o + i) (enc_value v)); rewrite ?len_enc_value; try done; try lia.
           f_equal. lia.
        -- by replace (o + (i + len v + 1)) with (o + i + (1 + len v)) by lia.
    + cbv zeta. rewrite Hhead. cbn [Z.eqb]. change (len [x00]) with 1 in *.
      rewrite (IH _ (i + 1)); try done; try lia.
      * f_equal. rewrite <- blit_blit_app by lia. change (len [x00]) with 1.
        rewrite (blit_id m (o + i) [x00]); try done; try (change (len [x00]) with 1; lia).
        f_equal. lia.
      * by replace (o + (i + 1)) with (o + i + 1) by lia.
Qed.

Lemma r_total_kill dead r : r_total (kill_record dead r) = r_total r.
Proof. unfold r_total. simpl. by rewrite len_enc_kill. Qed.

(** The bytes of a record whose value area is replaced by one of the same
    length. *)
Lemma r_bytes_area r (area : list byte) :
  len area = len (enc_slots (r_slots r)) →
  blit (r_bytes r) (8 + 1 + len (r_key r)) area
  = enc_record (r_key r) area (r_self_end r) (r_next r).
Proof.
  intros Hlen. unfold r_bytes, enc_record. rewrite Hlen.
  set (T := be64 (8 + 1 + len (r_key r) + len (enc_slots (r_slots r)) + 16)).
  replace (T ++ z2b (len (r_key r)) :: r_key r ++ enc_slots (r_slots r)
             ++ be64 (r_self_end r) ++ be64 (r_next r))
    with ((T ++ z2b (len (r_key r)) :: r_key r) ++ enc_slots (r_slots r)
             ++ be64 (r_self_end r) ++ be64 (r_next r))
    by (by rewrite <- app_assoc, <- app_comm_cons).
  replace (8 + 1 + len (r_key r)) with (len (T ++ z2b (len (r_key r)) :: r_key r))
    by (rewrite len_app, len_cons; unfold T; rewrite len_be64; lia).
  rewrite blit_middle by (unfold len in Hlen; lia).
  by rewrite <- app_assoc, <- app_comm_cons.
Qed.

(** Rewriting the value area of a record the array holds. *)
Lemma holds_area m o r slots :
  holds m o r → Forall slot_ok slots →
  len (enc_slots slots) = len (enc_slots (r_slots r)) →
  holds (blit m (o + (8 + 1 + len (r_key r))) (enc_slots slots)) o
        (mkRecord (r_key r) slots (r_self_end r) (r_next r)).
Proof.
  intros (Ho & Hfit & Hsub & Hkey & Hslots & Hnext) Hok Hlen.
  pose proof (len_nonneg (r_key r)). pose proof (len_nonneg (enc_slots slots)).
  assert (Et : r_total (mkRecord (r_key r) slots (r_self_end r) (r_next r)) = r_total r)
    by (unfold r_total; simpl; lia).
  unfold holds. rewrite Et, len_blit.
  split; [done|]. split; [done|]. split; [|by (split; [|split])].
  rewrite sub_blit_within by (unfold r_total in *; lia).
  rewrite Hsub, r_bytes_area by done.
  unfold r_bytes. simpl. done.
Qed.

(** [del] on a record the mapping holds: the values of [valueMap] are
    killed in the record, every byte outside the record stays, and the
    result is [next]. *)
Lemma del_holds s o r valueMap :
  holds (bytesAddr s) o r → len (bytesAddr s) < 2 ^ 63 →
  ∃ m', del s o valueMap = (Ret (r_next r), set_bytes s m')
    ∧ len m' = len (bytesAddr s)
    ∧ holds m' o (kill_record (λ v, bool_decide (v ∈ valueMap)) r)
    ∧ ∀ lo n, 0 ≤ lo → lo + n ≤ o ∨ o + r_total r ≤ lo →
        sub m' lo n = sub (bytesAddr s) lo n.
Proof.
  intros H Hm.
  set (dead := λ v, bool_decide (v ∈ valueMap)).
  exists (blit (bytesAddr s) (o + (8 + 1 + len (r_key r)))
            (enc_slots (kill_slots dead (r_slots r)))).
  pose proof (r_total_pos r) as Ht.
  pose proof (holds_parts _ o r H) as (_ & _ & Harea & Hnext).
  pose proof (len_nonneg (r_key r)) as Hk.
  pose proof (len_nonneg (enc_slots (r_slots r))) as Ha.
  pose proof (len_enc_kill dead (r_slots r)) as Hlen.
  split; [|split; [by rewrite len_blit|split]].
  - unfold del.
    rewrite (total_holds _ o r H Hm), (scan_start_holds _ o r H).
    pose proof H as (Ho & Hfit & _ & Hkey & Hslots & Hnx).
    replace (r_total r =? 0) with false by lia.
    rewrite !in_slice_true by lia.
    replace (8 <? r_total r) with true by lia. cbn [negb].
    rewrite (del_loop_slots valueMap o (r_total r) Ho (r_slots r)); try done;
      [|lia|unfold r_total; lia].
    rewrite sub_blit_outside;
      [|lia|lia|rewrite len_enc_kill; unfold r_total in *; lia].
    by rewrite (next_holds _ o r H).
  - apply (holds_area _ o r (kill_slots dead (r_slots r))); [done| |done].
    apply kill_slots_ok. by destruct H as (_ & _ & _ & _ & ? & _).
  - intros lo n Hlo Hout. destruct H as (Ho & _).
    apply sub_blit_outside; [done|lia|].
    rewrite len_enc_kill. unfold r_total in *. lia.
Qed.

(** Bytes in front of the head of a chain are outside the chain. *)
Lemma apart_before m bound : ∀ rs o lo hi,
  chain m bound o rs → hi ≤ o → apart o rs lo hi.
Proof.
  induction rs as [|r rs IH]; intros o lo hi H Hhi; [done|].
  destruct H as [Hr H]. pose proof (r_total_pos r).
  split; [by left|]. destruct rs as [|r' rs']; [done|].
  destruct H as (_ & Hord & Hrest). apply (IH _ _ _ Hrest). lia.
Qed.

(** A chain only depends on the bytes from its head on. *)
Lemma chain_frame_from m m' bound : ∀ rs o,
  chain m bound o rs → len m' = len m →
  (∀ lo n, 0 ≤ lo → o ≤ lo → sub m' lo n = sub m lo n) →
  chain m' bound o rs.
Proof.
  induction rs as [|r rs IH]; intros o H Hlen Hframe; [done|].
  destruct H as [Hr H]. pose proof (r_total_pos r).
  split.
  - apply (holds_frame m); [done..|]. apply Hframe; [by destruct Hr|lia].
  - destruct rs as [|r' rs']; [done|].
    destruct H as (Hne & Hord & Hrest). split; [done|]. split; [done|].
    apply IH; [done..|]. intros lo n Hlo Hge. apply Hframe; lia.
Qed.

Lemma dels_loop_eq fuel s o valueMap :
  dels_loop (S fuel) s o valueMap =
    match del s o valueMap with
    | (Ret d, s) => if d =? 0 then (Ret tt, s) else dels_loop fuel s d valueMap
    | (Panic, s) => (Panic, s)
    | (Timeout, s) => (Timeout, s)
    end.
Proof. done. Qed.

(** [dels] along a chain: every record has the values of [valueMap]
    killed; bytes outside the records of the chain stay. *)
Lemma dels_loop_chain valueMap bound : ∀ rs s o fuel,
  len (bytesAddr s) < 2 ^ 63 →
  chain (bytesAddr s) bound o rs → (length rs ≤ fuel)%nat →
  ∃ s', dels_loop fuel s o valueMap = (Ret tt, s')
    ∧ same_ctl s s'
    ∧ len (bytesAddr s') = len (bytesAddr s)
    ∧ chain (bytesAddr s') bound o
        (map (kill_record (λ v, bool_decide (v ∈ valueMap))) rs)
    ∧ ∀ lo n, 0 ≤ lo → apart o rs lo (lo + n) →
        sub (bytesAddr s') lo n = sub (bytesAddr s) lo n.
Proof.
  set (dead := λ v, bool_decide (v ∈ valueMap)).
  induction rs as [|r rs IH]; intros s o fuel Hm H Hfuel; [done|].
  destruct fuel as [|fuel]; [simpl in Hfuel; lia|].
  destruct H as [Hr H]. pose proof (r_total_pos r) as Ht.
  destruct (del_holds s o r valueMap Hr Hm) as (m1 & Hdel & Hlen1 & Hr1 & Hframe1).
  rewrite dels_loop_eq, Hdel.
  destruct rs as [|r' rs'].
  - destruct H as [Hn Hend]. rewrite Hn. cbn [Z.eqb].
    exists (set_bytes s m1). split; [done|]. split; [done|]. split; [done|].
    split.
    + cbn [map chain bytesAddr set_bytes]. split; [done|].
      split; [done|]. by rewrite r_total_kill.
    + intros lo n Hlo [Hap _]. cbn [bytesAddr set_bytes]. apply Hframe1; [done|lia].
  - destruct H as (Hne & Hord & Hrest).
    replace (r_next r =? 0) with false by lia.
    assert (Hrest1 : chain (bytesAddr (set_bytes s m1)) bound (r_next r) (r' :: rs')).
    { apply (chain_frame_from (bytesAddr s)); [done..|].
      intros lo n Hlo Hge. apply Hframe1; [done|lia]. }
    destruct (IH (set_bytes s m1) (r_next r) fuel) as (s2 & Hloop & Hctl & Hlen2 & Hch2 & Hframe2);
      [simpl; by rewrite Hlen1|done|simpl in *; lia|].
    simpl in Hlen2.
    exists s2. split; [done|]. split; [done|].
    split; [by rewrite Hlen2|]. split.
    + change (map (kill_record dead) (r :: r' :: rs'))
        with (kill_record dead r :: map (kill_record dead) (r' :: rs')).
      apply chain_cons; [| done | done | by rewrite r_total_kill | done].
      apply (holds_frame m1); [done|by rewrite Hlen2|].
      rewrite r_total_kill. apply Hframe2; [by destruct Hr|].
      apply (apart_before _ _ _ _ _ _ Hrest1). lia.
    + intros lo n Hlo [Hap1 Hap2].
      rewrite Hframe2 by done. cbn [bytesAddr set_bytes]. apply Hframe1; [done|lia].
Qed.

Lemma chain_values_kill dead rs :
  chain_values (map (kill_record dead) rs)
  = filter (λ v, dead v = false) (chain_values rs).
Proof.
  unfold chain_values. induction rs as [|r rs IH]; [done|].
  simpl. rewrite filter_app, live_values_kill, IH. done.
Qed.

Lemma kill_slots_none dead xs :
  (∀ v, dead v = false) → kill_slots dead xs = xs.
Proof.
  intros Hd. induction xs as [|[v|] xs IH]; [done| |].
  - rewrite kill_slots_cons, IH. unfold kill_slot. by rewrite Hd.
  - rewrite kill_slots_cons, IH. done.
Qed.

Lemma kill_record_none dead r : (∀ v, dead v = false) → kill_record dead r = r.
Proof.
  intros Hd. unfold kill_record. rewrite kill_slots_none by done. by destruct r.
Qed.

(** [dels] on a key whose chain the mapping holds. *)
Lemma dels_chain fuel s key values head rs :
  len (bytesAddr s) < 2 ^ 63 →
  keyMap s !! key = Some head → head ≠ notExist →
  chain (bytesAddr s) (offset s) head rs → (length rs ≤ fuel)%nat →
  ∃ s', dels fuel s key values = (Ret tt, s')
    ∧ same_ctl s s' ∧ len (bytesAddr s') = len (bytesAddr s)
    ∧ chain (bytesAddr s') (offset s') head
        (map (kill_record (λ v, bool_decide (v ∈ values))) rs)
    ∧ gets fuel s key = Ret (chain_values rs)
    ∧ gets fuel s' key = Ret (filter (λ v, v ∉ values) (chain_values rs)).
Proof.
  intros Hm Hk Hhead Hchain Hfuel.
  assert (Hget : gets fuel s key = Ret (chain_values rs))
    by (by apply (gets_chain fuel s key head rs)).
  assert (Hfilter : ∀ vm : gset gostring, (∀ v, v ∈ vm ↔ v ∈ values) →
            filter (λ v, bool_decide (v ∈ vm) = false) (chain_values rs)
            = filter (λ v, v ∉ values) (chain_values rs)).
  { intros vm Hvm. apply list_filter_iff. intros v.
    rewrite bool_decide_eq_false, Hvm. done. }
  assert (Hkill : ∀ vm : gset gostring, (∀ v, v ∈ vm ↔ v ∈ values) →
            map (kill_record (λ v, bool_decide (v ∈ vm))) rs
            = map (kill_record (λ v, bool_decide (v ∈ values))) rs).
  { intros vm Hvm. apply map_ext. intros r. unfold kill_record. f_equal.
    unfold kill_slots. f_equal. apply map_ext. intros [v|]; [|done]. simpl.
    by rewrite (bool_decide_ext _ _ (Hvm v)). }
  unfold dels. rewrite Hk.
  set (vm := list_to_set values : gset gostring).
  assert (Hvm : ∀ v, v ∈ vm ↔ v ∈ values) by (intros v; apply elem_of_list_to_set).
  case_decide as Hsize.
  - assert (values = []) as ->.
    { apply size_empty_iff in Hsize. destruct values as [|v vs]; [done|].
      exfalso. assert (v ∈ vm) as Hv by (apply Hvm; left).
      rewrite Hsize in Hv. by apply not_elem_of_empty in Hv. }
    exists s. split; [done|]. split; [done|]. split; [done|].
    assert (Hid : map (kill_record (λ v, bool_decide (v ∈ (@nil gostring)))) rs = rs).
    { rewrite <- (map_id rs) at 2. apply map_ext. intros r.
      apply kill_record_none. intros v. apply bool_decide_eq_false_2.
      apply not_elem_of_nil. }
    rewrite Hid. split; [done|]. split; [done|]. rewrite Hget. f_equal.
    symmetry. generalize (chain_values rs). intros l.
    induction l as [|v l IH]; [done|].
    rewrite filter_cons_True by apply not_elem_of_nil. by f_equal.
  - destruct (dels_loop_chain vm (offset s) rs s head fuel Hm Hchain Hfuel)
      as (s' & Hloop & Hctl & Hlen & Hch & _).
    exists s'. split; [done|]. split; [done|]. split; [done|].
    destruct Hctl as (Hp & Ho & Hkm).
    rewrite Hkill in Hch by done. rewrite Ho. split; [done|]. split; [done|].
    rewrite <- Ho in Hch.
    rewrite (gets_chain fuel s' key head
               (map (kill_record (λ v, bool_decide (v ∈ values))) rs)); try done.
    + rewrite <- (Hkill vm) by done. rewrite chain_values_kill. f_equal.
      by apply Hfilter.
    + by rewrite Hlen.
    + by rewrite Hkm.
    + by rewrite length_map.
Qed.

(** X3. Del on a key whose chain the mapping holds: it returns normally, it
    changes neither the index nor [offset] nor the length of the mapping,
    the chain stays a chain, and [Get] afterwards returns what it returned
    before without the values that were given - every occurrence of them,
    in every record.
    The chain is well formed ([chain]): every record lies in front of
    [offset] and is laid out as [add] writes it, with a record key of at
    most 246 bytes, a value area of slots of 1 to 255 bytes and tombstone
    bytes, and a [next] field that is 0 in the tail and otherwise the
    offset of the next record, which lies behind it. The index entry of
    the key is a real offset, the mapping is shorter than 2^63 bytes and
    the walks have at least one step per record. *)
Theorem X_Del_removes_values fuel s key values head rs :
  len (bytesAddr s) < 2 ^ 63 →
  keyMap s !! key = Some head → head ≠ notExist →
  chain (bytesAddr s) (offset s) head rs → (length rs ≤ fuel)%nat →
  ∃ s', Del fuel s key values = (Ret tt, s')
    ∧ same_ctl s s' ∧ len (bytesAddr s') = len (bytesAddr s)
    ∧ chain (bytesAddr s') (offset s') head
        (map (kill_record (λ v, bool_decide (v ∈ values))) rs)
    ∧ Get fuel s key = Ret (chain_values rs)
    ∧ Get fuel s' key = Ret (filter (λ v, v ∉ values) (chain_values rs)).
Proof. apply dels_chain. Qed.

Lemma X_Del_removes_values_witness :
  let s := after [OAdd key_u [str "a"; str "bb"; str "a"] WriteAll;
                  OAdd key_u [str "ccc"; str "a"] WriteAll] in
  let rs := [mkRecord key_u [Live (str "a"); Live (str "bb"); Live (str "a")] 33 33;
             mkRecord key_u [Live (str "ccc"); Live (str "a")] 65 0] in
  ∃ s', Del 8 s key_u [str "a"] = (Ret tt, s')
    ∧ same_ctl s s' ∧ len (bytesAddr s') = len (bytesAddr s)
    ∧ chain (bytesAddr s') (offset s') 0
        (map (kill_record (λ v, bool_decide (v ∈ [str "a"]))) rs)
    ∧ Get 8 s key_u = Ret (chain_values rs)
    ∧ Get 8 s' key_u = Ret (filter (λ v, v ∉ [str "a"]) (chain_values rs)).
Proof.
  intros s rs.
  apply (X_Del_removes_values 8 s key_u [str "a"] 0 rs).
  - vm_compute; reflexivity.
  - vm_compute; reflexivity.
  - discriminate.
  - cbn [chain rs]. unfold holds, record_ok.
    repeat split; try (vm_compute; reflexivity); try (vm_compute; discriminate).
    + repeat constructor; by vm_compute.
    + repeat constructor; by vm_compute.
  - simpl. lia.
Defined.

(** ** Deleting by prefix *)

Lemma HasPrefix_spec : ∀ v value, HasPrefix value v = true ↔ v `prefix_of` value.
Proof.
  induction v as [|c v IH]; intros value.
  - destruct value; simpl; split; intros _; try done; apply prefix_nil.
  - destruct value as [|d value]; simpl.
    + split; [done|]. intros [k Hk]. done.
    + case_decide as Hcd.
      * subst d. rewrite IH. split.
        -- apply prefix_cons.
        -- intros H. by apply prefix_cons_inv_2 in H.
      * split; [done|]. intros H. by apply prefix_cons_inv_1 in H.
Qed.

Lemma tombstone_idem m p : tombstone (tombstone m p) p = tombstone m p.
Proof.
  unfold tombstone at 1.
  assert (rd (tombstone m p) p = x00) as ->.
  { unfold rd, tombstone.
    destruct (decide (Z.to_nat p < length m)%nat) as [Hlt|Hge].
    - rewrite list_lookup_insert_eq by (rewrite length_blit; lia). done.
    - rewrite list_insert_ge by (rewrite length_blit; lia).
      assert (m !! Z.to_nat p = None) as Hnone by (apply lookup_ge_None; lia).
      unfold rd. rewrite Hnone. simpl. change (zeros (b2z x00)) with (@nil byte).
      rewrite blit_nil. by rewrite Hnone. }
  change (zeros (b2z x00)) with (@nil byte). rewrite blit_nil.
  unfold tombstone.
  destruct (decide (Z.to_nat p < length m)%nat) as [Hlt|Hge].
  - by rewrite list_insert_insert_eq.
  - rewrite !list_insert_ge; try done; rewrite ?length_insert, ?length_blit; lia.
Qed.

(** The inner loop of [delPrefix]: the slot is cleared when some prefix
    matches, and clearing it again changes nothing. *)
Lemma fold_tombstone value p : ∀ values m,
  fold_left (λ m v, if HasPrefix value v then tombstone m p else m) values m
  = if existsb (HasPrefix value) values then tombstone m p else m.
Proof.
  assert (Hfix : ∀ values m, tombstone m p = m →
            fold_left (λ m v, if HasPrefix value v then tombstone m p else m) values m = m).
  { induction values as [|v vs IH]; intros m Hm; [done|]. simpl.
    destruct (HasPrefix value v); [rewrite Hm|]; by apply IH. }
  induction values as [|v vs IH]; intros m; [done|]. simpl.
  destruct (HasPrefix value v); simpl.
  - apply Hfix, tombstone_idem.
  - apply IH.
Qed.

Lemma delPrefix_loop_eq fuel values m o total i :
  delPrefix_loop (S fuel) values m o total i =
    if total - 16 <? 0 then (Panic, m)
    else if negb (i <? total - 16) then (Ret tt, m)
    else
      let bi := b2z (rd m (o + i)) in
      if bi =? 0 then delPrefix_loop fuel values m o total (i + 1)
      else if negb (i + 1 + bi <=? len m - o) then (Panic, m)
      else
        let value := sub m (o + i + 1) bi in
        let m := fold_left (fun m v => if HasPrefix value v
                                       then tombstone m (o + i) else m) values m in
        delPrefix_loop fuel values m o total (i + bi + 1).
Proof. done. Qed.

Lemma delPrefix_loop_done fuel values m o total i :
  0 ≤ total - 16 ≤ i → delPrefix_loop fuel values m o total i = (Ret tt, m).
Proof.
  intros H. destruct fuel; simpl.
  all: replace (total - 16 <? 0) with false by lia.
  all: by replace (i <? total - 16) with false by lia.
Qed.

(** On a well-formed value area, the loop of [delPrefix] rewrites the area
    as the slots with the values that have one of the prefixes killed, and
    nothing else. *)
Lemma delPrefix_loop_slots values o total :
  0 ≤ o →
  ∀ slots m i fuel,
    o + total ≤ len m →
    Forall slot_ok slots → 0 ≤ i →
    i + len (enc_slots slots) = total - 16 →
    sub m (o + i) (len (enc_slots slots)) = enc_slots slots →
    (Z.to_nat (total - 16 - i) ≤ fuel)%nat →
    delPrefix_loop fuel values m o total i
    = (Ret tt,
       blit m (o + i)
         (enc_slots (kill_slots (λ v, existsb (HasPrefix v) values) slots))).
Proof.
  intros Ho. induction slots as [|x xs IH]; intros m i fuel Hm Hok Hi Hend Hsub Hfuel.
  - change (len (enc_slots [])) with 0 in Hend. simpl. rewrite blit_nil.
    apply delPrefix_loop_done. lia.
  - apply Forall_cons in Hok as [Hx Hxs].
    rewrite enc_slots_cons, len_app in Hend, Hsub.
    pose proof (len_enc_slot x Hx) as Hlx.
    pose proof (len_nonneg (enc_slots xs)) as Hlxs.
    pose proof Hsub as Hsub0.
    apply sub_app_inv in Hsub0 as [Hslot _]; [|lia].
    apply slot_at in Hsub as [Hrest Hhead]; [|lia|done].
    destruct fuel as [|fuel]; [lia|]. rewrite delPrefix_loop_eq.
    replace (total - 16 <? 0) with false by lia.
    replace (i <? total - 16) with true by lia. cbn [negb].
    rewrite kill_slots_cons, enc_slots_app, enc_kill_slot.
    destruct x as [v|]; simpl in Hhead, Hlx, Hend, Hrest, Hslot.
    + destruct Hhead as [Hb Hv]. simpl in Hx.
      rewrite len_enc_value in Hend, Hrest, Hlx, Hslot.
      cbv zeta. rewrite Hb. replace (len v =? 0) with false by lia.
      replace (i + 1 + len v <=? len m - o) with true by lia. cbn [negb].
      rewrite Hv, fold_tombstone. destruct (existsb (HasPrefix v) values).
      * rewrite tombstone_blit by (rewrite ?Hb; lia). rewrite Hb.
        rewrite (IH _ (i + len v + 1)); try done; try lia.
        -- f_equal. replace (o + (i + len v + 1)) with (o + i + len (zeros (1 + len v)))
             by (rewrite len_zeros; lia).
           apply blit_blit_app. lia.
        -- by rewrite len_blit.
        -- rewrite sub_blit_outside; [|lia|lia|rewrite len_zeros; lia].
           by replace (o + (i + len v + 1)) with (o + i + (1 + len v)) by lia.
      * rewrite (IH _ (i + len v + 1)); try done; try lia.
        -- f_equal. rewrite <- blit_blit_app by lia.
           rewrite len_enc_value.
           rewrite (blit_id m (o + i) (enc_value v)); rewrite ?len_enc_value; try done; try lia.
           f_equal. lia.
        -- by replace (o + (i + len v + 1)) with (o + i + (1 + len v)) by lia.
    + cbv zeta. rewrite Hhead. cbn [Z.eqb]. change (len [x00]) with 1 in *.
      rewrite (IH _ (i + 1)); try done; try lia.
      * f_equal. rewrite <- blit_blit_app by lia. change (len [x00]) with 1.
        rewrite (blit_id m (o + i) [x00]); try done; try (change (len [x00]) with 1; lia).
        f_equal. lia.
      * by replace (o + (i + 1)) with (o + i + 1) by lia.
Qed.

(** [delPrefix] on a record the mapping holds. *)
Lemma delPrefix_holds s o r values :
  holds (bytesAddr s) o r → len (bytesAddr s) < 2 ^ 63 →
  ∃ m', delPrefix s o values = (Ret (r_next r), set_bytes s m')
    ∧ len m' = len (bytesAddr s)
    ∧ holds m' o (kill_record (λ v, existsb (HasPrefix v) values) r)
    ∧ ∀ lo n, 0 ≤ lo → lo + n ≤ o ∨ o + r_total r ≤ lo →
        sub m' lo n = sub (bytesAddr s) lo n.
Proof.
  intros H Hm.
  set (dead := λ v, existsb (HasPrefix v) values).
  exists (blit (bytesAddr s) (o + (8 + 1 + len (r_key r)))
            (enc_slots (kill_slots dead (r_slots r)))).
  pose proof (r_total_pos r) as Ht.
  pose proof (holds_parts _ o r H) as (_ & _ & Harea & Hnext).
  pose proof (len_nonneg (r_key r)) as Hk.
  pose proof (len_nonneg (enc_slots (r_slots r))) as Ha.
  pose proof (len_enc_kill dead (r_slots r)) as Hlen.
  split; [|split; [by rewrite len_blit|split]].
  - unfold delPrefix.
    rewrite (total_holds _ o r H Hm), (scan_start_holds _ o r H).
    pose proof H as (Ho & Hfit & _ & Hkey & Hslots & Hnx).
    replace (r_total r =? 0) with false by lia.
    rewrite !in_slice_true by lia.
    replace (8 <? r_total r) with true by lia. cbn [negb].
    rewrite (delPrefix_loop_slots values o (r_total r) Ho (r_slots r)); try done;
      [|lia|unfold r_total; lia].
    rewrite sub_blit_outside;
      [|lia|lia|rewrite len_enc_kill; unfold r_total in *; lia].
    by rewrite (next_holds _ o r H).
  - apply (holds_area _ o r (kill_slots dead (r_slots r))); [done| |done].
    apply kill_slots_ok. by destruct H as (_ & _ & _ & _ & ? & _).
  - intros lo n Hlo Hout. destruct H as (Ho & _).
    apply sub_blit_outside; [done|lia|].
    rewrite len_enc_kill. unfold r_total in *. lia.
Qed.

Lemma delsPrefix_loop_eq fuel s o values :
  delsPrefix_loop (S fuel) s o values =
    match delPrefix s o values with
    | (Ret d, s) => if d =? 0 then (Ret tt, s) else delsPrefix_loop fuel s d values
    | (Panic, s) => (Panic, s)
    | (Timeout, s) => (Timeout, s)
    end.
Proof. done. Qed.

(** [delsPrefix] along a chain. *)
Lemma delsPrefix_loop_chain values bound : ∀ rs s o fuel,
  len (bytesAddr s) < 2 ^ 63 →
  chain (bytesAddr s) bound o rs → (length rs ≤ fuel)%nat →
  ∃ s', delsPrefix_loop fuel s o values = (Ret tt, s')
    ∧ same_ctl s s'
    ∧ len (bytesAddr s') = len (bytesAddr s)
    ∧ chain (bytesAddr s') bound o
        (map (kill_record (λ v, existsb (HasPrefix v) values)) rs)
    ∧ ∀ lo n, 0 ≤ lo → apart o rs lo (lo + n) →
        sub (bytesAddr s') lo n = sub (bytesAddr s) lo n.
Proof.
  set (dead := λ v, existsb (HasPrefix v) values).
  induction rs as [|r rs IH]; intros s o fuel Hm H Hfuel; [done|].
  destruct fuel as [|fuel]; [simpl in Hfuel; lia|].
  destruct H as [Hr H]. pose proof (r_total_pos r) as Ht.
  destruct (delPrefix_holds s o r values Hr Hm) as (m1 & Hdel & Hlen1 & Hr1 & Hframe1).
  rewrite delsPrefix_loop_eq, Hdel.
  destruct rs as [|r' rs'].
  - destruct H as [Hn Hend]. rewrite Hn. cbn [Z.eqb].
    exists (set_bytes s m1). split; [done|]. split; [done|]. split; [done|].
    split.
    + cbn [map chain bytesAddr set_bytes]. split; [done|].
      split; [done|]. by rewrite r_total_kill.
    + intros lo n Hlo [Hap _]. cbn [bytesAddr set_bytes]. apply Hframe1; [done|lia].
  - destruct H as (Hne & Hord & Hrest).
    replace (r_next r =? 0) with false by lia.
    assert (Hrest1 : chain (bytesAddr (set_bytes s m1)) bound (r_next r) (r' :: rs')).
    { apply (chain_frame_from (bytesAddr s)); [done..|].
      intros lo n Hlo Hge. apply Hframe1; [done|lia]. }
    destruct (IH (set_bytes s m1) (r_next r) fuel) as (s2 & Hloop & Hctl & Hlen2 & Hch2 & Hframe2);
      [simpl; by rewrite Hlen1|done|simpl in *; lia|].
    simpl in Hlen2.
    exists s2. split; [done|]. split; [done|].
    split; [by rewrite Hlen2|]. split.
    + change (map (kill_record dead) (r :: r' :: rs'))
        with (kill_record dead r :: map (kill_record dead) (r' :: rs')).
      apply chain_cons; [| done | done | by rewrite r_total_kill | done].
      apply (holds_frame m1); [done|by rewrite Hlen2|].
      rewrite r_total_kill. apply Hframe2; [by destruct Hr|].
      apply (apart_before _ _ _ _ _ _ Hrest1). lia.
    + intros lo n Hlo [Hap1 Hap2].
      rewrite Hframe2 by done. cbn [bytesAddr set_bytes]. apply Hframe1; [done|lia].
Qed.

(** X4. DelByPrefix on a key whose chain the mapping holds: it returns
    normally, changes neither the index nor [offset] nor the length of the
    mapping, and [Get] afterwards returns what it returned before without
    the values that start with one of the given prefixes (all of them when
    the empty string is among the prefixes, none when no prefix is given).
    The chain is well formed ([chain]): every record lies in front of
    [offset] and is laid out as [add] writes it, with a record key of at
    most 246 bytes, a value area of slots of 1 to 255 bytes and tombstone
    bytes, and a [next] field that is 0 in the tail and otherwise the
    offset of the next record, which lies behind it. The index entry of
    the key is a real offset, the mapping is shorter than 2^63 bytes and
    the walks have at least one step per record. *)
Theorem X_DelByPrefix_removes_prefixed fuel s key prefixes head rs :
  len (bytesAddr s) < 2 ^ 63 →
  keyMap s !! key = Some head → head ≠ notExist →
  chain (bytesAddr s) (offset s) head rs → (length rs ≤ fuel)%nat →
  ∃ s', DelByPrefix fuel s key prefixes = (Ret tt, s')
    ∧ same_ctl s s' ∧ len (bytesAddr s') = len (bytesAddr s)
    ∧ chain (bytesAddr s') (offset s') head
        (map (kill_record (λ v, existsb (HasPrefix v) prefixes)) rs)
    ∧ Get fuel s key = Ret (chain_values rs)
    ∧ Get fuel s' key
      = Ret (filter (λ v, ¬ Exists (λ p, p `prefix_of` v) prefixes) (chain_values rs)).
Proof.
  intros Hm Hk Hhead Hchain Hfuel.
  assert (Hget0 : Get fuel s key = Ret (chain_values rs))
    by (by apply (gets_chain fuel s key head rs)).
  set (dead := λ v, existsb (HasPrefix v) prefixes).
  assert (Hfilter : filter (λ v, dead v = false) (chain_values rs)
            = filter (λ v, ¬ Exists (λ p, p `prefix_of` v) prefixes) (chain_values rs)).
  { apply list_filter_iff. intros v. unfold dead.
    rewrite <- not_true_iff_false, existsb_exists, Exists_exists.
    split; intros Hn (p & Hp & Hpre); apply Hn; exists p.
    - split; [by apply list_elem_of_In|by apply HasPrefix_spec].
    - split; [by apply list_elem_of_In|by apply HasPrefix_spec]. }
  unfold DelByPrefix, delsPrefix. rewrite Hk.
  destruct (len prefixes =? 0) eqn:E0.
  - assert (prefixes = []) as Hnil
      by (destruct prefixes; [done|]; unfold len in E0; simpl in E0; lia).
    assert (Hid : map (kill_record dead) rs = rs).
    { rewrite <- (map_id rs) at 2. apply map_ext. intros r.
      apply kill_record_none. intros v. unfold dead. by rewrite Hnil. }
    exists s. split; [done|]. split; [done|]. split; [done|].
    rewrite Hid. split; [done|]. split; [done|].
    unfold Get. rewrite (gets_chain fuel s key head rs) by done.
    rewrite <- Hfilter, <- chain_values_kill, Hid. done.
  - destruct (delsPrefix_loop_chain prefixes (offset s) rs s head fuel Hm Hchain Hfuel)
      as (s' & Hloop & Hctl & Hlen & Hch & _).
    exists s'. split; [done|]. split; [done|]. split; [done|].
    destruct Hctl as (Hp & Ho & Hkm).
    rewrite Ho. split; [done|]. split; [done|].
    unfold Get.
    rewrite (gets_chain fuel s' key head (map (kill_record dead) rs)); try done.
    + by rewrite chain_values_kill, Hfilter.
    + by rewrite Hlen.
    + by rewrite Hkm.
    + by rewrite Ho.
    + by rewrite length_map.
Qed.

Lemma X_DelByPrefix_removes_prefixed_witness :
  let s := after [OAdd key_u [str "apple"; str "bob"; str "avocado"] WriteAll;
                  OAdd key_u [str "cat"; str "ant"] WriteAll] in
  let rs := [mkRecord key_u [Live (str "apple"); Live (str "bob"); Live (str "avocado")] 44 44;
             mkRecord key_u [Live (str "cat"); Live (str "ant")] 78 0] in
  ∃ s', DelByPrefix 8 s key_u [str "a"; str "bo"] = (Ret tt, s')
    ∧ same_ctl s s' ∧ len (bytesAddr s') = len (bytesAddr s)
    ∧ chain (bytesAddr s') (offset s') 0
        (map (kill_record (λ v, existsb (HasPrefix v) [str "a"; str "bo"])) rs)
    ∧ Get 8 s key_u = Ret (chain_values rs)
    ∧ Get 8 s' key_u
      = Ret (filter (λ v, ¬ Exists (λ p, p `prefix_of` v) [str "a"; str "bo"])
               (chain_values rs)).
Proof.
  intros s rs.
  apply (X_DelByPrefix_removes_prefixed 8 s key_u [str "a"; str "bo"] 0 rs).
  - vm_compute; reflexivity.
  - vm_compute; reflexivity.
  - discriminate.
  - cbn [chain rs]. unfold holds, record_ok.
    repeat split; try (vm_compute; reflexivity); try (vm_compute; discriminate).
    + repeat constructor; by vm_compute.
    + repeat constructor; by vm_compute.
  - simpl. lia.
Defined.

(** ** Appending to the chain of a key *)

Lemma filter_members (L l : list gostring) :
  l ⊆ L → filter (λ v, bool_decide (v ∈ L) = false) l = [].
Proof.
  induction l as [|v l IH]; intros Hsub; [done|].
  rewrite filter_cons_False.
  - apply IH. intros x Hx. apply Hsub. by right.
  - rewrite bool_decide_eq_true_2; [done|]. apply Hsub. by left.
Qed.

Lemma length_relink rs next : length (relink rs next) = length rs.
Proof.
  induction rs as [|r [|r' rs'] IH]; [done|done|].
  change (relink (r :: r' :: rs') next) with (r :: relink (r' :: rs') next).
  simpl in *. by rewrite IH.
Qed.

Lemma len_enc_record key area self_end next :
  len (enc_record key area self_end next) = 8 + 1 + len key + len area + 16.
Proof.
  unfold enc_record. rewrite len_app, len_cons, !len_app, !len_be64. lia.
Qed.

Section AppendTotal.

Variable growcap : Z → Z → Z.

(** On a key with a chain, [adds] goes to [add] with the [next] field of
    the tail whenever it does not write in place. *)
Lemma adds_chain_append fuel s key values w head rs :
  len (bytesAddr s) < 2 ^ 63 →
  keyMap s !! key = Some head → head ≠ notExist →
  chain (bytesAddr s) (offset s) head rs → (length rs ≤ fuel)%nat →
  values ≠ [] → reuses head rs values = false →
  adds growcap fuel s key values w
  = only_err (add growcap s (Some (tail_link head rs)) key values w).
Proof.
  intros Hm Hk Hhead Hchain Hfuel Hne Hre.
  unfold adds. destruct values as [|v vs]; [done|].
  replace (len (v :: vs) =? 0) with false
    by (rewrite len_cons; pose proof (len_nonneg vs); lia).
  rewrite Hk. replace (head =? notExist) with false by lia.
  unfold adds_append.
  rewrite (getB8byOffset_chain s Hm rs head fuel Hchain Hfuel).
  destruct vs as [|v' vs']; [|done].
  rewrite (empty_chain s (offset s) Hm rs head fuel Hchain Hfuel).
  unfold reuses in Hre. destruct (chain_gap head rs) as [[[o' start] end_] t].
  by rewrite Hre.
Qed.

(** [add] with a write that stores the whole record of at most 1024
    bytes. *)
Lemma add_written s b8 key values :
  Forall (λ v, len v ≤ 255) values →
  8 + 1 + len key + len (enc_values values) + 16 ≤ 1024 →
  ∃ s', add growcap s b8 key values WriteAll
        = (Ret (8 + 1 + len key + len (enc_values values) + 16, None), s')
    ∧ f_pos s' = f_pos s + (8 + 1 + len key + len (enc_values values) + 16)
    ∧ offset s' = offset s + (8 + 1 + len key + len (enc_values values) + 16)
    ∧ keyMap s' = publish s key
    ∧ len (bytesAddr s') = len (bytesAddr s).
Proof.
  intros H255 Hfit. unfold add. rewrite add_record_fits by done.
  cbn [file_write]. eexists. split; [done|].
  cbn [f_pos offset keyMap bytesAddr]. rewrite len_enc_record.
  split; [done|]. split; [done|]. split; [done|].
  unfold link. destruct b8; cbn [bytesAddr]; by rewrite ?len_blit.
Qed.

(** A successful append on a key with a chain. *)
Lemma adds_appended fuel s key values head rs :
  len (bytesAddr s) < 2 ^ 63 → f_pos s = offset s →
  keyMap s !! key = Some head → head ≠ notExist →
  chain (bytesAddr s) (offset s) head rs → (length rs < fuel)%nat →
  len key ≤ 246 → Forall (λ v, 1 ≤ len v ≤ 255) values →
  values ≠ [] → reuses head rs values = false →
  8 + 1 + len key + len (enc_values values) + 16 ≤ 1024 →
  offset s + (8 + 1 + len key + len (enc_values values) + 16) ≤ len (bytesAddr s) →
  ∃ s', adds growcap fuel s key values WriteAll = (Ret None, s')
    ∧ f_pos s' = offset s'
    ∧ offset s' = offset s + (8 + 1 + len key + len (enc_values values) + 16)
    ∧ keyMap s' = keyMap s
    ∧ len (bytesAddr s') = len (bytesAddr s)
    ∧ (∃ rnew, live_values (r_slots rnew) = values
         ∧ chain (bytesAddr s') (offset s') head (relink rs (offset s) ++ [rnew]))
    ∧ gets fuel s' key = Ret (chain_values rs ++ values).
Proof.
  intros Hm Hpos Hk Hhead Hchain Hfuel Hkey Hvals Hne Hre H1024 Hfit.
  assert (H255 : Forall (λ v, len v ≤ 255) values)
    by (apply (Forall_impl _ _ _ Hvals); intros v Hv; simpl in Hv; lia).
  assert (H1 : Forall (λ v, 1 ≤ len v) values)
    by (apply (Forall_impl _ _ _ Hvals); intros v Hv; simpl in Hv; lia).
  destruct (add_written s (Some (tail_link head rs)) key values H255 H1024)
    as (s' & Hadd & Hp' & Ho' & Hkm' & Hlen').
  assert (Hadds : adds growcap fuel s key values WriteAll = (Ret None, s')).
  { rewrite (adds_chain_append fuel s key values WriteAll head rs); try done; [|lia].
    by rewrite Hadd. }
  pose proof (len_nonneg key). pose proof (len_nonneg (enc_values values)).
  destruct (adds_extends_chain growcap fuel s key values WriteAll head rs s')
    as (_ & Hk' & rnew & Hlive & Hchain'); try done; [lia|lia|].
  exists s'. split; [done|]. split; [lia|]. split; [done|].
  split.
  { rewrite Hkm'. unfold publish. rewrite Hk.
    by replace (head =? notExist) with false by lia. }
  split; [done|]. split; [by exists rnew|].
  rewrite (gets_chain fuel s' key head (relink rs (offset s) ++ [rnew])); try done.
  - by rewrite chain_values_snoc, chain_values_relink, Hlive.
  - lia.
  - rewrite length_app, length_relink. simpl. lia.
Qed.

(** X5. Add on a key with a chain, when it does not write in place (more than
    one value, no gap in the first record that has tombstone bytes, or a
    first gap not longer than the value) and the record of at most 1024
    bytes fits the mapping: the call succeeds, one record is appended at
    [offset] and linked behind the tail, [offset] and the file position
    advance by its length, the index keeps the head, and [Get] returns what
    it returned before followed by the new values in order. *)
Theorem X_Add_appends_behind_tail fuel s key values head rs :
  len (bytesAddr s) < 2 ^ 63 → f_pos s = offset s →
  keyMap s !! key = Some head → head ≠ notExist →
  chain (bytesAddr s) (offset s) head rs → (length rs < fuel)%nat →
  len key ≤ 246 → Forall (λ v, 1 ≤ len v ≤ 255) values →
  values ≠ [] → reuses head rs values = false →
  8 + 1 + len key + len (enc_values values) + 16 ≤ 1024 →
  offset s + (8 + 1 + len key + len (enc_values values) + 16) ≤ len (bytesAddr s) →
  ∃ s', Add growcap fuel s key values WriteAll = (Ret None, s')
    ∧ f_pos s' = offset s'
    ∧ offset s' = offset s + (8 + 1 + len key + len (enc_values values) + 16)
    ∧ keyMap s' = keyMap s
    ∧ len (bytesAddr s') = len (bytesAddr s)
    ∧ (∃ rnew, live_values (r_slots rnew) = values
         ∧ chain (bytesAddr s') (offset s') head (relink rs (offset s) ++ [rnew]))
    ∧ Get fuel s' key = Ret (chain_values rs ++ values).
Proof. apply adds_appended. Qed.

(** X6. Update with at least two values of 1 to 255 bytes on a key of at
    most 246 bytes whose chain the mapping holds, in an engine whose file
    position equals [offset], when the new record is at most 1024 bytes,
    fits the mapping behind [offset] and is written in full: the call
    succeeds, every old value is deleted, the new values are appended as
    one record, [offset] and the file position advance by its length, the
    index stays, and [Get] afterwards returns exactly the new values, in
    order.
    The chain is well formed ([chain]): every record lies in front of
    [offset] and is laid out as [add] writes it, with a record key of at
    most 246 bytes, a value area of slots of 1 to 255 bytes and tombstone
    bytes, and a [next] field that is 0 in the tail and otherwise the
    offset of the next record, which lies behind it. The index entry of
    the key is a real offset, the mapping is shorter than 2^63 bytes and
    the walks have more steps than the chain has records. *)
Theorem X_Update_replaces_values fuel s key values head rs :
  len (bytesAddr s) < 2 ^ 63 → f_pos s = offset s →
  keyMap s !! key = Some head → head ≠ notExist →
  chain (bytesAddr s) (offset s) head rs → (length rs < fuel)%nat →
  len key ≤ 246 → Forall (λ v, 1 ≤ len v ≤ 255) values →
  (2 ≤ length values)%nat →
  8 + 1 + len key + len (enc_values values) + 16 ≤ 1024 →
  offset s + (8 + 1 + len key + len (enc_values values) + 16) ≤ len (bytesAddr s) →
  ∃ s', Update growcap fuel s key values WriteAll = (Ret None, s')
    ∧ f_pos s' = offset s'
    ∧ offset s' = offset s + (8 + 1 + len key + len (enc_values values) + 16)
    ∧ keyMap s' = keyMap s
    ∧ Get fuel s' key = Ret values.
Proof.
  intros Hm Hpos Hk Hhead Hchain Hfuel Hkey Hvals H2 H1024 Hfit.
  destruct (dels_chain fuel s key (chain_values rs) head rs)
    as (s1 & Hdels & (Hp1 & Ho1 & Hkm1) & Hlen1 & Hchain1 & Hgets & _); try done; [lia|].
  set (rs1 := map (kill_record (λ v, bool_decide (v ∈ chain_values rs))) rs) in *.
  assert (Hne : values ≠ []) by (intros ->; simpl in H2; lia).
  assert (Hre : reuses head rs1 values = false).
  { destruct values as [|v [|v' vs]]; [done| |done]. simpl in H2. lia. }
  assert (Hpos1 : f_pos s1 = offset s1) by lia.
  assert (Hm1 : len (bytesAddr s1) < 2 ^ 63) by (by rewrite Hlen1).
  assert (Hk1 : keyMap s1 !! key = Some head) by (by rewrite Hkm1).
  assert (Hfuel1 : (length rs1 < fuel)%nat) by (unfold rs1; rewrite length_map; lia).
  assert (Hfit1 : offset s1 + (8 + 1 + len key + len (enc_values values) + 16)
                  ≤ len (bytesAddr s1)) by (by rewrite Ho1, Hlen1).
  destruct (adds_appended fuel s1 key values head rs1 Hm1 Hpos1 Hk1 Hhead Hchain1
              Hfuel1 Hkey Hvals Hne Hre H1024 Hfit1)
    as (s' & Hadds & Hp' & Ho' & Hkm' & _ & _ & Hget').
  - exists s'. unfold Update. rewrite Hgets, Hdels.
    split; [done|]. split; [done|]. split; [lia|]. split; [congruence|].
    unfold Get. rewrite Hget'. f_equal.
    unfold rs1. rewrite chain_values_kill, filter_members; done.
Qed.

End AppendTotal.

Lemma X_Add_appends_behind_tail_witness :
  let s := after [OAdd key_u [str "a"; str "bb"] WriteAll; ODel key_u [str "a"]] in
  let rs := [mkRecord key_u [Tomb; Tomb; Live (str "bb")] 31 0] in
  let values := [str "dd"] in
  ∃ s', Add double_cap 8 s key_u values WriteAll = (Ret None, s')
    ∧ f_pos s' = offset s'
    ∧ offset s' = offset s + (8 + 1 + len key_u + len (enc_values values) + 16)
    ∧ keyMap s' = keyMap s
    ∧ len (bytesAddr s') = len (bytesAddr s)
    ∧ (∃ rnew, live_values (r_slots rnew) = values
         ∧ chain (bytesAddr s') (offset s') 0 (relink rs (offset s) ++ [rnew]))
    ∧ Get 8 s' key_u = Ret (chain_values rs ++ values).
Proof.
  intros s rs values.
  apply (X_Add_appends_behind_tail double_cap 8 s key_u values 0 rs).
  - vm_compute; reflexivity.
  - vm_compute; reflexivity.
  - vm_compute; reflexivity.
  - discriminate.
  - cbn [chain rs]. unfold holds, record_ok.
    repeat split; try (vm_compute; reflexivity); try (vm_compute; discriminate).
    repeat constructor; by vm_compute.
  - simpl. lia.
  - vm_compute; discriminate.
  - repeat constructor; vm_compute; discriminate.
  - discriminate.
  - vm_compute; reflexivity.
  - vm_compute; discriminate.
  - vm_compute; discriminate.
Defined.

Lemma X_Update_replaces_values_witness :
  let s := after [OAdd key_u [str "a"; str "bb"] WriteAll;
                  OAdd key_u [str "ccc"] WriteAll] in
  let values := [str "x"; str "yy"] in
  ∃ s', Update double_cap 8 s key_u values WriteAll = (Ret None, s')
    ∧ f_pos s' = offset s'
    ∧ offset s' = offset s + (8 + 1 + len key_u + len (enc_values values) + 16)
    ∧ keyMap s' = keyMap s
    ∧ Get 8 s' key_u = Ret values.
Proof.
  intros s values.
  apply (X_Update_replaces_values double_cap 8 s key_u values 0
           [mkRecord key_u [Live (str "a"); Live (str "bb")] 31 31;
            mkRecord key_u [Live (str "ccc")] 61 0]).
  - vm_compute; reflexivity.
  - vm_compute; reflexivity.
  - vm_compute; reflexivity.
  - discriminate.
  - cbn [chain]. unfold holds, record_ok.
    repeat split; try (vm_compute; reflexivity); try (vm_compute; discriminate).
    + repeat constructor; by vm_compute.
    + repeat constructor; by vm_compute.
  - simpl. lia.
  - vm_compute; discriminate.
  - repeat constructor; vm_compute; discriminate.
  - simpl. lia.
  - vm_compute; discriminate.
  - vm_compute; discriminate.
Defined.

(** ** What every call keeps *)

Lemma grows_refl s : grows s s.
Proof. unfold grows. lia. Qed.

Lemma grows_trans s1 s2 s3 : grows s1 s2 → grows s2 s3 → grows s1 s3.
Proof. unfold grows. intros (?&?&?) (?&?&?). lia. Qed.

Lemma same_ctl_grows s s' :
  same_ctl s s' → len (bytesAddr s') = len (bytesAddr s) → grows s s'.
Proof. unfold grows. intros (?&?&?) ?. lia. Qed.

Lemma len_tombstone m p : len (tombstone m p) = len m.
Proof. unfold tombstone. by rewrite len_insert, len_blit. Qed.

Lemma del_loop_len vm o total : ∀ fuel m i,
  len (snd (del_loop fuel vm m o total i)) = len m.
Proof.
  induction fuel as [|fuel IH]; intros m i; simpl; repeat case_match; try done.
  all: rewrite IH; by rewrite ?len_tombstone.
Qed.

Lemma fold_tombstone_len value p : ∀ values m,
  len (fold_left (λ m v, if HasPrefix value v then tombstone m p else m) values m)
  = len m.
Proof.
  intros values m. rewrite fold_tombstone.
  destruct (existsb _ _); by rewrite ?len_tombstone.
Qed.

Lemma delPrefix_loop_len values o total : ∀ fuel m i,
  len (snd (delPrefix_loop fuel values m o total i)) = len m.
Proof.
  induction fuel as [|fuel IH]; intros m i; simpl; repeat case_match; try done.
  all: rewrite IH; by rewrite ?fold_tombstone_len.
Qed.

Lemma del_len s o vm : len (bytesAddr (snd (del s o vm))) = len (bytesAddr s).
Proof.
  unfold del. repeat (case_match; [done|]).
  pose proof (del_loop_len vm o (bigUint64 (sub (bytesAddr s) o 8))
                (Z.to_nat (bigUint64 (sub (bytesAddr s) o 8) - 16
                           - scan_start (bytesAddr s) o))
                (bytesAddr s) (scan_start (bytesAddr s) o)) as E.
  destruct (del_loop _ _ _ _ _ _) as [[?| |] m]; done.
Qed.

Lemma delPrefix_len s o values :
  len (bytesAddr (snd (delPrefix s o values))) = len (bytesAddr s).
Proof.
  unfold delPrefix. repeat (case_match; [done|]).
  pose proof (delPrefix_loop_len values o (bigUint64 (sub (bytesAddr s) o 8))
                (Z.to_nat (bigUint64 (sub (bytesAddr s) o 8) - 16
                           - scan_start (bytesAddr s) o))
                (bytesAddr s) (scan_start (bytesAddr s) o)) as E.
  destruct (delPrefix_loop _ _ _ _ _ _) as [[?| |] m]; done.
Qed.

Lemma dels_loop_len fuel : ∀ s o vm,
  len (bytesAddr (snd (dels_loop fuel s o vm))) = len (bytesAddr s).
Proof.
  induction fuel as [|fuel IH]; intros s o vm; simpl; [done|].
  pose proof (del_len s o vm) as E.
  destruct (del s o vm) as [[d| |] s1]; simpl in *; try done.
  destruct (d =? 0); simpl; [done|]. by rewrite IH.
Qed.

Lemma delsPrefix_loop_len fuel : ∀ s o values,
  len (bytesAddr (snd (delsPrefix_loop fuel s o values))) = len (bytesAddr s).
Proof.
  induction fuel as [|fuel IH]; intros s o values; simpl; [done|].
  pose proof (delPrefix_len s o values) as E.
  destruct (delPrefix s o values) as [[d| |] s1]; simpl in *; try done.
  destruct (d =? 0); simpl; [done|]. by rewrite IH.
Qed.

Lemma dels_len fuel s key values :
  len (bytesAddr (snd (dels fuel s key values))) = len (bytesAddr s).
Proof.
  unfold dels. destruct (keyMap s !! key); [|done].
  case_decide; [done|]. apply dels_loop_len.
Qed.

Lemma delsPrefix_len fuel s key values :
  len (bytesAddr (snd (delsPrefix fuel s key values))) = len (bytesAddr s).
Proof.
  unfold delsPrefix. destruct (keyMap s !! key); [|done].
  destruct (len values =? 0); [done|]. apply delsPrefix_loop_len.
Qed.

Lemma adds_reuse_grows s o o' start value : grows s (snd (adds_reuse s o o' start value)).
Proof.
  unfold adds_reuse. repeat (case_match; [apply grows_refl|]).
  apply same_ctl_grows; [done|]. simpl. by rewrite len_blit, len_insert.
Qed.

Section Growth.

Variable growcap : Z → Z → Z.

(** The scratch buffer never outgrows its capacity, and [idx] only moves
    forward. *)
Lemma add_loop_bounds values : ∀ b cap idx b' cap' idx',
  len b ≤ cap →
  add_loop growcap values b cap idx = Ret (inr (b', cap', idx')) →
  len b' ≤ cap' ∧ idx ≤ idx'.
Proof.
  induction values as [|v vs IH]; intros b cap idx b' cap' idx' Hcap H.
  - simpl in H. inversion H; subst. lia.
  - cbn [add_loop] in H.
    destruct (if len b <? idx + len v + 2 then append1k growcap b cap else (b, cap))
      as [b1 cap1] eqn:E1.
    assert (Hcap1 : len b1 ≤ cap1).
    { destruct (len b <? idx + len v + 2); [|inversion E1; by subst].
      unfold append1k in E1. inversion E1; subst.
      rewrite len_app, len_zeros by lia.
      destruct (len b + 1024 <=? cap) eqn:E; lia. }
    destruct (255 <? len v); [done|].
    destruct (negb (idx <? len b1)); [done|].
    apply IH in H; [|by rewrite len_blit, len_insert].
    pose proof (len_nonneg v). lia.
Qed.

(** The record [add] hands to [f.Write] has exactly [total] bytes. *)
Lemma add_record_len s key values b total :
  add_record growcap s key values = Ret (inr (b, total)) →
  len b = total ∧ 0 ≤ total.
Proof.
  unfold add_record, add_header. intros H.
  set (b0 := blit (<[8%nat := z2b (len key)]> (zeros 1024)) 9 key) in H.
  set (idx0 := Z.min (len (<[8%nat := z2b (len key)]> (zeros 1024)) - 9) (len key) + 1 + 8) in H.
  assert (Hb0 : len b0 = 1024) by (unfold b0; by rewrite len_blit, len_insert).
  assert (Hidx0 : 0 ≤ idx0).
  { unfold idx0. rewrite len_insert. change (len (zeros 1024)) with 1024.
    pose proof (len_nonneg key). lia. }
  destruct (add_loop growcap values b0 1024 idx0) as [[e|[[b1 cap1] idx1]]| |] eqn:El;
    try done.
  apply add_loop_bounds in El as [Hcap Hidx]; [|lia].
  destruct (negb (idx1 + 8 <=? len b1)) eqn:E8; [done|].
  destruct (negb (idx1 + 16 <=? cap1)) eqn:E16; [done|].
  inversion H; subst. clear H.
  rewrite len_blit. unfold len at 1. rewrite length_take, length_app.
  rewrite length_blit. unfold zeros. rewrite length_replicate.
  apply negb_false_iff in E8, E16. unfold len in *. rewrite length_blit.
  clearbody idx0 b0. lia.
Qed.

Lemma add_grows s b8 key values w : grows s (snd (add growcap s b8 key values w)).
Proof.
  destruct (add growcap s b8 key values w) as [r s'] eqn:E. simpl.
  apply add_cases in E
    as [[-> _]|[(b & total & e & _ & Hw & _)|(b & total & s1 & Hrec & Hw & _ & ->)]].
  - apply grows_refl.
  - destruct w; [done|]. simpl in Hw. inversion Hw; subst. unfold grows. simpl.
    rewrite len_blit. pose proof (len_nonneg (take n b)). lia.
  - destruct w; [|done]. simpl in Hw. inversion Hw; subst.
    apply add_record_len in Hrec as [Hlen Htotal].
    unfold grows, link. cbn [f_pos offset keyMap bytesAddr].
    split; [lia|]. split; [lia|].
    destruct b8; by rewrite ?len_blit.
Qed.

Lemma adds_grows fuel s key values w : grows s (snd (adds growcap fuel s key values w)).
Proof.
  destruct (adds growcap fuel s key values w) as [r s'] eqn:E. simpl.
  apply adds_cases in E as [[-> _]|[(o & o' & start & value & _ & _ & _ & E)|(b8 & E & _)]].
  - apply grows_refl.
  - pose proof (adds_reuse_grows s o o' start value) as G. by rewrite E in G.
  - pose proof (add_grows s b8 key values w) as G.
    rewrite <- (only_err_snd (add growcap s b8 key values w)), E in G. done.
Qed.

Lemma Update_grows fuel s key values w :
  grows s (snd (Update growcap fuel s key values w)).
Proof.
  unfold Update. destruct (gets fuel s key) as [old| |]; try apply grows_refl.
  pose proof (dels_ctl fuel s key old) as C.
  pose proof (dels_len fuel s key old) as L.
  destruct (dels fuel s key old) as [[[]| |] s1]; simpl in C, L;
    try (by apply same_ctl_grows).
  eapply grows_trans; [by apply same_ctl_grows|apply adds_grows].
Qed.

Lemma step_grows fuel s c : grows s (step growcap fuel s c).
Proof.
  destruct c; simpl.
  - apply adds_grows.
  - apply same_ctl_grows; [apply dels_ctl|apply dels_len].
  - apply same_ctl_grows; [apply delsPrefix_ctl|apply delsPrefix_len].
  - apply Update_grows.
  - apply grows_refl.
  - unfold Exist. repeat case_match; simpl; apply grows_refl || (unfold grows; simpl; lia).
Qed.

Lemma run_grows fuel cs : ∀ s, grows s (run growcap fuel s cs).
Proof.
  induction cs as [|c cs IH]; intros s; simpl; [apply grows_refl|].
  eapply grows_trans; [apply step_grows|apply IH].
Qed.

(** X10. Over any sequence of calls, whatever they return - success, an error of
    [Add], a panic or a chain walk cut short - [offset] never goes back, it
    never runs ahead of the position of the file handle, the distance
    between the two never shrinks (bytes a short write left in the file
    stay between [offset] and the place of the next record), and the
    mapping keeps its length. *)
Theorem X_offset_behind_file_position fuel cs s :
  offset s ≤ f_pos s →
  offset s ≤ offset (run growcap fuel s cs)
  ∧ offset (run growcap fuel s cs) ≤ f_pos (run growcap fuel s cs)
  ∧ f_pos s - offset s
    ≤ f_pos (run growcap fuel s cs) - offset (run growcap fuel s cs)
  ∧ len (bytesAddr (run growcap fuel s cs)) = len (bytesAddr s).
Proof.
  intros Hpos. destruct (run_grows fuel cs s) as (H1 & H2 & H3). lia.
Qed.

End Growth.

Lemma X_offset_behind_file_position_witness :
  let cs := [OAdd key_u [str "a"; str "b"] WriteAll; OAdd key_u [str "c"] (WriteShort 5);
             ODel key_u [str "a"]; OUpdate key_u [str "d"; str "e"] WriteAll;
             OExist key247; OAdd key247 [big256] WriteAll] in
  offset fresh ≤ offset (run double_cap 8 fresh cs)
  ∧ offset (run double_cap 8 fresh cs) ≤ f_pos (run double_cap 8 fresh cs)
  ∧ f_pos fresh - offset fresh
    ≤ f_pos (run double_cap 8 fresh cs) - offset (run double_cap 8 fresh cs)
  ∧ len (bytesAddr (run double_cap 8 fresh cs)) = len (bytesAddr fresh).
Proof.
  intros cs.
  apply (X_offset_behind_file_position double_cap 8 cs fresh).
  vm_compute; discriminate.
Defined.

(** ** The scans of one record end *)

Lemma get_loop_ends m o total : ∀ fuel i vals,
  (Z.to_nat (total - 16 - i) ≤ fuel)%nat →
  get_loop fuel m o total i vals ≠ Timeout.
Proof.
  induction fuel as [|fuel IH]; intros i vals Hfuel; simpl.
  - destruct (total - 16 <? 0); [done|].
    by replace (i <? total - 16) with false by lia.
  - destruct (total - 16 <? 0); [done|].
    destruct (i <? total - 16) eqn:Ei; [|done]. cbn [negb].
    pose proof (b2z_range (rd m (o + i))).
    destruct (b2z (rd m (o + i)) =? 0); [apply IH; lia|].
    destruct (negb _); [done|]. apply IH. lia.
Qed.

Lemma empty1_loop_ends m o total : ∀ fuel i first start t,
  (Z.to_nat (total - 16 - i) ≤ fuel)%nat →
  empty1_loop fuel m o total i first start t ≠ Timeout.
Proof.
  induction fuel as [|fuel IH]; intros i first start t Hfuel; simpl.
  - destruct (total - 16 <? 0); [done|].
    by replace (i <? total - 16) with false by lia.
  - destruct (total - 16 <? 0); [done|].
    destruct (i <? total - 16) eqn:Ei; [|done]. cbn [negb].
    pose proof (b2z_range (rd m (o + i))).
    destruct (b2z (rd m (o + i)) =? 0).
    + destruct first; apply IH; lia.
    + destruct t; [done|]. apply IH. lia.
Qed.

Lemma del_loop_ends vm o total : ∀ fuel m i,
  (Z.to_nat (total - 16 - i) ≤ fuel)%nat →
  fst (del_loop fuel vm m o total i) ≠ Timeout.
Proof.
  induction fuel as [|fuel IH]; intros m i Hfuel; simpl.
  - destruct (total - 16 <? 0); [done|].
    by replace (i <? total - 16) with false by lia.
  - destruct (total - 16 <? 0); [done|].
    destruct (i <? total - 16) eqn:Ei; [|done]. cbn [negb].
    pose proof (b2z_range (rd m (o + i))).
    destruct (b2z (rd m (o + i)) =? 0); [apply IH; lia|].
    destruct (negb _); [done|]. apply IH. lia.
Qed.

Lemma delPrefix_loop_ends values o total : ∀ fuel m i,
  (Z.to_nat (total - 16 - i) ≤ fuel)%nat →
  fst (delPrefix_loop fuel values m o total i) ≠ Timeout.
Proof.
  induction fuel as [|fuel IH]; intros m i Hfuel; simpl.
  - destruct (total - 16 <? 0); [done|].
    by replace (i <? total - 16) with false by lia.
  - destruct (total - 16 <? 0); [done|].
    destruct (i <? total - 16) eqn:Ei; [|done]. cbn [negb].
    pose proof (b2z_range (rd m (o + i))).
    destruct (b2z (rd m (o + i)) =? 0); [apply IH; lia|].
    destruct (negb _); [done|]. apply IH. lia.
Qed.

(** X11. The loops of [get], [empty1], [del] and [delPrefix] over the value area
    of one record end, whatever bytes the mapping holds and whatever offset
    they are given: the index moves forward by at least one byte in every
    iteration. *)
Theorem X_record_scans_end s o vm prefixes :
  get s o ≠ Timeout
  ∧ empty1 s o ≠ Timeout
  ∧ fst (del s o vm) ≠ Timeout
  ∧ fst (delPrefix s o prefixes) ≠ Timeout.
Proof.
  split; [|split; [|split]].
  - unfold get. repeat (case_match; [done|]).
    pose proof (get_loop_ends (bytesAddr s) o (bigUint64 (sub (bytesAddr s) o 8))
                  (Z.to_nat (bigUint64 (sub (bytesAddr s) o 8) - 16
                             - scan_start (bytesAddr s) o))
                  (scan_start (bytesAddr s) o) [] ltac:(lia)) as E.
    destruct (get_loop _ _ _ _ _ _); done.
  - unfold empty1. repeat (case_match; [done|]).
    pose proof (empty1_loop_ends (bytesAddr s) o (bigUint64 (sub (bytesAddr s) o 8))
                  (Z.to_nat (bigUint64 (sub (bytesAddr s) o 8) - 16
                             - scan_start (bytesAddr s) o))
                  (scan_start (bytesAddr s) o) false 0 false ltac:(lia)) as E.
    destruct (empty1_loop _ _ _ _ _ _ _ _) as [[[[[] ?] ?] ?]| |]; done.
  - unfold del. repeat (case_match; [done|]).
    pose proof (del_loop_ends vm o (bigUint64 (sub (bytesAddr s) o 8))
                  (Z.to_nat (bigUint64 (sub (bytesAddr s) o 8) - 16
                             - scan_start (bytesAddr s) o))
                  (bytesAddr s) (scan_start (bytesAddr s) o) ltac:(lia)) as E.
    destruct (del_loop _ _ _ _ _ _) as [[?| |] m]; done.
  - unfold delPrefix. repeat (case_match; [done|]).
    pose proof (delPrefix_loop_ends prefixes o (bigUint64 (sub (bytesAddr s) o 8))
                  (Z.to_nat (bigUint64 (sub (bytesAddr s) o 8) - 16
                             - scan_start (bytesAddr s) o))
                  (bytesAddr s) (scan_start (bytesAddr s) o) ltac:(lia)) as E.
    destruct (delPrefix_loop _ _ _ _ _ _) as [[?| |] m]; done.
Qed.

(** ** [Exist] and the sentinel *)

(** [get], and with it the walk of [gets], reads nothing but the mapping. *)
Lemma get_bytes s s' o : bytesAddr s' = bytesAddr s → get s' o = get s o.
Proof. intros E. unfold get. by rewrite E. Qed.

Lemma gets_loop_bytes s s' : bytesAddr s' = bytesAddr s →
  ∀ fuel o lists, gets_loop fuel s' o lists = gets_loop fuel s o lists.
Proof.
  intros E. induction fuel as [|fuel IH]; intros o lists; [done|]. simpl.
  rewrite (get_bytes s s' o E).
  destruct (get s o) as [[vals d]| |]; try done.
  destruct (d =? 0); [done|]. apply IH.
Qed.

(** X12. [Exist] answers whether the index holds a real entry for the key. The
    sentinel it stores for a key without one is invisible to [Get]: every
    [Get], of this key or another, returns what it returned before; the
    mapping, [offset] and the file position are untouched, and a second
    [Exist] gives the same answer and changes nothing. *)
Theorem X_Exist_sentinel_invisible fuel s key k :
  (fst (Exist s key) = true ↔ ∃ o, keyMap s !! key = Some o ∧ o ≠ notExist)
  ∧ Get fuel (snd (Exist s key)) k = Get fuel s k
  ∧ bytesAddr (snd (Exist s key)) = bytesAddr s
  ∧ offset (snd (Exist s key)) = offset s
  ∧ f_pos (snd (Exist s key)) = f_pos s
  ∧ Exist (snd (Exist s key)) key = (fst (Exist s key), snd (Exist s key)).
Proof.
  assert (Hget : (keyMap s !! key = None ∨ keyMap s !! key = Some notExist) →
            gets fuel (mkMsearch (f_pos s) (offset s) (<[key := notExist]> (keyMap s))
                         (bytesAddr s)) k = gets fuel s k).
  { intros Hk. unfold gets. cbn [keyMap].
    destruct (decide (key = k)) as [->|Hne].
    - rewrite lookup_insert_eq. cbn [Z.eqb notExist].
      destruct Hk as [-> | ->]; done.
    - rewrite lookup_insert_ne by done.
      destruct (keyMap s !! k) as [o|]; [|done].
      destruct (o =? notExist); [done|].
      by apply gets_loop_bytes. }
  unfold Exist. destruct (keyMap s !! key) as [o|] eqn:Ek.
  - destruct (o =? notExist) eqn:Eo; cbn [negb fst snd].
    + apply Z.eqb_eq in Eo. subst o.
      split; [split; [done|]; by intros (o & [= <-] & Ho)|].
      split; [apply Hget; by right|].
      split; [done|]. split; [done|]. split; [done|].
      cbn [keyMap]. rewrite lookup_insert_eq. cbn [Z.eqb notExist negb].
      cbn [f_pos offset bytesAddr]. by rewrite insert_insert_eq.
    + split; [split; [intros _; exists o; split; [done|lia]|done]|].
      split; [done|]. split; [done|]. split; [done|]. split; [done|].
      by rewrite Ek, Eo.
  - cbn [fst snd].
    split; [split; [done|]; by intros (o & [=] & _)|].
    split; [apply Hget; by left|].
    split; [done|]. split; [done|]. split; [done|].
    cbn [keyMap]. rewrite lookup_insert_eq. cbn [Z.eqb notExist negb].
    cbn [f_pos offset bytesAddr]. by rewrite insert_insert_eq.
Qed.

(** ** Writing a value into a gap of the head record *)

Lemma first_gap_live pre xs : ∀ i,
  first_gap (map Live pre ++ xs) i = first_gap xs (i + len (enc_values pre)).
Proof.
  induction pre as [|u pre IH]; intros i.
  - simpl. f_equal. change (len (enc_values [])) with 0. lia.
  - simpl. rewrite IH, enc_values_cons, len_app, len_enc_value. f_equal. lia.
Qed.

Lemma tomb_run_tombs n rest :
  tomb_run (replicate n Tomb ++ rest) = Z.of_nat n + tomb_run rest.
Proof. induction n as [|n IH]; [simpl; lia|]. simpl replicate. simpl. lia. Qed.

Lemma insert_blit m p x (bs : list byte) :
  0 ≤ p → p < len m →
  blit (<[Z.to_nat p := x]> m) (p + 1) bs = blit m p (x :: bs).
Proof.
  intros Hp Hlt. apply list_eq. intros i.
  rewrite !lookup_blit, list_lookup_insert, length_insert. unfold len in *.
  simpl length.
  repeat case_decide; try lia; try done.
  - replace (i - Z.to_nat p)%nat with (S (i - Z.to_nat (p + 1))) by lia. done.
  - destruct_and?. subst. by replace (Z.to_nat p - Z.to_nat p)%nat with 0%nat by lia.
Qed.

(** Replacing the middle part of a stretch of bytes that is known. *)
Lemma blit_patch m p (A B0 B C : list byte) :
  0 ≤ p → p + len (A ++ B0 ++ C) ≤ len m →
  sub m p (len (A ++ B0 ++ C)) = A ++ B0 ++ C → len B = len B0 →
  blit m p (A ++ B ++ C) = blit m (p + len A) B.
Proof.
  intros Hp Hfit Hsub HB.
  pose proof (len_nonneg A). pose proof (len_nonneg B0). pose proof (len_nonneg C).
  rewrite !len_app in Hfit. rewrite (len_app A) in Hsub.
  apply sub_app_inv in Hsub as [HA Hrest]; [|done].
  rewrite len_app in Hrest.
  apply sub_app_inv in Hrest as [_ HC]; [|lia].
  rewrite <- blit_blit_app by done.
  rewrite (blit_id m p A) by (done || lia).
  rewrite <- blit_blit_app by lia.
  apply blit_id; rewrite ?len_blit; try lia.
  rewrite sub_blit_outside by lia. by rewrite HB.
Qed.

(** The body of the in-place branch of [adds] on a record the mapping
    holds, for a gap of at least [1 + |v|] tombstone bytes behind live
    values. *)
Lemma adds_reuse_holds s o r pre k rest v :
  holds (bytesAddr s) o r → len (bytesAddr s) < 2 ^ 63 →
  r_slots r = map Live pre ++ replicate (S (length v) + k) Tomb ++ rest →
  1 ≤ len v ≤ 255 →
  ∃ m', adds_reuse s o o (8 + 1 + len (r_key r) + len (enc_values pre)) v
        = (Ret None, set_bytes s m')
    ∧ len m' = len (bytesAddr s)
    ∧ holds m' o (mkRecord (r_key r) (map Live pre ++ Live v :: replicate k Tomb ++ rest)
                    (r_self_end r) (r_next r))
    ∧ ∀ lo n, 0 ≤ lo → lo + n ≤ o ∨ o + r_total r ≤ lo →
        sub m' lo n = sub (bytesAddr s) lo n.
Proof.
  intros H Hm Hslots Hv.
  set (m := bytesAddr s) in *.
  set (start := 8 + 1 + len (r_key r) + len (enc_values pre)).
  pose proof (r_total_pos r) as Ht.
  pose proof (len_nonneg (r_key r)) as Hk.
  pose proof (len_nonneg (enc_values pre)) as Hpre.
  pose proof (len_nonneg (enc_slots rest)) as Hrest.
  pose proof (holds_parts _ o r H) as (_ & _ & Harea & _).
  pose proof H as (Ho & Hfit & _ & Hkey & Hok & Hnx).
  assert (Henc : enc_slots (r_slots r)
            = enc_values pre ++ zeros (1 + len v)
                ++ (zeros (Z.of_nat k) ++ enc_slots rest)).
  { rewrite Hslots, !enc_slots_app, enc_slots_Live, enc_slots_tombs.
    f_equal. rewrite app_assoc. f_equal.
    rewrite zeros_app by lia. unfold zeros, len. f_equal. lia. }
  assert (Hlen : len (enc_slots (r_slots r))
            = len (enc_values pre) + (1 + len v) + Z.of_nat k + len (enc_slots rest)).
  { rewrite Henc, !len_app, !len_zeros by lia. lia. }
  exists (blit m (o + start) (enc_value v)).
  split; [|split; [by rewrite len_blit|split]].
  - unfold adds_reuse. fold m.
    rewrite (total_holds _ o r H Hm).
    rewrite !in_slice_true by lia. cbn [negb].
    replace ((0 <=? start) && (start <? r_total r)) with true
      by (symmetry; apply andb_true_iff; unfold r_total, start; split; lia).
    cbn [negb]. f_equal. f_equal.
    rewrite take_ge by (unfold r_total, start, len in *; lia).
    rewrite insert_blit by (unfold r_total, start in *; lia). done.
  - set (slots' := map Live pre ++ Live v :: replicate k Tomb ++ rest).
    assert (Henc' : enc_slots slots'
              = enc_values pre ++ enc_value v ++ (zeros (Z.of_nat k) ++ enc_slots rest)).
    { unfold slots'. rewrite enc_slots_app, enc_slots_Live, enc_slots_cons,
        enc_slots_app, enc_slots_tombs.
      do 3 f_equal. unfold zeros. f_equal. lia. }
    assert (Hok' : Forall slot_ok slots').
    { rewrite Hslots in Hok. apply Forall_app in Hok as [Hp Hq].
      apply Forall_app in Hq as [_ Hr].
      unfold slots'. apply Forall_app. split; [done|].
      apply Forall_cons. split; [done|]. apply Forall_app. split; [|done].
      apply Forall_forall. intros y Hy. apply elem_of_replicate in Hy as [-> _]. done. }
    pose proof (holds_area m o r slots' H Hok') as Hh.
    rewrite Henc' in Hh at 2.
    rewrite (blit_patch m (o + (8 + 1 + len (r_key r))) (enc_values pre)
               (zeros (1 + len v)) (enc_value v)) in Hh.
    + replace (o + (8 + 1 + len (r_key r)) + len (enc_values pre)) with (o + start) in Hh
        by (unfold start; lia).
      apply Hh. rewrite Henc', Hlen, !len_app, len_enc_value, len_zeros by lia. lia.
    + lia.
    + rewrite <- Henc. unfold r_total in Hfit. lia.
    + by rewrite <- Henc.
    + rewrite len_enc_value, len_zeros by lia. done.
  - intros lo n Hlo Hout. apply sub_blit_outside; [done|unfold start; lia|].
    rewrite len_enc_value. unfold r_total, start in *. lia.
Qed.

(** [adds] with one value on a key whose head record has a gap that takes
    the value. *)
Lemma adds_fills_gap (growcap : Z → Z → Z) fuel s key v w head r rs pre k rest :
  len (bytesAddr s) < 2 ^ 63 →
  keyMap s !! key = Some head → head ≠ notExist →
  chain (bytesAddr s) (offset s) head (r :: rs) → (length rs < fuel)%nat →
  r_slots r = map Live pre ++ replicate (S (length v) + k) Tomb ++ rest →
  1 ≤ len v ≤ 255 →
  ∃ s', adds growcap fuel s key [v] w = (Ret None, s')
    ∧ same_ctl s s' ∧ len (bytesAddr s') = len (bytesAddr s)
    ∧ chain (bytesAddr s') (offset s') head
        (mkRecord (r_key r) (map Live pre ++ Live v :: replicate k Tomb ++ rest)
           (r_self_end r) (r_next r) :: rs)
    ∧ gets fuel s key = Ret (pre ++ live_values rest ++ chain_values rs)
    ∧ gets fuel s' key = Ret (pre ++ v :: live_values rest ++ chain_values rs).
Proof.
  intros Hm Hk Hhead Hchain Hfuel Hslots Hv.
  set (start := 8 + 1 + len (r_key r) + len (enc_values pre)).
  assert (Hgap : chain_gap head (r :: rs)
            = (head, start, start + 1 + (Z.of_nat (length v + k) + tomb_run rest), true)).
  { cbn [chain_gap]. unfold record_gap. rewrite Hslots, first_gap_live.
    change (replicate (S (length v) + k) Tomb)
      with (Tomb :: replicate (length v + k) Tomb).
    cbn [app first_gap]. by rewrite tomb_run_tombs. }
  pose proof (chain_head _ _ _ _ _ Hchain) as Hr.
  destruct (adds_reuse_holds s head r pre k rest v Hr Hm Hslots Hv)
    as (m' & Hreuse & Hlen' & Hr' & Hframe).
  pose proof (tomb_run_nonneg rest) as Htr.
  assert (Hadds : adds growcap fuel s key [v] w = (Ret None, set_bytes s m')).
  { unfold adds. change (len [v] =? 0) with false. cbv iota.
    rewrite Hk. replace (head =? notExist) with false by lia.
    rewrite (empty_chain s (offset s) Hm (r :: rs) head fuel Hchain) by (simpl; lia).
    rewrite Hgap. cbn [andb].
    replace (len v <? start + 1 + (Z.of_nat (length v + k) + tomb_run rest) - start)
      with true by (symmetry; apply Z.ltb_lt; unfold len; clearbody start; lia).
    done. }
  set (r' := mkRecord (r_key r) (map Live pre ++ Live v :: replicate k Tomb ++ rest)
               (r_self_end r) (r_next r)) in *.
  assert (Ht' : r_total r' = r_total r).
  { unfold r_total, r'. cbn [r_key r_slots].
    rewrite Hslots, !enc_slots_app, enc_slots_cons, enc_slots_app, !enc_slots_tombs,
      !len_app. cbn [enc_slot]. rewrite len_enc_value.
    unfold len. rewrite !length_replicate. lia. }
  assert (Hchain' : chain m' (offset s) head (r' :: rs)).
  { destruct Hchain as [_ Hrest]. pose proof (r_total_pos r).
    cbn [chain]. split; [done|]. cbn [r_next r']. rewrite Ht'.
    destruct rs as [|r2 rs2]; [done|].
    destruct Hrest as (Hne & Hord & Hrest). split; [done|]. split; [done|].
    apply (chain_frame_from (bytesAddr s)); [exact Hrest|exact Hlen'|].
    intros lo n Hlo Hge. apply Hframe; [done|lia]. }
  exists (set_bytes s m'). split; [done|]. split; [done|]. split; [done|].
  split; [done|]. split.
  - rewrite (gets_chain fuel s key head (r :: rs) Hm Hk Hhead Hchain) by (simpl; lia).
    f_equal. unfold chain_values. cbn [map concat].
    rewrite Hslots, !live_values_app, live_values_Live, live_values_tombs.
    by rewrite <- app_assoc.
  - assert (Hm' : len (bytesAddr (set_bytes s m')) < 2 ^ 63)
      by (cbn [bytesAddr set_bytes]; by rewrite Hlen').
    rewrite (gets_chain fuel (set_bytes s m') key head (r' :: rs) Hm' Hk Hhead Hchain')
      by (simpl; lia).
    f_equal. unfold chain_values. cbn [map concat r_slots r'].
    rewrite live_values_app, live_values_Live. cbn [live_values].
    rewrite live_values_app, live_values_tombs.
    by rewrite <- app_assoc.
Qed.

(** X7. Add of one value on a key whose head record has a value area that
    starts with live values (possibly none) followed by a run of at least
    [1 + |v|] tombstone bytes: the value is written in
    place at the start of the run. Nothing is appended and the file is not
    written (the outcome does not depend on how [f.Write] would behave);
    the index, [offset] and the file position stay; [Get] returns the
    value at the place of the gap, in front of every value stored behind
    it. The value has 1 to 255 bytes.
    The chain is well formed ([chain]): every record lies in front of
    [offset] and is laid out as [add] writes it, with a record key of at
    most 246 bytes, a value area of slots of 1 to 255 bytes and tombstone
    bytes, and a [next] field that is 0 in the tail and otherwise the
    offset of the next record, which lies behind it. The index entry of
    the key is a real offset, the mapping is shorter than 2^63 bytes and
    the walks have at least one step per record. *)
Theorem X_Add_fills_gap_of_head (growcap : Z → Z → Z) fuel s key v w head r rs pre k rest :
  len (bytesAddr s) < 2 ^ 63 →
  keyMap s !! key = Some head → head ≠ notExist →
  chain (bytesAddr s) (offset s) head (r :: rs) → (length rs < fuel)%nat →
  r_slots r = map Live pre ++ replicate (S (length v) + k) Tomb ++ rest →
  1 ≤ len v ≤ 255 →
  ∃ s', Add growcap fuel s key [v] w = (Ret None, s')
    ∧ same_ctl s s' ∧ len (bytesAddr s') = len (bytesAddr s)
    ∧ chain (bytesAddr s') (offset s') head
        (mkRecord (r_key r) (map Live pre ++ Live v :: replicate k Tomb ++ rest)
           (r_self_end r) (r_next r) :: rs)
    ∧ Get fuel s key = Ret (pre ++ live_values rest ++ chain_values rs)
    ∧ Get fuel s' key = Ret (pre ++ v :: live_values rest ++ chain_values rs).
Proof. apply adds_fills_gap. Qed.

Lemma X_Add_fills_gap_of_head_witness :
  let s := after [OAdd key_u [str "a"; str "bb"; str "cccc"] WriteAll;
                  ODel key_u [str "bb"]] in
  let r := mkRecord key_u [Live (str "a"); Tomb; Tomb; Tomb; Live (str "cccc")] 36 0 in
  ∃ s', Add double_cap 8 s key_u [str "x"] (WriteShort 0) = (Ret None, s')
    ∧ same_ctl s s' ∧ len (bytesAddr s') = len (bytesAddr s)
    ∧ chain (bytesAddr s') (offset s') 0
        (mkRecord (r_key r)
           (map Live [str "a"] ++ Live (str "x") :: replicate 1 Tomb ++ [Live (str "cccc")])
           (r_self_end r) (r_next r) :: [])
    ∧ Get 8 s key_u = Ret ([str "a"] ++ live_values [Live (str "cccc")] ++ chain_values [])
    ∧ Get 8 s' key_u
      = Ret ([str "a"] ++ str "x" :: live_values [Live (str "cccc")] ++ chain_values []).
Proof.
  intros s r.
  apply (X_Add_fills_gap_of_head double_cap 8 s key_u (str "x") (WriteShort 0) 0 r []
           [str "a"] 1 [Live (str "cccc")]).
  - vm_compute; reflexivity.
  - vm_compute; reflexivity.
  - discriminate.
  - cbn [chain r]. unfold holds, record_ok.
    repeat split; try (vm_compute; reflexivity); try (vm_compute; discriminate).
    repeat constructor; by vm_compute.
  - simpl. lia.
  - reflexivity.
  - vm_compute. split; discriminate.
Defined.

(** ** Deleting touches the records of the key only *)

Lemma chain_frame_apart m m' bound o rs : ∀ rs' o',
  chain m bound o' rs' → len m' = len m →
  (∀ lo n, 0 ≤ lo → apart o rs lo (lo + n) → sub m' lo n = sub m lo n) →
  chains_apart o rs o' rs' → chain m' bound o' rs'.
Proof.
  induction rs' as [|r' rest IH]; intros o' H Hlen Hframe Hap; [done|].
  destruct H as [Hr H]. destruct Hap as [Hap1 Hap2].
  split.
  - apply (holds_frame m); [done..|]. apply Hframe; [by destruct Hr|done].
  - destruct rest as [|r2 rest2]; [done|].
    destruct H as (Hne & Hord & Hrest). split; [done|]. split; [done|].
    by apply IH.
Qed.

Lemma dels_frame fuel s key values head rs :
  len (bytesAddr s) < 2 ^ 63 →
  keyMap s !! key = Some head →
  chain (bytesAddr s) (offset s) head rs → (length rs ≤ fuel)%nat →
  ∀ lo n, 0 ≤ lo → apart head rs lo (lo + n) →
    sub (bytesAddr (snd (dels fuel s key values))) lo n = sub (bytesAddr s) lo n.
Proof.
  intros Hm Hk Hchain Hfuel lo n Hlo Hap. unfold dels. rewrite Hk.
  case_decide; [done|].
  destruct (dels_loop_chain (list_to_set values) (offset s) rs s head fuel Hm Hchain Hfuel)
    as (s' & -> & _ & _ & _ & Hframe).
  by apply Hframe.
Qed.

Lemma delsPrefix_frame fuel s key values head rs :
  len (bytesAddr s) < 2 ^ 63 →
  keyMap s !! key = Some head →
  chain (bytesAddr s) (offset s) head rs → (length rs ≤ fuel)%nat →
  ∀ lo n, 0 ≤ lo → apart head rs lo (lo + n) →
    sub (bytesAddr (snd (delsPrefix fuel s key values))) lo n = sub (bytesAddr s) lo n.
Proof.
  intros Hm Hk Hchain Hfuel lo n Hlo Hap. unfold delsPrefix. rewrite Hk.
  destruct (len values =? 0); [done|].
  destruct (delsPrefix_loop_chain values (offset s) rs s head fuel Hm Hchain Hfuel)
    as (s' & -> & _ & _ & _ & Hframe).
  by apply Hframe.
Qed.

(** X13. Del and DelByPrefix on a key whose chain the mapping holds change no
    byte outside the records of that chain. So for every other key with a
    real index entry and a chain the mapping holds, whose records lie
    outside those of the first chain, [Get] returns after the call what it
    returned before. Both chains are well formed ([chain]): every record
    lies in front of [offset] and is laid out as [add] writes it, with a
    record key of at most 246 bytes, a value area of slots of 1 to 255
    bytes and tombstone bytes, and a [next] field that is 0 in the tail and
    otherwise the offset of the next record, which lies behind it. The
    mapping is shorter than 2^63 bytes and the walks have at least one step
    per record. *)
Theorem X_Del_touches_own_records_only fuel s key values head rs :
  len (bytesAddr s) < 2 ^ 63 →
  keyMap s !! key = Some head →
  chain (bytesAddr s) (offset s) head rs → (length rs ≤ fuel)%nat →
  ∀ s', s' = snd (Del fuel s key values) ∨ s' = snd (DelByPrefix fuel s key values) →
    (∀ lo n, 0 ≤ lo → apart head rs lo (lo + n) →
       sub (bytesAddr s') lo n = sub (bytesAddr s) lo n)
    ∧ ∀ k' head' rs',
        keyMap s !! k' = Some head' → head' ≠ notExist →
        chain (bytesAddr s) (offset s) head' rs' → (length rs' ≤ fuel)%nat →
        chains_apart head rs head' rs' →
        Get fuel s' k' = Ret (chain_values rs') ∧ Get fuel s k' = Ret (chain_values rs').
Proof.
  intros Hm Hk Hchain Hfuel s' Hs'.
  assert (Hframe : ∀ lo n, 0 ≤ lo → apart head rs lo (lo + n) →
            sub (bytesAddr s') lo n = sub (bytesAddr s) lo n).
  { destruct Hs' as [-> | ->].
    - by apply (dels_frame fuel s key values head rs).
    - by apply (delsPrefix_frame fuel s key values head rs). }
  assert (Hctl : same_ctl s s' ∧ len (bytesAddr s') = len (bytesAddr s)).
  { destruct Hs' as [-> | ->].
    - split; [apply dels_ctl|apply dels_len].
    - split; [apply delsPrefix_ctl|apply delsPrefix_len]. }
  destruct Hctl as ((Hp & Ho & Hkm) & Hlen).
  split; [done|].
  intros k' head' rs' Hk' Hhead' Hchain' Hfuel' Hap.
  split; [|by apply (gets_chain fuel s k' head' rs')].
  unfold Get. apply (gets_chain fuel s' k' head' rs'); try done.
  - by rewrite Hlen.
  - by rewrite Hkm.
  - rewrite Ho. by apply (chain_frame_apart (bytesAddr s) _ _ head rs).
Qed.

(** Discharging [holds] for a concrete record by evaluation. *)
Ltac holds_concrete :=
  unfold holds, record_ok;
  split; [vm_compute; discriminate|];
  split; [vm_compute; discriminate|];
  split; [vm_compute; reflexivity|];
  split; [vm_compute; discriminate|];
  split;
    [repeat (apply Forall_cons; split;
               [vm_compute; first [exact I | split; discriminate]|]);
     constructor|];
  vm_compute; split; [discriminate|reflexivity].

Lemma X_Del_touches_own_records_only_witness :
  let s := after [OAdd key_u [str "a"; str "bb"] WriteAll;
                  OAdd (str "w") [str "a"; str "c"] WriteAll;
                  OAdd key_u [str "a"] WriteAll] in
  let rs := [mkRecord key_u [Live (str "a"); Live (str "bb")] 31 61;
             mkRecord key_u [Live (str "a")] 89 0] in
  let rs' := [mkRecord (str "w") [Live (str "a"); Live (str "c")] 61 0] in
  let s' := snd (Del 8 s key_u [str "a"]) in
  (∀ lo n, 0 ≤ lo → apart 0 rs lo (lo + n) →
     sub (bytesAddr s') lo n = sub (bytesAddr s) lo n)
  ∧ Get 8 s' (str "w") = Ret (chain_values rs')
  ∧ Get 8 s (str "w") = Ret (chain_values rs').
Proof.
  intros s rs rs' s'.
  assert (Hcw : chain (bytesAddr s) (offset s) 31 rs').
  { cbn [chain rs']. split; [holds_concrete|].
    split; [reflexivity|vm_compute; discriminate]. }
  assert (Hkw : keyMap s !! str "w" = Some 31) by (vm_compute; reflexivity).
  assert (Hap : chains_apart 0 rs 31 rs').
  { cbn [chains_apart apart rs rs'].
    split; [|exact I].
    split; [right; vm_compute; discriminate|].
    split; [left; vm_compute; discriminate|exact I]. }
  assert (Hc : chain (bytesAddr s) (offset s) 0 rs).
  { cbn [chain rs]. split; [holds_concrete|].
    split; [vm_compute; discriminate|].
    split; [vm_compute; discriminate|].
    split; [holds_concrete|].
    split; [reflexivity|vm_compute; discriminate]. }
  assert (Hf : (length rs ≤ 8)%nat) by (simpl; lia).
  assert (Hfw : (length rs' ≤ 8)%nat) by (simpl; lia).
  assert (Hnw : 31 ≠ notExist) by discriminate.
  assert (Hk : keyMap s !! key_u = Some 0) by (vm_compute; reflexivity).
  assert (Hm : len (bytesAddr s) < 2 ^ 63) by (vm_compute; reflexivity).
  exact (match X_Del_touches_own_records_only 8 s key_u [str "a"] 0 rs Hm Hk Hc Hf s'
                 (or_introl eq_refl) with
         | conj Hframe Hother =>
             conj Hframe (Hother (str "w") 31 rs' Hkw Hnw Hcw Hfw Hap)
         end).
Defined.

(** ** Creating the chain of a key *)

Section Create.

Variable growcap : Z → Z → Z.

(** X14. Add on a key without a real index entry (absent, or marked by [Exist]),
    in an engine whose file position equals [offset] (which is not
    negative) and whose mapping is shorter than 2^63 bytes, with a key of
    at most 246 bytes, a non-empty list of values of 1 to 255 bytes and a
    record of at most 1024 bytes that fits the mapping behind [offset] and
    is written in full: the call succeeds, the record is stored at
    [offset], the index maps the key to it (other entries stay), [offset]
    and the file position advance by the record length, and [Get] (with at
    least one step) returns exactly the values, in order. *)
Theorem X_Add_creates_chain fuel s key values :
  len (bytesAddr s) < 2 ^ 63 → f_pos s = offset s → 0 ≤ offset s →
  keyMap s !! key = None ∨ keyMap s !! key = Some notExist →
  len key ≤ 246 → values ≠ [] → Forall (λ v, 1 ≤ len v ≤ 255) values →
  8 + 1 + len key + len (enc_values values) + 16 ≤ 1024 →
  offset s + (8 + 1 + len key + len (enc_values values) + 16) ≤ len (bytesAddr s) →
  (1 ≤ fuel)%nat →
  ∃ s', Add growcap fuel s key values WriteAll = (Ret None, s')
    ∧ f_pos s' = offset s'
    ∧ offset s' = offset s + (8 + 1 + len key + len (enc_values values) + 16)
    ∧ keyMap s' = <[key := offset s]> (keyMap s)
    ∧ len (bytesAddr s') = len (bytesAddr s)
    ∧ Get fuel s' key = Ret values.
Proof.
  intros Hm Hpos Hoff Hfresh Hkey Hne Hvals H1024 Hfit Hfuel.
  assert (H255 : Forall (λ v, len v ≤ 255) values)
    by (apply (Forall_impl _ _ _ Hvals); intros v Hv; simpl in Hv; lia).
  assert (H1 : Forall (λ v, 1 ≤ len v) values)
    by (apply (Forall_impl _ _ _ Hvals); intros v Hv; simpl in Hv; lia).
  destruct (add_written growcap s None key values H255 H1024)
    as (s' & Hadd & Hp' & Ho' & Hkm' & Hlen').
  assert (Hadds : adds growcap fuel s key values WriteAll = (Ret None, s')).
  { unfold adds. destruct values as [|v vs]; [done|].
    replace (len (v :: vs) =? 0) with false
      by (rewrite len_cons; pose proof (len_nonneg vs); lia).
    destruct Hfresh as [-> | ->]; [|change (notExist =? notExist) with true; cbv iota];
      by rewrite Hadd. }
  destruct (adds_fresh_roundtrip growcap fuel s key values WriteAll s'
              Hm Hpos Hoff Hfresh Hkey Hne H1 Hfit Hfuel Hadds) as (_ & _ & Hget).
  exists s'. split; [done|]. split; [lia|]. split; [done|].
  split; [|by split].
  rewrite Hkm'. unfold publish.
  destruct Hfresh as [-> | ->]; [done|]. by change (notExist =? notExist) with true.
Qed.

(** The scratch buffer of [add] has 1024 bytes, and it grows only when the
    next value and two more bytes do not fit. A record whose values end
    between byte 1009 and byte 1023 of the buffer leaves less than 16 bytes
    for the trailer: [PutUint64(b[idx:], ..)] or [b[:total]] is out of
    range. *)
Lemma add_record_overflows s key values :
  Forall (λ v, len v ≤ 255) values →
  1025 ≤ 8 + 1 + len key + len (enc_values values) + 16 ≤ 1039 →
  add_record growcap s key values = Panic.
Proof.
  intros Hall Hrange.
  pose proof (len_nonneg key) as Hk. pose proof (len_nonneg (enc_values values)) as Hv.
  unfold add_record. rewrite add_header_spec by lia.
  rewrite add_loop_fits by (done || lia).
  replace (len (zeros 8 ++ z2b (len key) :: key) + len (enc_values values) + 16 <=? 1024)
    with false by (rewrite len_header0; lia).
  by destruct (negb _).
Qed.

(** X15. Add panics, and leaves the engine as it was, whenever it has to build
    a record of 1025 to 1039 bytes from values of at most 255 bytes each:
    on a key without a real index entry, and in [add] whatever the tail. *)
Theorem X_Add_panics_at_buffer_end fuel s b8 key values w :
  values ≠ [] → Forall (λ v, len v ≤ 255) values →
  1025 ≤ 8 + 1 + len key + len (enc_values values) + 16 ≤ 1039 →
  add growcap s b8 key values w = (Panic, s)
  ∧ (keyMap s !! key = None ∨ keyMap s !! key = Some notExist →
     Add growcap fuel s key values w = (Panic, s)).
Proof.
  intros Hne Hall Hrange.
  assert (Hadd : ∀ b8, add growcap s b8 key values w = (Panic, s)).
  { intros b. unfold add. by rewrite add_record_overflows. }
  split; [apply Hadd|]. intros Hfresh. unfold Add, adds.
  destruct values as [|v vs]; [done|].
  replace (len (v :: vs) =? 0) with false
    by (rewrite len_cons; pose proof (len_nonneg vs); lia).
  destruct Hfresh as [-> | ->]; [|change (notExist =? notExist) with true; cbv iota];
    by rewrite Hadd.
Qed.

End Create.

Lemma X_Add_creates_chain_witness :
  let s := snd (Exist fresh key_u) in
  let values := [str "alice"; str "bob"] in
  ∃ s', Add double_cap 8 s key_u values WriteAll = (Ret None, s')
    ∧ f_pos s' = offset s'
    ∧ offset s' = offset s + (8 + 1 + len key_u + len (enc_values values) + 16)
    ∧ keyMap s' = <[key_u := offset s]> (keyMap s)
    ∧ len (bytesAddr s') = len (bytesAddr s)
    ∧ Get 8 s' key_u = Ret values.
Proof.
  intros s values.
  apply (X_Add_creates_chain double_cap 8 s key_u values).
  - vm_compute; reflexivity.
  - vm_compute; reflexivity.
  - vm_compute; discriminate.
  - right. vm_compute; reflexivity.
  - vm_compute; discriminate.
  - discriminate.
  - repeat (apply Forall_cons; split; [vm_compute; split; discriminate|]). constructor.
  - vm_compute; discriminate.
  - vm_compute; discriminate.
  - lia.
Defined.

Lemma X_Add_panics_at_buffer_end_witness :
  let values := replicate 4 (replicate 249 "x"%byte) in
  add double_cap fresh None key_u values WriteAll = (Panic, fresh)
  ∧ (keyMap fresh !! key_u = None ∨ keyMap fresh !! key_u = Some notExist →
     Add double_cap 8 fresh key_u values WriteAll = (Panic, fresh)).
Proof.
  intros values.
  apply (X_Add_panics_at_buffer_end double_cap 8 fresh None key_u values WriteAll).
  - discriminate.
  - repeat (apply Forall_cons; split; [vm_compute; discriminate|]). constructor.
  - vm_compute. split; discriminate.
Defined.

(** ** Deleting on a key that holds the sentinel *)

(** X16. [dels] and [delsPrefix] test only whether the key is in the index, not
    whether its entry is the sentinel: after [Exist] has answered false for
    a key, Del and DelByPrefix with at least one argument slice the mapping
    at offset -1 and panic; nothing is changed. ([gets] and [adds] test the
    sentinel, and [Update] deletes the empty list [Get] returned, so these
    do not panic on such a key.) *)
Theorem X_Del_on_sentinel_panics fuel s key values :
  keyMap s !! key = Some notExist → values ≠ [] → (1 ≤ fuel)%nat →
  Del fuel s key values = (Panic, s)
  ∧ DelByPrefix fuel s key values = (Panic, s)
  ∧ Get fuel s key = Ret []
  ∧ fst (dels fuel s key []) = Ret tt.
Proof.
  intros Hk Hne Hfuel.
  destruct fuel as [|fuel]; [lia|].
  assert (Hslice : in_slice (bytesAddr s) notExist (notExist + 8) = false) by done.
  split; [|split; [|split]].
  - unfold Del, dels. rewrite Hk.
    case_decide as Hsize.
    + apply size_empty_iff in Hsize. destruct values as [|v vs]; [done|].
      exfalso. assert (v ∈ (list_to_set (v :: vs) : gset gostring)) as Hv
        by (apply elem_of_list_to_set; left).
      rewrite Hsize in Hv. by apply not_elem_of_empty in Hv.
    + rewrite dels_loop_eq. unfold del. by rewrite Hslice.
  - unfold DelByPrefix, delsPrefix. rewrite Hk.
    destruct values as [|v vs]; [done|].
    replace (len (v :: vs) =? 0) with false
      by (rewrite len_cons; pose proof (len_nonneg vs); lia).
    rewrite delsPrefix_loop_eq. unfold delPrefix. by rewrite Hslice.
  - unfold Get, gets. by rewrite Hk.
  - unfold dels. rewrite Hk. done.
Qed.

Lemma X_Del_on_sentinel_panics_witness :
  let s := snd (Exist fresh key_u) in
  Del 8 s key_u [str "v"] = (Panic, s)
  ∧ DelByPrefix 8 s key_u [str "v"] = (Panic, s)
  ∧ Get 8 s key_u = Ret []
  ∧ fst (dels 8 s key_u []) = Ret tt.
Proof.
  intros s.
  apply (X_Del_on_sentinel_panics 8 s key_u [str "v"]).
  - vm_compute; reflexivity.
  - discriminate.
  - lia.
Defined.

(** ** Appending touches the tail of the key only *)

Lemma chain_end_below m bound : ∀ rs o r,
  chain m bound o (r :: rs) → o + r_total r ≤ bound.
Proof.
  induction rs as [|r' rs IH]; intros o r H.
  - by destruct H as (_ & _ & ?).
  - destruct H as (_ & _ & Hord & Hrest). apply IH in Hrest.
    pose proof (r_total_pos r'). lia.
Qed.

(** Bytes outside the records of a chain are outside the [next] field of
    its tail. *)
Lemma apart_tail_link m bound : ∀ rs o lo hi,
  chain m bound o rs → apart o rs lo hi →
  hi ≤ tail_link o rs ∨ tail_link o rs + 8 ≤ lo.
Proof.
  induction rs as [|r rs IH]; intros o lo hi H Hap; [done|].
  destruct H as [Hr H]. destruct Hap as [Hap1 Hap2]. pose proof (r_total_pos r).
  destruct rs as [|r' rs'].
  - simpl. lia.
  - destruct H as (_ & _ & Hrest).
    change (tail_link o (r :: r' :: rs')) with (tail_link (r_next r) (r' :: rs')).
    by apply IH.
Qed.

Lemma chain_frame_tail m m' bound bound' o rs : ∀ rs' o',
  chain m bound o rs →
  chain m bound o' rs' → len m' = len m → bound ≤ bound' →
  (∀ lo n, 0 ≤ lo → lo + n ≤ bound →
     lo + n ≤ tail_link o rs ∨ tail_link o rs + 8 ≤ lo →
     sub m' lo n = sub m lo n) →
  chains_apart o rs o' rs' → chain m' bound' o' rs'.
Proof.
  induction rs' as [|r' rest IH]; intros o' Hc H Hlen Hb Hframe Hap; [done|].
  pose proof (chain_end_below _ _ _ _ _ H) as Hend.
  destruct H as [Hr H]. destruct Hap as [Hap1 Hap2].
  split.
  - apply (holds_frame m); [done..|]. apply Hframe; [by destruct Hr|done|].
    by apply (apart_tail_link m bound).
  - destruct rest as [|r2 rest2]; [destruct H; split; [done|lia]|].
    destruct H as (Hne & Hord & Hrest). split; [done|]. split; [done|].
    by apply IH.
Qed.

Section AppendFrame.

Variable growcap : Z → Z → Z.

Lemma add_written_frame s p key values n0 s' :
  Forall (λ v, len v ≤ 255) values →
  8 + 1 + len key + len (enc_values values) + 16 ≤ 1024 →
  0 ≤ f_pos s → 0 ≤ p →
  add growcap s (Some p) key values WriteAll = (Ret (n0, None), s') →
  ∀ lo n, 0 ≤ lo → lo + n ≤ f_pos s → lo + n ≤ p ∨ p + 8 ≤ lo →
    sub (bytesAddr s') lo n = sub (bytesAddr s) lo n.
Proof.
  intros H255 H1024 Hpos Hp Hadd lo n Hlo Hbelow Hout.
  unfold add in Hadd. rewrite add_record_fits in Hadd by done.
  cbn [file_write] in Hadd. inversion Hadd; subst. clear Hadd.
  unfold link. cbn [bytesAddr offset].
  rewrite sub_blit_outside by (done || rewrite len_be64; lia).
  apply sub_blit_outside; [done|done|lia].
Qed.

(** X17. Add that appends to the chain of a key - a non-empty list of values
    of at most 255 bytes, no in-place write, a record of at most 1024 bytes
    written in full, in an engine whose file position equals [offset] -
    changes, in front of the old [offset], only the eight bytes of the
    [next] field of the tail of that chain. So for every other key with a
    real index entry and a chain the mapping holds, whose records lie
    outside those of the first chain, [Get] returns after the call what it
    returned before. Both chains are well formed ([chain]): every record
    lies in front of [offset] and is laid out as [add] writes it, with a
    record key of at most 246 bytes, a value area of slots of 1 to 255
    bytes and tombstone bytes, and a [next] field that is 0 in the tail and
    otherwise the offset of the next record, which lies behind it. The
    index entry of the key is a real offset, the mapping is shorter than
    2^63 bytes and the walks have more steps than the first chain has
    records, and at least one step per record of the other chain. *)
Theorem X_Add_touches_own_tail_only fuel s key values head rs :
  len (bytesAddr s) < 2 ^ 63 → f_pos s = offset s →
  keyMap s !! key = Some head → head ≠ notExist →
  chain (bytesAddr s) (offset s) head rs → (length rs < fuel)%nat →
  values ≠ [] → reuses head rs values = false →
  Forall (λ v, len v ≤ 255) values →
  8 + 1 + len key + len (enc_values values) + 16 ≤ 1024 →
  (∀ lo n, 0 ≤ lo → lo + n ≤ offset s →
     lo + n ≤ tail_link head rs ∨ tail_link head rs + 8 ≤ lo →
     sub (bytesAddr (snd (Add growcap fuel s key values WriteAll))) lo n
     = sub (bytesAddr s) lo n)
  ∧ ∀ k' head' rs',
      keyMap s !! k' = Some head' → head' ≠ notExist →
      chain (bytesAddr s) (offset s) head' rs' → (length rs' ≤ fuel)%nat →
      chains_apart head rs head' rs' →
      Get fuel (snd (Add growcap fuel s key values WriteAll)) k' = Ret (chain_values rs')
      ∧ Get fuel s k' = Ret (chain_values rs').
Proof.
  intros Hm Hpos Hk Hhead Hchain Hfuel Hne Hre H255 H1024.
  pose proof (tail_link_range _ _ _ _ Hchain) as [Hp1 Hp2].
  assert (Hhead0 : 0 ≤ head) by (destruct rs; [done|]; by destruct Hchain as [[? _] _]).
  destruct (add_written growcap s (Some (tail_link head rs)) key values H255 H1024)
    as (s' & Hadd & Hp' & Ho' & Hkm' & Hlen').
  assert (Hadds : Add growcap fuel s key values WriteAll = (Ret None, s')).
  { unfold Add.
    rewrite (adds_chain_append growcap fuel s key values WriteAll head rs); try done; [|lia].
    by rewrite Hadd. }
  rewrite Hadds. cbn [snd].
  assert (Hframe : ∀ lo n, 0 ≤ lo → lo + n ≤ offset s →
            lo + n ≤ tail_link head rs ∨ tail_link head rs + 8 ≤ lo →
            sub (bytesAddr s') lo n = sub (bytesAddr s) lo n).
  { intros lo n Hlo Hbelow Hout.
    apply (add_written_frame s (tail_link head rs) key values
             (8 + 1 + len key + len (enc_values values) + 16) s' H255 H1024);
      try done; lia. }
  split; [done|].
  intros k' head' rs' Hk' Hhead' Hchain' Hfuel' Hap.
  split; [|by apply (gets_chain fuel s k' head' rs')].
  pose proof (len_nonneg key). pose proof (len_nonneg (enc_values values)).
  unfold Get. apply (gets_chain fuel s' k' head' rs'); try done.
  - by rewrite Hlen'.
  - rewrite Hkm'. unfold publish. rewrite Hk.
    by replace (head =? notExist) with false by lia.
  - apply (chain_frame_tail (bytesAddr s) _ (offset s) _ head rs); try done. lia.
Qed.

End AppendFrame.

Lemma X_Add_touches_own_tail_only_witness :
  let s := after [OAdd key_u [str "a"; str "bb"] WriteAll;
                  OAdd (str "w") [str "a"; str "c"] WriteAll;
                  OAdd key_u [str "a"] WriteAll] in
  let rs := [mkRecord key_u [Live (str "a"); Live (str "bb")] 31 61;
             mkRecord key_u [Live (str "a")] 89 0] in
  let rs' := [mkRecord (str "w") [Live (str "a"); Live (str "c")] 61 0] in
  let values := [str "dd"; str "e"] in
  (∀ lo n, 0 ≤ lo → lo + n ≤ offset s →
     lo + n ≤ tail_link 0 rs ∨ tail_link 0 rs + 8 ≤ lo →
     sub (bytesAddr (snd (Add double_cap 8 s key_u values WriteAll))) lo n
     = sub (bytesAddr s) lo n)
  ∧ Get 8 (snd (Add double_cap 8 s key_u values WriteAll)) (str "w")
    = Ret (chain_values rs')
  ∧ Get 8 s (str "w") = Ret (chain_values rs').
Proof.
  intros s rs rs' values.
  assert (Hcw : chain (bytesAddr s) (offset s) 31 rs').
  { cbn [chain rs']. split; [holds_concrete|].
    split; [reflexivity|vm_compute; discriminate]. }
  assert (Hkw : keyMap s !! str "w" = Some 31) by (vm_compute; reflexivity).
  assert (Hap : chains_apart 0 rs 31 rs').
  { cbn [chains_apart apart rs rs'].
    split; [|exact I].
    split; [right; vm_compute; discriminate|].
    split; [left; vm_compute; discriminate|exact I]. }
  assert (Hc : chain (bytesAddr s) (offset s) 0 rs).
  { cbn [chain rs]. split; [holds_concrete|].
    split; [vm_compute; discriminate|].
    split; [vm_compute; discriminate|].
    split; [holds_concrete|].
    split; [reflexivity|vm_compute; discriminate]. }
  assert (Hf : (length rs < 8)%nat) by (simpl; lia).
  assert (Hfw : (length rs' ≤ 8)%nat) by (simpl; lia).
  assert (Hnw : 31 ≠ notExist) by discriminate.
  assert (Hn0 : 0 ≠ notExist) by discriminate.
  assert (Hne : values ≠ []) by discriminate.
  assert (Hre : reuses 0 rs values = false) by reflexivity.
  assert (H255 : Forall (λ v, len v ≤ 255) values).
  { repeat (apply Forall_cons; split; [vm_compute; discriminate|]). constructor. }
  assert (H1024 : 8 + 1 + len key_u + len (enc_values values) + 16 ≤ 1024)
    by (vm_compute; discriminate).
  assert (Hpos : f_pos s = offset s) by (vm_compute; reflexivity).
  assert (Hk : keyMap s !! key_u = Some 0) by (vm_compute; reflexivity).
  assert (Hm : len (bytesAddr s) < 2 ^ 63) by (vm_compute; reflexivity).
  exact (match X_Add_touches_own_tail_only double_cap 8 s key_u values 0 rs
                 Hm Hpos Hk Hn0 Hc Hf Hne Hre H255 H1024 with
         | conj Hframe Hother =>
             conj Hframe (Hother (str "w") 31 rs' Hkw Hnw Hcw Hfw Hap)
         end).
Defined.

(** ** Update with a single value *)




(** ** A failing write *)

(** X19. When [f.Write] fails, storing only the first [n] bytes of the
    record (for any [n]), in an engine whose [offset] is not ahead of the
    file position: whatever [Add] returns, [offset], the index and the
    length of the mapping are as before. [Add] returns success only when
    the file position has not moved, and then the list of values is empty
    or it is a single value on a key with a real index entry. Whenever it
    does not return success, every byte of the mapping in front of [offset]
    is unchanged. *)
Theorem X_failed_write_keeps_chain (growcap : Z → Z → Z) fuel s key values n r s' :
  offset s ≤ f_pos s →
  adds growcap fuel s key values (WriteShort n) = (r, s') →
  offset s' = offset s ∧ keyMap s' = keyMap s
  ∧ len (bytesAddr s') = len (bytesAddr s)
  ∧ (r = Ret None →
     f_pos s' = f_pos s
     ∧ (values = []
        ∨ ∃ v o, values = [v] ∧ keyMap s !! key = Some o ∧ o ≠ notExist))
  ∧ (r ≠ Ret None →
     ∀ i, (i < Z.to_nat (offset s))%nat → bytesAddr s' !! i = bytesAddr s !! i).
Proof.
  intros Hpos H.
  apply adds_cases in H
    as [[-> Hr]|[(o & o' & start & value & -> & Ek & Ho & H)|(b8 & H & _)]].
  - split; [done|]. split; [done|]. split; [done|]. split; [|done].
    intros ->. split; [done|]. left.
    destruct Hr as [[-> _] | [? | ?]]; done.
  - pose proof (adds_reuse_grows s o o' start value) as (_ & _ & Hlen).
    rewrite H in Hlen. simpl in Hlen.
    apply adds_reuse_cases in H as [[-> ->]|(-> & m & ->)].
    + split; [done|]. split; [done|]. split; [done|]. split; done.
    + split; [done|]. split; [done|]. split; [done|]. split; [|done].
      intros _. split; [done|]. right. by exists value, o.
  - destruct (add growcap s b8 key values (WriteShort n)) as [r1 s1] eqn:Ea.
    apply add_write_short in Ea as (Ho & Hk & Hno & Hlen & Hbytes).
    assert (s1 = s') as -> by (destruct r1 as [[? ?]| |]; simpl in H; by inversion H).
    split; [done|]. split; [done|]. split; [done|]. split.
    + intros ->. destruct r1 as [[? [?|]]| |]; simpl in H; inversion H.
      by edestruct Hno.
    + intros _ i Hi. apply Hbytes. lia.
Qed.

Lemma X_failed_write_keeps_chain_witness :
  let s := after [OAdd key_u [str "a"] WriteAll] in
  let r := adds double_cap 8 s key_u [str "b"] (WriteShort 12) in
  offset (snd r) = offset s ∧ keyMap (snd r) = keyMap s
  ∧ len (bytesAddr (snd r)) = len (bytesAddr s)
  ∧ (fst r = Ret None →
     f_pos (snd r) = f_pos s
     ∧ ([str "b"] = []
        ∨ ∃ v o, [str "b"] = [v] ∧ keyMap s !! key_u = Some o ∧ o ≠ notExist))
  ∧ (fst r ≠ Ret None →
     ∀ i, (i < Z.to_nat (offset s))%nat → bytesAddr (snd r) !! i = bytesAddr s !! i).
Proof.
  intros s r.
  apply (X_failed_write_keeps_chain double_cap 8 s key_u [str "b"] 12 (fst r) (snd r)).
  - vm_compute; discriminate.
  - apply surjective_pairing.
Defined.
